(** * Coupled-dipole electrodynamics: a shallow embedding of
      [calc/coupled_dipoles.py] and the properties of its solver,
      Green tensor, rotations, polarizabilities and cross sections.

    Conventions of the embedding.

    - A Python float is a real number ([R]) and a Python or numpy complex
      a pair of reals ([C]); arithmetic is exact.  Division is Rocq's total
      division; the statements below keep the side conditions (nonzero
      separation, positive radius) under which the program divides by a
      nonzero quantity.
    - numpy promotes a float array to complex at its first operation with
      a complex one.  Arrays that meet complex arrays ([rotation_by]'s
      matrices, the unit vectors) are therefore held with complex entries
      from the start, through [RtoC].
    - An array is either unbatched ([One]: a float, a [(3,)] vector, a
      [(3,3)] matrix) or carries one leading sample axis ([Many]: shapes
      [(N,)], [(N,3)], [(N,3,3)]).  Binary operations broadcast along that
      axis the way numpy does and raise [ValueError] on a mismatch.
    - Exceptions are values of [exn]; a function that can raise returns a
      [result].
    - The physical constants read from [param/physical_constants.yaml]
      ([c], [hbar], [nm]) are not part of the module's source: they are
      fields of a [constants] record passed to every function that reads
      them. *)

From Stdlib Require Import Reals Lra Lia List String Bool ZArith.
From Stdlib Require Import Ring Field.
Import ListNotations.
Local Open Scope R_scope.

(** ** Exceptions and results *)

Inductive exn : Type :=
| ValueError                          (* broadcasting, ambiguous truth value *)
| LinAlgError                         (* numpy.linalg.inv on a singular matrix *)
| UnboundLocalError (name : string).  (* a local read before assignment *)

Inductive result (A : Type) : Type :=
| Ok (a : A)
| Raise (e : exn).
Arguments Ok {A} a.
Arguments Raise {A} e.

Definition bind {A B : Type} (r : result A) (k : A -> result B) : result B :=
  match r with
  | Ok a => k a
  | Raise e => Raise e
  end.

Notation "x <- r ;; k" := (bind r (fun x => k))
  (at level 61, r at next level, right associativity).

Fixpoint mapM {A B : Type} (f : A -> result B) (l : list A) : result (list B) :=
  match l with
  | [] => Ok []
  | a :: t => b <- f a ;; bs <- mapM f t ;; Ok (b :: bs)
  end.

(** ** Complex numbers *)

Definition C : Type := (R * R)%type.

Definition RtoC (x : R) : C := (x, 0).
Definition Ci : C := (0, 1).                       (* 1j *)
Definition Cre (z : C) : R := fst z.               (* np.real *)
Definition Cim (z : C) : R := snd z.               (* np.imag *)
Definition Cplus (u v : C) : C := (fst u + fst v, snd u + snd v).
Definition Copp (u : C) : C := (- fst u, - snd u).
Definition Cminus (u v : C) : C := Cplus u (Copp v).
Definition Cmult (u v : C) : C :=
  (fst u * fst v - snd u * snd v, fst u * snd v + snd u * fst v).
Definition Cnorm2 (u : C) : R := fst u * fst u + snd u * snd u.
Definition Cinv (u : C) : C := (fst u / Cnorm2 u, - snd u / Cnorm2 u).
Definition Cdiv (u v : C) : C := Cmult u (Cinv v).
Definition Cconj (u : C) : C := (fst u, - snd u).  (* np.conj *)
Definition Cmod (u : C) : R := sqrt (Cnorm2 u).    (* np.abs *)
Definition Cexp (u : C) : C :=                     (* np.exp *)
  (exp (fst u) * cos (snd u), exp (fst u) * sin (snd u)).

Declare Scope C_scope.
Delimit Scope C_scope with C.
Bind Scope C_scope with C.
Infix "+" := Cplus : C_scope.
Infix "-" := Cminus : C_scope.
Infix "*" := Cmult : C_scope.
Infix "/" := Cdiv : C_scope.
Notation "- x" := (Copp x) : C_scope.
Notation "/ x" := (Cinv x) : C_scope.
Definition C0 : C := RtoC 0.
Definition C1 : C := RtoC 1.

Definition Ceq_dec (u v : C) : {u = v} + {u <> v}.
Proof.
  destruct u as [a b], v as [c d].
  destruct (Req_dec_T a c) as [->|Hac]; [|right; congruence].
  destruct (Req_dec_T b d) as [->|Hbd]; [left; reflexivity|right; congruence].
Defined.

(** ** Three-component vectors and 3 x 3 matrices *)

Inductive vec3 (A : Type) : Type := V3 (a0 a1 a2 : A).
Arguments V3 {A} a0 a1 a2.

Definition rvec : Type := vec3 R.
Definition cvec : Type := vec3 C.
Definition cmat : Type := vec3 cvec.          (* the three rows *)

Definition vmap {A B : Type} (f : A -> B) (v : vec3 A) : vec3 B :=
  let 'V3 a b c := v in V3 (f a) (f b) (f c).
Definition vmap2 {A B D : Type} (f : A -> B -> D) (u : vec3 A) (v : vec3 B) : vec3 D :=
  let 'V3 a b c := u in let 'V3 a' b' c' := v in V3 (f a a') (f b b') (f c c').

(** [v[i]] and [v[i] = x] for an index in 0..2 (the program only uses
    literal indices in that range). *)
Definition vget {A : Type} (i : nat) (v : vec3 A) : A :=
  let 'V3 a b c := v in
  match i with O => a | S O => b | _ => c end.
Definition vset {A : Type} (i : nat) (x : A) (v : vec3 A) : vec3 A :=
  let 'V3 a b c := v in
  match i with O => V3 x b c | S O => V3 a x c | _ => V3 a b x end.
Definition mget (i j : nat) (m : cmat) : C := vget j (vget i m).
Definition mset (i j : nat) (x : C) (m : cmat) : cmat :=
  vset i (vset j x (vget i m)) m.

Definition vsumC (v : cvec) : C := let 'V3 a b c := v in (a + b + c)%C.
Definition vsumR (v : rvec) : R := let 'V3 a b c := v in a + b + c.

Definition vzero : cvec := V3 C0 C0 C0.
Definition zeros : cmat := V3 vzero vzero vzero.                 (* np.zeros((3,3)) *)
Definition identity3 : cmat :=                                   (* np.identity(3) *)
  V3 (V3 C1 C0 C0) (V3 C0 C1 C0) (V3 C0 C0 C1).

Definition vadd (u v : cvec) : cvec := vmap2 Cplus u v.
Definition vscale (k : C) (v : cvec) : cvec := vmap (Cmult k) v.
Definition dot (u v : cvec) : C := vsumC (vmap2 Cmult u v).
Definition col (j : nat) (m : cmat) : cvec := vmap (vget j) m.

Definition madd (a b : cmat) : cmat := vmap2 vadd a b.
Definition msub (a b : cmat) : cmat := vmap2 (vmap2 Cminus) a b.
Definition mscale (k : C) (a : cmat) : cmat := vmap (vscale k) a.
(** ['...ij,...j->...i']: matrix times vector. *)
Definition mvec (a : cmat) (v : cvec) : cvec := vmap (fun row => dot row v) a.
(** [a @ b] on two (3,3) arrays. *)
Definition mmul (a b : cmat) : cmat :=
  vmap (fun row => V3 (dot row (col 0 b)) (dot row (col 1 b)) (dot row (col 2 b))) a.
(** ['...i,...j->...ij']: outer product. *)
Definition outer (u v : cvec) : cmat := vmap (fun x => vmap (Cmult x) v) u.
Definition diag3 (a b c : C) : cmat :=
  V3 (V3 a C0 C0) (V3 C0 b C0) (V3 C0 C0 c).

(** Determinant and adjugate, by cofactors. *)
Definition det3 (m : cmat) : C :=
  let '(V3 (V3 a b c) (V3 d e f) (V3 g h i)) := m in
  (a * (e * i - f * h) - b * (d * i - f * g) + c * (d * h - e * g))%C.
Definition adj3 (m : cmat) : cmat :=
  let '(V3 (V3 a b c) (V3 d e f) (V3 g h i)) := m in
  (V3 (V3 (e * i - f * h) (c * h - b * i) (b * f - c * e))
      (V3 (f * g - d * i) (a * i - c * g) (c * d - a * f))
      (V3 (d * h - e * g) (b * g - a * h) (a * e - b * d)))%C.

(** [np.linalg.inv] on one (3,3) matrix.  In exact arithmetic the routine
    returns the inverse of a nonsingular matrix, which is unique, and
    raises [LinAlgError] on a singular one.  In floating point it raises
    when the factorisation meets a pivot that is exactly zero: a matrix
    that is singular by a cancellation may be inverted all the same.  The
    statements below conclude [LinAlgError] only for tensors with a zero
    row and column, where rounding cannot hide the zero pivot. *)
Definition inverse_of (m : cmat) : cmat := mscale (/ det3 m)%C (adj3 m).
Definition inv3 (m : cmat) : result cmat :=
  if Ceq_dec (det3 m) C0 then Raise LinAlgError
  else Ok (inverse_of m).

(** ** Arrays with an optional leading sample axis *)

Inductive batch (A : Type) : Type :=
| One (a : A)            (* no sample axis *)
| Many (l : list A).     (* leading axis of length [List.length l] *)
Arguments One {A} a.
Arguments Many {A} l.

Definition bmap {A B : Type} (f : A -> B) (x : batch A) : batch B :=
  match x with
  | One a => One (f a)
  | Many l => Many (map f l)
  end.

Fixpoint zipWith {A B D : Type} (f : A -> B -> D) (l1 : list A) (l2 : list B) : list D :=
  match l1, l2 with
  | a :: t1, b :: t2 => f a b :: zipWith f t1 t2
  | _, _ => []
  end.

(** numpy broadcasting of a binary operation along the sample axis: equal
    lengths are paired, a length-1 axis is stretched, anything else is a
    [ValueError]. *)
Definition bmap2 {A B D : Type} (f : A -> B -> D) (x : batch A) (y : batch B)
  : result (batch D) :=
  match x, y with
  | One a, One b => Ok (One (f a b))
  | One a, Many l => Ok (Many (map (f a) l))
  | Many l, One b => Ok (Many (map (fun a => f a b) l))
  | Many l1, Many l2 =>
      if Nat.eqb (List.length l1) (List.length l2) then Ok (Many (zipWith f l1 l2))
      else match l1, l2 with
           | [a], _ => Ok (Many (map (f a) l2))
           | _, [b] => Ok (Many (map (fun a => f a b) l1))
           | _, _ => Raise ValueError
           end
  end.

Definition bmapM {A B : Type} (f : A -> result B) (x : batch A) : result (batch B) :=
  match x with
  | One a => b <- f a ;; Ok (One b)
  | Many l => bs <- mapM f l ;; Ok (Many bs)
  end.

(** The batched array operations the module uses. *)
Definition matmul (a b : batch cmat) : result (batch cmat) := bmap2 mmul a b.
Definition matvec (a : batch cmat) (v : batch cvec) : result (batch cvec) := bmap2 mvec a v.
Definition einsum_ij_j (a : batch cmat) (v : batch cvec) : result (batch cvec) :=
  bmap2 mvec a v.
Definition add_arr (a b : batch cmat) : result (batch cmat) := bmap2 madd a b.
Definition sub_arr (a b : batch cmat) : result (batch cmat) := bmap2 msub a b.
Definition linalg_inv (a : batch cmat) : result (batch cmat) := bmapM inv3 a.

(** ** The module's functions *)

(** The constants the module loads at import time. *)
Record constants : Type := { c : R; hbar : R; nm : R }.

(** An angle argument: a float or a 1-D array of floats. *)
Definition angle : Type := batch R.

(** The truth value of a boolean array in an [if]: numpy refuses an array
    with more than one element. *)
Definition array_truth (l : list bool) : result bool :=
  match l with
  | [] => Ok false
  | [b] => Ok b
  | _ => Raise ValueError
  end.

(** [if x == None:] for [x] that is [None], a float or an array.  On an
    array [==] compares elementwise, and the [if] takes the truth value of
    the resulting array. *)
Definition eq_None_truth (x : option angle) : result bool :=
  match x with
  | None => Ok true
  | Some (One _) => Ok false
  | Some (Many l) => array_truth (map (fun _ => false) l)
  end.

(** [if E_d_angle == None: E_d_angle = mol_angle]. *)
Definition default_E_d_angle (E_d_angle : option angle) (mol_angle : angle)
  : result angle :=
  b <- eq_None_truth E_d_angle ;;
  Ok (if b then mol_angle
      else match E_d_angle with Some a => a | None => mol_angle end).

Definition neg (a : angle) : angle := bmap Ropp a.

(** One (3,3) slice of [rotation_by]'s array [R], filled entry by entry
    from [np.zeros]. *)
Definition rotation_slice (cosines sines : R) (rot_axis : string) : cmat :=
  let R0 := zeros in
  if String.eqb rot_axis "x" then
    let R1 := mset 1 1 (RtoC cosines) R0 in
    let R2 := mset 1 2 (RtoC (- sines)) R1 in
    let R3 := mset 2 1 (RtoC sines) R2 in
    let R4 := mset 2 2 (RtoC cosines) R3 in
    mset 0 0 C1 R4
  else if String.eqb rot_axis "y" then
    let R1 := mset 0 0 (RtoC cosines) R0 in
    let R2 := mset 0 2 (RtoC sines) R1 in
    let R3 := mset 2 0 (RtoC (- sines)) R2 in
    let R4 := mset 2 2 (RtoC cosines) R3 in
    mset 1 1 C1 R4
  else if String.eqb rot_axis "z" then
    let R1 := mset 0 0 (RtoC cosines) R0 in
    let R2 := mset 0 1 (RtoC (- sines)) R1 in
    let R3 := mset 1 0 (RtoC sines) R2 in
    let R4 := mset 1 1 (RtoC cosines) R3 in
    mset 2 2 C1 R4
  else R0.

(** [rotation_by(by_angle, rot_axis)]: shape (3,3) for a float, (N,3,3)
    for an array of N angles. *)
Definition rotation_by (by_angle : angle) (rot_axis : string) : batch cmat :=
  bmap (fun phi => rotation_slice (cos phi) (sin phi) rot_axis) by_angle.

(** [np.linalg.norm] of one row. *)
Definition norm3 (v : rvec) : R :=
  let 'V3 x y z := v in sqrt (x * x + y * y + z * z).

(** [vec_mag(row_vecs)]: the magnitudes of the rows, shape (N,1). *)
Definition vec_mag (row_vecs : list rvec) : list R := map norm3 row_vecs.

Definition scale_by (m : cmat) (k : C) : cmat := vmap (vmap (fun x => (x * k)%C)) m.

Section Program.

Variable K : constants.

(** One sample of [G]: the row [d_row] of [d_col] with its magnitude [d]
    from [vec_mag]; [drive_hbar_w] is a float, so [k] is a float and the
    reshaping of [d] and [k] only adds axes. *)
Definition G_sample (k : R) (d_row : rvec) : cmat :=
  let d := norm3 d_row in
  let n_hat := vmap (fun x => x / d) d_row in
  let dyad := vmap (fun x => vmap (fun y => RtoC (x * y)) n_hat) n_hat in
  let complex_phase_factor := Cexp (Ci * RtoC k * RtoC d)%C in
  mscale complex_phase_factor
    (msub
       (scale_by (msub (mscale (RtoC 3) dyad) identity3)
                 (RtoC (1 / d ^ 3) - Ci * RtoC k / RtoC (d ^ 2))%C)
       (scale_by (msub dyad identity3) (RtoC (k ^ 2 / d)))).

(** [G(drive_hbar_w, d_col, n_b)] for [d_col] of shape (N,3): one
    (3,3) tensor per row. *)
Definition G (drive_hbar_w : R) (d_col : list rvec) (n_b : R) : batch cmat :=
  let w := drive_hbar_w / hbar K in
  let k := w * n_b / c K in
  Many (map (G_sample k) d_col).

(** [rotation_by(-phi) @ alpha_diag @ rotation_by(phi)]. *)
Definition rotate_tensor (phi : angle) (alpha_diag : batch cmat) : result (batch cmat) :=
  t <- matmul (rotation_by (neg phi) "z") alpha_diag ;;
  matmul t (rotation_by phi "z").

(** [np.linalg.inv(np.identity(3) - alpha_0 @ G_d @ alpha_1 @ G_d)]. *)
Definition geometric_coupling (alpha_0 G_d alpha_1 : batch cmat) : result (batch cmat) :=
  t1 <- matmul alpha_0 G_d ;;
  t2 <- matmul t1 alpha_1 ;;
  t3 <- matmul t2 G_d ;;
  t4 <- sub_arr (One identity3) t3 ;;
  linalg_inv t4.

(** [rotation_by(E_d_angle) @ np.array([1,0,0])*drive_amp]. *)
Definition plane_wave_drive (E_d_angle : angle) (drive_amp : C) : result (batch cvec) :=
  v <- matvec (rotation_by E_d_angle "z") (One (V3 C1 C0 C0)) ;;
  Ok (bmap (vmap (fun x => (x * drive_amp)%C)) v).

(** [rotate_molecule] on in-plane angles (floats and 1-D arrays), for which
    [np.asarray(..).ndim] is at most 1 and neither polar branch is taken. *)
Definition rotate_molecule (mol_angle : angle) (alpha0_diag : batch cmat)
    (E_d_angle : option angle) (drive_amp : C)
  : result (batch cmat * batch cvec) :=
  E_d_angle <- default_E_d_angle E_d_angle mol_angle ;;
  let E_drive := vmap (fun x => (x * drive_amp)%C) (V3 C1 C0 C0) in
  let E_d_phi := E_d_angle in
  E_drive <- matvec (rotation_by E_d_phi "z") (One E_drive) ;;
  let alpha_0_p0 := alpha0_diag in
  let phi_0 := mol_angle in
  alpha_0 <- rotate_tensor phi_0 alpha_0_p0 ;;
  Ok (alpha_0, E_drive).

(** What the solvers return: [[p0, p1]], or [[p0, p1, alpha_0, alpha_1]]
    when [return_polarizabilities] is set. *)
Inductive moments : Type :=
| Moments (p0 p1 : batch cvec)
| MomentsPol (p0 p1 : batch cvec) (alpha_0 alpha_1 : batch cmat).

Definition dipole_mags_gened (mol_angle plas_angle : angle) (d_col : list rvec)
    (E_d_angle : option angle) (drive_hbar_w : R)
    (alpha0_diag alpha1_diag : batch cmat) (n_b : R) (drive_amp : C)
  : result (batch cvec * batch cvec) :=
  let phi_1 := plas_angle in
  r <- rotate_molecule mol_angle alpha0_diag E_d_angle drive_amp ;;
  let '(alpha_0, E_drive) := r in
  let alpha_1_p1 := alpha1_diag in
  alpha_1 <- rotate_tensor phi_1 alpha_1_p1 ;;
  let G_d := G drive_hbar_w d_col n_b in
  geometric_coupling_01 <- geometric_coupling alpha_0 G_d alpha_1 ;;
  p0 <- (m <- matmul geometric_coupling_01 alpha_0 ;; einsum_ij_j m E_drive) ;;
  p1 <- (m <- matmul alpha_1 G_d ;; einsum_ij_j m p0) ;;
  Ok (p0, p1).

(** [mol_dipole_mag] is a 1-D array (any other rank raises before the
    moments are computed); [drive_amp] defaults to 1. *)
Definition plas_dip_driven_by_mol (mol_angle plas_angle : angle) (d_col : list rvec)
    (mol_dipole_mag : list C) (E_d_angle : option angle) (drive_hbar_w : R)
    (alpha1_diag : batch cmat) (n_b : R) (drive_amp : C)
  : result (batch cvec * batch cvec) :=
  let phi_0 := mol_angle in
  let phi_1 := plas_angle in
  E_d_angle <- default_E_d_angle E_d_angle mol_angle ;;
  E_drive <- plane_wave_drive E_d_angle drive_amp ;;
  let alpha0_diag :=
    Many (map (fun m => mset 0 0 (m / drive_amp)%C zeros) mol_dipole_mag) in
  alpha_0 <- rotate_tensor phi_0 alpha0_diag ;;
  alpha_1 <- rotate_tensor phi_1 alpha1_diag ;;
  let G_d := G drive_hbar_w d_col n_b in
  geometric_coupling_01 <- geometric_coupling alpha_0 G_d alpha_1 ;;
  p0 <- einsum_ij_j alpha_0 E_drive ;;
  p1 <- (m <- matmul alpha_1 G_d ;; einsum_ij_j m p0) ;;
  Ok (p0, p1).

(** [[p0_unc]] or [[p0_unc, alpha_0]]. *)
Definition uncoupled_p0 (mol_angle : angle) (E_d_angle : option angle)
    (alpha_0_p0 : batch cmat) (drive_amp : C)
    (return_polarizability_tensor : bool)
  : result (batch cvec * option (batch cmat)) :=
  r <- rotate_molecule mol_angle alpha_0_p0 E_d_angle drive_amp ;;
  let '(alpha_0, E_drive) := r in
  p0_unc <- einsum_ij_j alpha_0 E_drive ;;
  if return_polarizability_tensor then Ok (p0_unc, Some alpha_0)
  else Ok (p0_unc, None).

(** [coupled_dip_mags_both_driven] with the coupling tensor it calls
    taken as a parameter [G_fun]; the module's function is the instance at
    [G]. *)
Definition coupled_dip_mags_both_driven_with
    (G_fun : R -> list rvec -> R -> batch cmat)
    (mol_angle plas_angle : angle) (d_col : list rvec)
    (E_d_angle : option angle) (drive_hbar_w : R)
    (alpha0_diag alpha1_diag : batch cmat) (n_b : R) (drive_amp : C)
    (return_polarizabilities : bool)
  : result moments :=
  let phi_0 := mol_angle in
  let phi_1 := plas_angle in
  E_d_angle <- default_E_d_angle E_d_angle mol_angle ;;
  E_drive <- plane_wave_drive E_d_angle drive_amp ;;
  let alpha_0_p0 := alpha0_diag in
  alpha_0 <- rotate_tensor phi_0 alpha_0_p0 ;;
  let alpha_1_p1 := alpha1_diag in
  alpha_1 <- rotate_tensor phi_1 alpha_1_p1 ;;
  let G_d := G_fun drive_hbar_w d_col n_b in
  geometric_coupling_01 <- geometric_coupling alpha_0 G_d alpha_1 ;;
  p0 <- (g <- matmul G_d alpha_1 ;;
         s <- add_arr (One identity3) g ;;
         a <- matmul alpha_0 s ;;
         m <- matmul geometric_coupling_01 a ;;
         einsum_ij_j m E_drive) ;;
  p1 <- (g <- matmul G_d alpha_0 ;;
         s <- add_arr (One identity3) g ;;
         a <- matmul alpha_1 s ;;
         m <- matmul geometric_coupling_01 a ;;
         einsum_ij_j m E_drive) ;;
  if negb return_polarizabilities then Ok (Moments p0 p1)
  else Ok (MomentsPol p0 p1 alpha_0 alpha_1).

Definition coupled_dip_mags_both_driven :=
  coupled_dip_mags_both_driven_with G.

Definition single_dip_mag_pw (angle_ : angle) (E_d_angle : option angle)
    (drive_hbar_w : R) (alpha0_diag : batch cmat) (n_b : R) (drive_amp : C)
    (return_polarizabilities : bool)
  : result (batch cvec * option (batch cmat)) :=
  let phi_0 := angle_ in
  E_d_angle <- default_E_d_angle E_d_angle angle_ ;;
  E_drive <- plane_wave_drive E_d_angle drive_amp ;;
  let alpha_0_p0 := alpha0_diag in
  alpha_0 <- rotate_tensor phi_0 alpha_0_p0 ;;
  p0 <- einsum_ij_j alpha_0 E_drive ;;
  if negb return_polarizabilities then Ok (p0, None)
  else Ok (p0, Some alpha_0).

(** *** Scattering cross sections *)

(** [np.abs(np.linalg.norm(p, axis=1))**2.] on one row. *)
Definition cnorm3 (p : cvec) : R :=
  let 'V3 x y z := p in sqrt (Cmod x ^ 2 + Cmod y ^ 2 + Cmod z ^ 2).
Definition abs_norm_sq (p : cvec) : R := Rabs (cnorm3 p) ^ 2.

(** [np.sum(.., axis=1)] on rows of floats. *)
Definition sum_axis1 (a : batch rvec) : batch R := bmap vsumR a.

(** [np.array([r0, r1, r2])] on three 1-D arrays: the rows must have one
    length. *)
Definition stack3 (r0 r1 r2 : list R) : result (list (list R)) :=
  if Nat.eqb (List.length r0) (List.length r1)
     && Nat.eqb (List.length r1) (List.length r2)
  then Ok [r0; r1; r2] else Raise ValueError.

Definition many_of {A : Type} (x : batch A) : list A :=
  match x with One a => [a] | Many l => l end.

(** The provider returns two (N,3) arrays. *)
Definition sigma_scat_coupled
    (dipoles_moments_per_omega : R -> list cvec * list cvec)
    (d_col : list rvec) (drive_hbar_w : R) (n_b : R) (E_0 : C)
  : result (list R * list (list R)) :=
  let omega := drive_hbar_w / hbar K in
  let k := omega * n_b / c K in
  let '(p_0, p_1) := dipoles_moments_per_omega omega in
  let G_d := G drive_hbar_w d_col n_b in
  let im_prod := vmap2 (fun x y => Cim (x * Cconj y)%C) in
  interference_term <-
    (g1 <- einsum_ij_j G_d (Many p_1) ;;
     t1 <- bmap2 im_prod (Many p_0) g1 ;;
     g0 <- einsum_ij_j G_d (Many p_0) ;;
     t0 <- bmap2 im_prod (Many p_1) g0 ;;
     s <- bmap2 (vmap2 Rplus) t1 t0 ;;
     Ok (sum_axis1 s)) ;;
  let diag_term_0 := Many (map (fun p => (2 / 3) * k ^ 3 * abs_norm_sq p) p_0) in
  let diag_term_1 := Many (map (fun p => (2 / 3) * k ^ 3 * abs_norm_sq p) p_1) in
  sigma <-
    (s1 <- bmap2 Rplus interference_term diag_term_0 ;;
     s2 <- bmap2 Rplus s1 diag_term_1 ;;
     Ok (bmap (fun x => (4 * PI * k / Cmod E_0 ^ 2) * x / n_b) s2)) ;;
  parts <- stack3 (many_of interference_term) (many_of diag_term_0)
                  (many_of diag_term_1) ;;
  Ok (many_of sigma,
      map (map (fun x => x * (4 * PI * k / (n_b * Cmod E_0 ^ 2)))) parts).

(** The provider returns one (N,3) array. *)
Definition single_dip_sigma_scat
    (dipoles_moments_per_omega : R -> list cvec)
    (drive_hbar_w : R) (n_b : R) (E_0 : C) : list R :=
  let omega := drive_hbar_w / hbar K in
  let k := omega * n_b / c K in
  let p_0 := dipoles_moments_per_omega omega in
  let diag_term_0 := map (fun p => (2 / 3) * k ^ 3 * abs_norm_sq p) p_0 in
  map (fun x => (4 * PI * k / Cmod E_0 ^ 2) * x / n_b) diag_term_0.

End Program.

(** ** Polarizability models *)

(** [np.arctanh] on a float. *)
Definition arctanh (x : R) : R := / 2 * ln ((1 + x) / (1 - x)).

(** [np.linspace(start, stop, num)]: [num] points with step
    [(stop - start)/(num - 1)]. *)
Definition linspace (start stop : R) (num : nat) : list R :=
  let step := (stop - start) / (INR num - 1) in
  map (fun i => INR i * step + start) (seq 0 num).

(** [np.trapz(y, x)]: the sum of [(x[i+1] - x[i]) * (y[i+1] + y[i]) / 2]. *)
Fixpoint trapz (y x : list R) : R :=
  match y, x with
  | y0 :: ((y1 :: _) as yt), x0 :: ((x1 :: _) as xt) =>
      (x1 - x0) * (y1 + y0) / 2 + trapz yt xt
  | _, _ => 0
  end.

(** The shared assembly step of the sphere models, for scalar components
    (the reshaping applies to frequency-swept arrays only). *)
Definition distribute_sphere_alpha_components_into_tensor
    (alpha_11 alpha_22 alpha_33 : C) (isolate_mode : option string)
  : result cmat :=
  let e11 := diag3 C1 C0 C0 in
  let e22 := diag3 C0 C1 C0 in
  let e33 := diag3 C0 C0 C1 in
  match isolate_mode with
  | None =>
      Ok (madd (madd (mscale alpha_11 e11) (mscale alpha_22 e22))
               (mscale alpha_33 e33))
  | Some mode =>
      if String.eqb mode "long" then Ok (mscale alpha_11 e11)
      else if String.eqb mode "short" || String.eqb mode "trans" then
        Ok (madd (mscale alpha_22 e22) (mscale alpha_33 e33))
      else Raise (UnboundLocalError "alpha_ij")
  end.

Section Polarizabilities.

Variable K : constants.

(** *** Quasistatic triaxial ellipsoid *)

(** The inner function [L_i(a, b, c)] of [sparse_ellipsoid_polarizability]. *)
Definition L_i (a b c_ : R) : R :=
  let q := map (fun x => x * nm K ^ 2) (linspace 0 10000 (Z.to_nat 100000)) in
  let fq := map (fun q => sqrt ((a ^ 2 + q) * (b ^ 2 + q) * (c_ ^ 2 + q))) q in
  let integrand := zipWith (fun q fq => 1 / ((a ^ 2 + q) * fq)) q fq in
  let integral := trapz integrand q in
  let L_val := (a * b * c_ / 2) * integral in
  L_val.

Definition sparse_ellipsoid_polarizability (eps : C) (eps_b a_x a_y a_z : R) : cmat :=
  let alpha_ii (a b c_ : R) : C :=
    (RtoC (a * b * c_) * (eps - RtoC eps_b) /
       (RtoC (3 * eps_b) + RtoC (3 * L_i a b c_) * (eps - RtoC eps_b)))%C in
  let alpha_1 := alpha_ii a_x a_y a_z in
  let alpha_2 := alpha_ii a_y a_z a_x in
  let alpha_3 := alpha_ii a_z a_x a_y in
  diag3 alpha_1 alpha_2 alpha_3.

(** *** Retarded (MLWA) sphere *)

Section Sphere.

Variables (eps : C) (eps_b a w : R).

Definition sphere_alphaR_ii (i : nat) : C :=
  (RtoC (a ^ 3 / 3) * (eps - RtoC eps_b) /
     (RtoC eps_b + RtoC (1 / 3) * (eps - RtoC eps_b)))%C.

Definition sphere_alphaMW_ii (i : nat) : C :=
  let alphaR := sphere_alphaR_ii i in
  let k := w * sqrt eps_b / c K in
  (alphaR /
     (C1 - (RtoC (k ^ 2 / a) * alphaR)
         - (Ci * RtoC ((2 * k ^ 3) / 3) * alphaR)))%C.

Definition sparse_ret_sphere_polarizability (isolate_mode : option string)
  : result cmat :=
  let alpha_11 := sphere_alphaMW_ii 1 in
  let alpha_22 := sphere_alphaMW_ii 2 in
  let alpha_33 := sphere_alphaMW_ii 3 in
  distribute_sphere_alpha_components_into_tensor
    alpha_11 alpha_22 alpha_33 isolate_mode.

End Sphere.

(** *** Retarded (MLWA) prolate or oblate spheroid *)

Section Spheroid.

Variables (eps : C) (eps_b : R) (w : R).

Definition ecc (a_x a_yz : R) : R :=
  sqrt (Rabs (a_x ^ 2 - a_yz ^ 2) / Rmax a_x a_yz ^ 2).

(** A local that no branch assigned raises when it is read. *)
Definition L_x (a_x a_yz : R) : result R :=
  let e := ecc a_x a_yz in
  if Rgt_dec a_x a_yz then
    Ok ((1 - e ^ 2) / e ^ 3 * (- e + arctanh e))
  else if Rlt_dec a_x a_yz then
    Ok ((1 / e ^ 2) * (1 - (sqrt (1 - e ^ 2) / e) * asin e))
  else Raise (UnboundLocalError "L").

Definition L_yz (a_x a_yz : R) : result R :=
  L <- L_x a_x a_yz ;; Ok ((1 - L) / 2).

Definition spheroid_L_i (i : nat) (a_x a_yz : R) : result R :=
  if Nat.eqb i 1 then L_x a_x a_yz
  else if Nat.eqb i 2 || Nat.eqb i 3 then L_yz a_x a_yz
  else Raise (UnboundLocalError "L").

Definition alphaR_ii (i : nat) (a_x a_yz : R) : result C :=
  L <- spheroid_L_i i a_x a_yz ;;
  Ok (RtoC ((a_x * a_yz ^ 2) / 3) * (eps - RtoC eps_b) /
        (RtoC eps_b + RtoC L * (eps - RtoC eps_b)))%C.

Definition D_x (a_x a_yz : R) : result R :=
  let e := ecc a_x a_yz in
  if Rgt_dec a_x a_yz then
    L <- spheroid_L_i 1 a_x a_yz ;;
    Ok (3 / 4 * (((1 + e ^ 2) / (1 - e ^ 2)) * L + 1))
  else if Rlt_dec a_x a_yz then
    L <- spheroid_L_i 1 a_x a_yz ;;
    Ok (3 / 4 * ((1 - 2 * e ^ 2) * L + 1))
  else Raise (UnboundLocalError "D").

Definition D_yz (a_x a_yz : R) : result R :=
  let e := ecc a_x a_yz in
  if Rgt_dec a_x a_yz then
    D <- D_x a_x a_yz ;;
    Ok ((a_yz / (2 * a_x)) * (3 / e * arctanh e - D))
  else if Rlt_dec a_x a_yz then
    D <- D_x a_x a_yz ;;
    Ok ((a_yz / (2 * a_x)) * (3 * sqrt (1 - e ^ 2) / e * asin e - D))
  else Raise (UnboundLocalError "D").

Definition alphaMW_ii (i : nat) (a_x a_yz : R) : result C :=
  alphaR <- alphaR_ii i a_x a_yz ;;
  let k := w * sqrt eps_b / c K in
  lD <- (if Nat.eqb i 1 then D <- D_x a_x a_yz ;; Ok (a_x, D)
         else if Nat.eqb i 2 || Nat.eqb i 3 then D <- D_yz a_x a_yz ;; Ok (a_yz, D)
         else Raise (UnboundLocalError "l_E")) ;;
  let '(l_E, D) := lD in
  Ok (alphaR /
        (C1 - RtoC ((k ^ 2 / l_E) * D) * alphaR
            - Ci * RtoC ((2 * k ^ 3) / 3) * alphaR))%C.

(** Reading a local that may be unbound. *)
Definition read_local {A : Type} (name : string) (v : option A) : result A :=
  match v with Some x => Ok x | None => Raise (UnboundLocalError name) end.

Definition sparse_ret_prolate_spheroid_polarizability
    (a_x a_yz : R) (isolate_mode : option string) : result cmat :=
  locals <-
    (if Rgt_dec a_x a_yz then
       alpha_11 <- alphaMW_ii 1 a_x a_yz ;;
       alpha_22 <- alphaMW_ii 2 a_x a_yz ;;
       alpha_33 <- alphaMW_ii 3 a_x a_yz ;;
       Ok (Some alpha_11, Some alpha_22, Some alpha_33)
     else if Rlt_dec a_x a_yz then
       alpha_11 <- alphaMW_ii 2 a_x a_yz ;;
       alpha_22 <- alphaMW_ii 2 a_x a_yz ;;
       alpha_33 <- alphaMW_ii 1 a_x a_yz ;;
       Ok (Some alpha_11, Some alpha_22, Some alpha_33)
     else Ok (None, None, None)) ;;
  let '(alpha_11, alpha_22, alpha_33) := locals in
  alpha_ij <-
    match isolate_mode with
    | None =>
        a11 <- read_local "alpha_11" alpha_11 ;;
        a22 <- read_local "alpha_22" alpha_22 ;;
        a33 <- read_local "alpha_33" alpha_33 ;;
        Ok (Some (diag3 a11 a22 a33))
    | Some mode =>
        if String.eqb mode "long" then
          if Rgt_dec a_x a_yz then
            a11 <- read_local "alpha_11" alpha_11 ;;
            Ok (Some (diag3 a11 C0 C0))
          else if Rlt_dec a_x a_yz then
            a11 <- read_local "alpha_11" alpha_11 ;;
            a22 <- read_local "alpha_22" alpha_22 ;;
            Ok (Some (diag3 a11 a22 C0))
          else Ok None
        else if String.eqb mode "short" || String.eqb mode "trans" then
          if Rgt_dec a_x a_yz then
            a22 <- read_local "alpha_22" alpha_22 ;;
            a33 <- read_local "alpha_33" alpha_33 ;;
            Ok (Some (diag3 C0 a22 a33))
          else if Rlt_dec a_x a_yz then
            a33 <- read_local "alpha_33" alpha_33 ;;
            Ok (Some (diag3 C0 C0 a33))
          else Ok None
        else Ok None
    end ;;
  read_local "alpha_ij" alpha_ij.

End Spheroid.

End Polarizabilities.

(** ** The specification's formulas

    These definitions follow the words of the specification; the theorems
    below compare them with the functions above. *)

(** [m'] is a two-sided inverse of [m]. *)
Definition is_inverse (m m' : cmat) : Prop :=
  mmul m m' = identity3 /\ mmul m' m = identity3.

Definition invertible (m : cmat) : Prop := exists m', is_inverse m m'.

(** The round-trip coupling operator's complement, I - a0 G a1 G. *)
Definition coupling_matrix (alpha_0 G_d alpha_1 : cmat) : cmat :=
  msub identity3 (mmul alpha_0 (mmul G_d (mmul alpha_1 G_d))).

(** p = M a (I + G a') E, read as M a (E + G a' E). *)
Definition closed_form (M alpha G_d alpha' : cmat) (E : cvec) : cvec :=
  mvec M (mvec alpha (vadd E (mvec G_d (mvec alpha' E)))).

(** p0 = a0 (E + G p1) and p1 = a1 (E + G p0). *)
Definition self_consistent (alpha_0 alpha_1 G_d : cmat) (E p0 p1 : cvec) : Prop :=
  p0 = mvec alpha_0 (vadd E (mvec G_d p1)) /\
  p1 = mvec alpha_1 (vadd E (mvec G_d p0)).

(** The lab-frame tensor R(-phi) a R(phi) and the rotated drive field. *)
Definition lab_tensor (phi : R) (alpha_diag : cmat) : cmat :=
  mmul (rotation_slice (cos (- phi)) (sin (- phi)) "z")
       (mmul alpha_diag (rotation_slice (cos phi) (sin phi) "z")).

Definition lab_field (phi : R) (drive_amp : C) : cvec :=
  vscale drive_amp (mvec (rotation_slice (cos phi) (sin phi) "z") (V3 C1 C0 C0)).

(** Conjugation of a tensor by the rotation through [phi] about
    [rot_axis], in the module's order R(-phi) T R(phi). *)
Definition conjugate_by (rot_axis : string) (phi : angle) (T : batch cmat)
  : result (batch cmat) :=
  t <- matmul (rotation_by (neg phi) rot_axis) T ;;
  matmul t (rotation_by phi rot_axis).

(** The unit vector d/|d|. *)
Definition unit_vector (d : rvec) : rvec := vmap (fun x => x / norm3 d) d.

(** G(d,k) = exp(ikr)[(3 nn - I)(1/r^3 - ik/r^2) - (nn - I)(k^2/r)]. *)
Definition G_formula (n_hat : rvec) (r k : R) : cmat :=
  let nn := outer (vmap RtoC n_hat) (vmap RtoC n_hat) in
  mscale (Cexp (Ci * RtoC (k * r))%C)
    (msub (mscale (RtoC (1 / r ^ 3) - Ci * RtoC (k / r ^ 2))%C
                  (msub (mscale (RtoC 3) nn) identity3))
          (mscale (RtoC (k ^ 2 / r)) (msub nn identity3))).

(** Im(u . conj v), summed over the three Cartesian components, and |p|^2. *)
Definition im_dot_conj (u v : cvec) : R := Cim (dot u (vmap Cconj v)).
Definition vnorm2 (p : cvec) : R :=
  let 'V3 x y z := p in Cnorm2 x + Cnorm2 y + Cnorm2 z.

(** sigma_scat = (4 pi k/(n_b |E0|^2)) [ Im(p0.conj(G p1)) + Im(p1.conj(G p0))
    + (2/3) k^3 (|p0|^2 + |p1|^2) ]. *)
Definition sigma_scat_formula (k n_b : R) (E_0 : C) (G_d : cmat) (p0 p1 : cvec) : R :=
  (4 * PI * k / (n_b * Cnorm2 E_0)) *
  (im_dot_conj p0 (mvec G_d p1) + im_dot_conj p1 (mvec G_d p0)
   + (2 / 3) * k ^ 3 * (vnorm2 p0 + vnorm2 p1)).

(** The same expression without the second dipole's terms. *)
Definition sigma_scat_single_formula (k n_b : R) (E_0 : C) (p0 : cvec) : R :=
  (4 * PI * k / (n_b * Cnorm2 E_0)) * ((2 / 3) * k ^ 3 * vnorm2 p0).

(** alpha_R / (1 - (k^2/a) alpha_R - i (2 k^3/3) alpha_R). *)
Definition mlwa_sphere_formula (alphaR : C) (k a : R) : C :=
  (alphaR / (C1 - RtoC (k ^ 2 / a) * alphaR - Ci * RtoC (2 * k ^ 3 / 3) * alphaR))%C.


(** ... and as the program computes it, with the factor 1/3:
    (a^3/3)(eps - eps_b)/(eps_b + (eps - eps_b)/3). *)
Definition alphaR_clausius_mossotti (eps : C) (eps_b a : R) : C :=
  (RtoC (a ^ 3 / 3) * (eps - RtoC eps_b) /
     (RtoC eps_b + RtoC (1 / 3) * (eps - RtoC eps_b)))%C.

(** The three depolarization factors of the ellipsoid model, in the
    order [sparse_ellipsoid_polarizability] computes them. *)
Definition depolarization_sum (K : constants) (a_x a_y a_z : R) : R :=
  L_i K a_x a_y a_z + L_i K a_y a_z a_x + L_i K a_z a_x a_y.

(** The integrand of [L_i] at one grid point, the sum of the three
    integrands the ellipsoid model integrates, and the function
    2/sqrt((a^2+q)(b^2+q)(c^2+q)) whose slope is minus that sum. *)
Definition ellipsoid_integrand (a b c_ q : R) : R :=
  1 / ((a ^ 2 + q) * sqrt ((a ^ 2 + q) * (b ^ 2 + q) * (c_ ^ 2 + q))).
Definition ellipsoid_integrand_sum (a b c_ q : R) : R :=
  ellipsoid_integrand a b c_ q + ellipsoid_integrand b c_ a q
  + ellipsoid_integrand c_ a b q.
Definition ellipsoid_primitive (a b c_ q : R) : R :=
  2 / sqrt ((a ^ 2 + q) * (b ^ 2 + q) * (c_ ^ 2 + q)).

(** A grid that increases by steps of at most [step]. *)
Fixpoint grid_ok (step : R) (xs : list R) : Prop :=
  match xs with
  | x0 :: ((x1 :: _) as t) => x0 <= x1 <= x0 + step /\ grid_ok step t
  | _ => True
  end.

(** [G] forced to zero: a zero tensor for every separation. *)
Definition G_forced_zero (drive_hbar_w : R) (d_col : list rvec) (n_b : R)
  : batch cmat :=
  Many (map (fun _ => zeros) d_col).

(** An argument of a batched call over a list of samples: one value for
    all of them (an unbatched array), or one value per sample (an array
    with a leading axis). *)
Definition per (S A : Type) : Type := (A + (S -> A))%type.

Definition at_sample {S A : Type} (x : per S A) (s : S) : A :=
  match x with inl a => a | inr f => f s end.

Definition as_batch {S A : Type} (samples : list S) (x : per S A) : batch A :=
  match x with inl a => One a | inr f => Many (map f samples) end.

Definition per_map {S A B : Type} (f : A -> B) (x : per S A) : per S B :=
  match x with inl a => inl (f a) | inr g => inr (fun s => f (g s)) end.

Definition per_map2 {S A B D : Type} (f : A -> B -> D) (x : per S A) (y : per S B)
  : per S D :=
  match x, y with
  | inl a, inl b => inl (f a b)
  | _, _ => inr (fun s => f (at_sample x s) (at_sample y s))
  end.

(** The lab-frame tensors and drive fields of a batched call. *)
Definition rot_z (phi : R) : cmat := rotation_slice (cos phi) (sin phi) "z".

Definition lab_tensor_per {S : Type} (phi : per S R) (alpha_diag : per S cmat)
  : per S cmat :=
  per_map2 mmul (per_map2 mmul (per_map rot_z (per_map Ropp phi)) alpha_diag)
           (per_map rot_z phi).

Definition drive_per {S : Type} (E_d_angle : option R) (mol_angle : per S R)
  : per S R :=
  match E_d_angle with Some a => inl a | None => mol_angle end.

Definition lab_field_per {S : Type} (phi : per S R) (drive_amp : C) : per S cvec :=
  per_map (vmap (fun x => (x * drive_amp)%C))
          (per_map2 mvec (per_map rot_z phi) (inl (V3 C1 C0 C0))).

(** The drive angle in effect: the emitter's when none is given. *)
Definition drive_angle (E_d_angle : option R) (mol_angle : R) : R :=
  match E_d_angle with Some a => a | None => mol_angle end.

(** *** Concrete inputs used in the examples below *)

Definition unit_constants : constants := {| c := 1; hbar := 1; nm := 1 |}.
Definition e_x : cvec := V3 C1 C0 C0.
(** A separation of length 1 off the axes. *)
Definition d_oblique : rvec := V3 (3 / 5) (4 / 5) 0.
(** Its static (k = 0) coupling tensor 3 nn - I. *)
Definition G_oblique : cmat :=
  V3 (V3 (RtoC (2 / 25)) (RtoC (36 / 25)) C0)
     (V3 (RtoC (36 / 25)) (RtoC (23 / 25)) C0)
     (V3 C0 C0 (RtoC (- 1))).
(** An emitter polarizable along x only and an isotropic particle. *)
Definition alpha_emitter : cmat := diag3 C1 C0 C0.
Definition alpha_particle : cmat := identity3.
(** For these, I - a0 G a1 G and its inverse ... *)
Definition N_oblique : cmat :=
  V3 (V3 (RtoC (- 27 / 25)) (RtoC (- 36 / 25)) C0) (V3 C0 C1 C0) (V3 C0 C0 C1).
Definition M_oblique : cmat :=
  V3 (V3 (RtoC (- 25 / 27)) (RtoC (- 4 / 3)) C0) (V3 C0 C1 C0) (V3 C0 C0 C1).
(** ... and the moments the two solvers return. *)
Definition p0_both : cvec := V3 (RtoC (- 1)) C0 C0.
Definition p1_both : cvec := V3 (RtoC (- 73 / 25)) (RtoC (36 / 25)) C0.
(** The second moment of the solution of p0 = a0 (E + G p1),
    p1 = a1 (E + G p0) in that configuration. *)
Definition p1_solution : cvec := V3 (RtoC (23 / 25)) (RtoC (- 36 / 25)) C0.

(** Two emitters, both along x, at the same oblique separation. *)
Definition two_angles : angle := Many [0; 0].
Definition two_separations : list rvec := [d_oblique; d_oblique].

(** An angle argument with at most one element: a float, or an array of
    size 0 or 1. *)
Definition single_angle (a : angle) : Prop :=
  match a with
  | One _ => True
  | Many l => (List.length l <= 1)%nat
  end.

Definition vsub (u v : cvec) : cvec := vmap2 Cminus u v.

(** ** Further functions of the module *)

(** *** Dispersion models *)

(** [drude_model(w, eps_inf, w_p, gamma)] at one frequency. *)
Definition drude_model (w eps_inf w_p gamma : R) : C :=
  (RtoC eps_inf - RtoC (w_p ^ 2) / (RtoC (w ^ 2) + Ci * RtoC w * RtoC gamma))%C.

Definition drude_lorentz_model (w eps_inf w_p gamma f_1 w_1 : R) : C :=
  (RtoC eps_inf - RtoC (w_p ^ 2) *
     (RtoC (1 - f_1) / (RtoC (w ^ 2) + Ci * RtoC w * RtoC gamma)
      + RtoC f_1 / (RtoC (w ^ 2) + Ci * RtoC w * RtoC gamma - RtoC (w_1 ^ 2))))%C.

(** *** The emitter's polarizability

    [e] (the elementary charge) is read from the constants file with [c],
    [hbar] and [nm]. *)

Section Fluorophore.

Variable K : constants.
Variable e : R.


End Fluorophore.

(** *** Particle models driven by the Drude permittivity, and their
    scattering cross sections *)

Section Particles.

Variable K : constants.

Definition sparse_ellipsoid_polarizability_drude (w eps_inf w_p gamma
    eps_b a_x a_y a_z : R) : cmat :=
  sparse_ellipsoid_polarizability K (drude_model w eps_inf w_p gamma) eps_b a_x a_y a_z.

Definition sigma_scat_spheroid (w eps_inf w_p gamma eps_b a_x a_y a_z : R) : R :=
  let alpha := sparse_ellipsoid_polarizability_drude w eps_inf w_p gamma
                 eps_b a_x a_y a_z in
  let sigma := (8 * PI / 3) * (w / c K) ^ 4 * (Cmod (mget 0 0 alpha) ^ 2) in
  sigma.





(** The inner function [alphaTME_ii] of
    [sparse_sphere_polarizability_TMatExp]. *)
Definition alphaTME_ii (eps : C) (eps_b w a : R) : C :=
  let eps_r := (eps / RtoC eps_b)%C in
  let ka := w * sqrt eps_b / c K * a in
  let alpha :=
    ((eps_r - C1) /
     (eps_r + RtoC 2
      - (RtoC 6 * eps_r - RtoC 12) * RtoC (ka ^ 2 / 10)
      - Ci * RtoC (2 * ka ^ 3 / 3) * (eps_r - C1))
     * RtoC (a ^ 3))%C in
  alpha.

Definition sparse_sphere_polarizability_TMatExp (eps : C) (eps_b a w : R)
    (isolate_mode : option string) : result cmat :=
  let alpha_11 := alphaTME_ii eps eps_b w a in
  let alpha_22 := alphaTME_ii eps eps_b w a in
  let alpha_33 := alphaTME_ii eps eps_b w a in
  distribute_sphere_alpha_components_into_tensor
    alpha_11 alpha_22 alpha_33 isolate_mode.





End Particles.

(** *** Moments of the emitter-driven pair at one separation *)

(** [np.asarray(d).reshape((1, 3))]: any array of three numbers. *)
Definition reshape_1_3 (d : list R) : result (list rvec) :=
  match d with
  | [x; y; z] => Ok [V3 x y z]
  | _ => Raise ValueError
  end.

Section Absorption.

Variable K : constants.

(** The call passes no [E_d_angle] on ([# E_d_angle=None,]). *)
Definition dipole_moments_per_omega (mol_angle plas_angle : angle) (d : list R)
    (E_d_angle : option angle) (drive_hbar_w : R)
    (alpha0_diag_of_omega alpha1_diag_of_omega : R -> batch cmat)
    (n_b : R) (drive_amp : C)
  : result (batch cvec * batch cvec) :=
  d_col <- reshape_1_3 d ;;
  let alpha0_diag := alpha0_diag_of_omega (drive_hbar_w / hbar K) in
  let alpha1_diag := alpha1_diag_of_omega (drive_hbar_w / hbar K) in
  dipole_mags_gened K mol_angle plas_angle d_col None drive_hbar_w
    alpha0_diag alpha1_diag n_b drive_amp.

(** *** Absorption cross sections *)

(** [np.sum(np.imag(p * np.conj(np.einsum('...ij,...j->...i', a, p))), axis=-1)]. *)
Definition interference_with (a : batch cmat) (p : batch cvec) : result (batch R) :=
  g <- einsum_ij_j a p ;;
  t <- bmap2 (vmap2 (fun x y => Cim (x * Cconj y)%C)) p g ;;
  Ok (bmap vsumR t).

(** [np.array([r0, r1, r2, r3])] on four 1-D arrays. *)
Definition stack4 (r0 r1 r2 r3 : list R) : result (list (list R)) :=
  if Nat.eqb (List.length r0) (List.length r1)
     && Nat.eqb (List.length r1) (List.length r2)
     && Nat.eqb (List.length r2) (List.length r3)
  then Ok [r0; r1; r2; r3] else Raise ValueError.

Definition sigma_abs_coupled (mol_angle plas_angle : angle) (d_col : list rvec)
    (E_d_angle : option angle) (drive_hbar_w : R)
    (alpha0_diag alpha1_diag : batch cmat) (n_b : R) (drive_amp : C)
  : result (list R * list (list R)) :=
  let omega := drive_hbar_w / hbar K in
  let k := omega * n_b / c K in
  r <- coupled_dip_mags_both_driven K mol_angle plas_angle d_col E_d_angle
         drive_hbar_w alpha0_diag alpha1_diag n_b drive_amp true ;;
  match r with
  | Moments _ _ => Raise ValueError
  | MomentsPol p_0 p_1 alpha_0 alpha_1 =>
      alpha_0_inv <- linalg_inv alpha_0 ;;
      alpha_1_inv <- linalg_inv alpha_1 ;;
      interference_term_0 <- interference_with alpha_0_inv p_0 ;;
      interference_term_1 <- interference_with alpha_1_inv p_1 ;;
      let diag_term_0 := bmap (fun p => (2 / 3) * k ^ 3 * abs_norm_sq p) p_0 in
      let diag_term_1 := bmap (fun p => (2 / 3) * k ^ 3 * abs_norm_sq p) p_1 in
      sigma <-
        (s1 <- bmap2 Rplus interference_term_0 interference_term_1 ;;
         s2 <- bmap2 Rminus s1 diag_term_0 ;;
         s3 <- bmap2 Rminus s2 diag_term_1 ;;
         Ok (bmap (fun x => (4 * PI * k / Cmod drive_amp ^ 2) * x) s3)) ;;
      parts <- stack4 (many_of interference_term_0) (many_of diag_term_0)
                      (many_of interference_term_1) (many_of diag_term_1) ;;
      Ok (many_of sigma,
          map (map (fun x => x * (4 * PI * k / (Cmod drive_amp ^ 2)))) parts)
  end.

Definition single_dip_absorption (mol_angle : angle) (E_d_angle : option angle)
    (alpha_0_p0 : batch cmat) (drive_hbar_w : R) (drive_amp : C) (n_b : R)
  : result (batch R) :=
  r <- uncoupled_p0 mol_angle E_d_angle alpha_0_p0 drive_amp true ;;
  match r with
  | (_, None) => Raise ValueError
  | (p, Some alpha) =>
      alpha_inv <- linalg_inv alpha ;;
      interference_term <- interference_with alpha_inv p ;;
      let omega := drive_hbar_w / hbar K in
      let k := omega * n_b / c K in
      let diag_term := bmap (fun p => (2 / 3) * k ^ 3 * abs_norm_sq p) p in
      d <- bmap2 Rminus interference_term diag_term ;;
      let sigma := bmap (fun x => (4 * PI * k / Cmod drive_amp ^ 2) * x) d in
      Ok sigma
  end.

(** [np.imag(np.einsum('...j,...j->...', p, np.conj(..)))]. *)
Definition power_absorped (p : batch cvec) (alpha : batch cmat)
    (drive_hbar_w : R) (drive_amp : C) (n_b : R) : result (batch R) :=
  alpha_inv <- linalg_inv alpha ;;
  interference_term <-
    (g <- einsum_ij_j alpha_inv p ;;
     bmap2 (fun u v => Cim (dot u (vmap Cconj v))) p g) ;;
  let omega := drive_hbar_w / hbar K in
  let k := omega * n_b / c K in
  let diag_term := bmap (fun p => (2 / 3) * k ^ 3 * abs_norm_sq p) p in
  d <- bmap2 Rminus interference_term diag_term ;;
  let sigma := bmap (fun x => (omega / 2) * x) d in
  Ok sigma.

End Absorption.

(** ** Notions used to state the further properties *)

(** The transpose of a (3,3) matrix. *)
Definition transpose (m : cmat) : cmat := V3 (col 0 m) (col 1 m) (col 2 m).

(** Mapping over a result. *)
Definition rmap {A B : Type} (f : A -> B) (r : result A) : result B :=
  x <- r ;; Ok (f x).

(** The moments scaled by a complex factor; the returned polarizabilities
    are left alone. *)
Definition scale_moments (lam : C) (m : moments) : moments :=
  match m with
  | Moments p0 p1 => Moments (bmap (vscale lam) p0) (bmap (vscale lam) p1)
  | MomentsPol p0 p1 a0 a1 =>
      MomentsPol (bmap (vscale lam) p0) (bmap (vscale lam) p1) a0 a1
  end.

(** The opposite separation. *)
Definition vopp (d : rvec) : rvec := vmap Ropp d.

(** (4 pi k/|E0|^2) [ Im(p . conj E) - (2/3) k^3 |p|^2 ]. *)
Definition absorption_formula (k : R) (E_0 : C) (p E : cvec) : R :=
  (4 * PI * k / Cnorm2 E_0) * (im_dot_conj p E - (2 / 3) * k ^ 3 * vnorm2 p).

(** The direction of the long axis of the lab-frame tensor, the direction
    across it, and the moment along both. *)
Definition axis_of (phi : R) : cvec := V3 (RtoC (cos phi)) (RtoC (- sin phi)) C0.
Definition across_of (phi : R) : cvec := V3 (RtoC (sin phi)) (RtoC (cos phi)) C0.

Definition in_plane_moment (a b : C) (phi psi : R) (drive_amp : C) : cvec :=
  vscale drive_amp
    (vadd (vscale (a * RtoC (cos (phi + psi)))%C (axis_of phi))
          (vscale (b * RtoC (sin (phi + psi)))%C (across_of phi))).

(** The quasistatic (Clausius-Mossotti) polarizability of a sphere,
    a^3 (eps - eps_b)/(eps + 2 eps_b). *)
Definition clausius_mossotti (eps : C) (eps_b a : R) : C :=
  (RtoC (a ^ 3) * (eps - RtoC eps_b) / (eps + RtoC 2 * RtoC eps_b))%C.

(** The four contributions to the absorption of the coupled pair at one
    sample: Im(p . conj(a^-1 p)) and (2/3) k^3 |p|^2 for each dipole. *)
Definition extinction_term (a : cmat) (p : cvec) : R :=
  im_dot_conj p (mvec (inverse_of a) p).
Definition scattered_term (k : R) (p : cvec) : R := (2 / 3) * k ^ 3 * vnorm2 p.


(** [np.sum(np.imag(p * np.conj(u)), axis=-1)] on one row, with u the
    product of the matrix and p. *)
Definition extinction_term_rows (a : cmat) (p : cvec) : R :=
  vsumR (vmap2 (fun x y => Cim (x * Cconj y)%C) p (mvec a p)).

(** A tensor with the xx entry only, as [sparse_polarizability_tensor]
    builds them. *)
Definition x_only (x : C) : cmat := mscale x (diag3 C1 C0 C0).

(** An isotropic particle of polarizability 1/3. *)
Definition alpha_third : cmat := diag3 (RtoC (1 / 3)) (RtoC (1 / 3)) (RtoC (1 / 3)).

(** ** Complex arithmetic *)

Lemma C_ring_theory : ring_theory C0 C1 Cplus Cmult Cminus Copp eq.
Proof.
  constructor; intros; try destruct x; try destruct y; try destruct z;
    unfold C0, C1, RtoC, Cplus, Cmult, Cminus, Copp; simpl;
    try reflexivity; f_equal; ring.
Qed.

Add Ring C_ring : C_ring_theory.

Lemma Cnorm2_pos (z : C) : z <> C0 -> 0 < Cnorm2 z.
Proof.
  destruct z as [a b]; unfold Cnorm2, C0, RtoC; simpl; intros Hz.
  destruct (Req_dec_T a 0) as [->|Ha].
  - destruct (Req_dec_T b 0) as [->|Hb]; [congruence|]. nra.
  - nra.
Qed.

Lemma Cinv_l (z : C) : z <> C0 -> (/ z * z)%C = C1.
Proof.
  intros Hz. pose proof (Cnorm2_pos z Hz) as Hn.
  destruct z as [a b]; unfold Cinv, Cmult, C1, RtoC, Cnorm2 in *; simpl in *.
  f_equal; field; lra.
Qed.

Lemma C_field_theory : field_theory C0 C1 Cplus Cmult Cminus Copp Cdiv Cinv eq.
Proof.
  constructor.
  - exact C_ring_theory.
  - unfold C0, C1, RtoC; intros H; injection H; lra.
  - reflexivity.
  - exact Cinv_l.
Qed.

Add Field C_field : C_field_theory.

(** ** Matrix algebra *)

Ltac vec_destruct :=
  repeat match goal with
         | v : cmat |- _ => destruct v as [? ? ?]
         | v : cvec |- _ => destruct v as [? ? ?]
         | v : vec3 _ |- _ => destruct v as [? ? ?]
         end.

Ltac mat_unfold :=
  cbv beta iota delta
      [coupling_matrix closed_form mmul mvec madd msub mscale scale_by vadd
       vscale dot col outer vmap vmap2 vget vset mget mset vsumC identity3
       zeros vzero diag3 det3 adj3].

Ltac by_entries :=
  repeat match goal with
         | |- V3 _ _ _ = V3 _ _ _ => f_equal
         end.

Ltac mat_ring := intros; vec_destruct; mat_unfold; by_entries; ring.

Lemma mmul_assoc (a b d : cmat) : mmul (mmul a b) d = mmul a (mmul b d).
Proof. mat_ring. Qed.

Lemma mmul_1_l (a : cmat) : mmul identity3 a = a.
Proof. mat_ring. Qed.

Lemma mmul_1_r (a : cmat) : mmul a identity3 = a.
Proof. mat_ring. Qed.

Lemma mmul_msub_l (a b d : cmat) : mmul a (msub b d) = msub (mmul a b) (mmul a d).
Proof. mat_ring. Qed.

Lemma mmul_msub_r (a b d : cmat) : mmul (msub a b) d = msub (mmul a d) (mmul b d).
Proof. mat_ring. Qed.

Lemma mvec_mmul (a b : cmat) (v : cvec) : mvec (mmul a b) v = mvec a (mvec b v).
Proof. mat_ring. Qed.

Lemma mvec_1 (v : cvec) : mvec identity3 v = v.
Proof. mat_ring. Qed.

Lemma mvec_madd (a b : cmat) (v : cvec) : mvec (madd a b) v = vadd (mvec a v) (mvec b v).
Proof. mat_ring. Qed.

Lemma mvec_msub (a b : cmat) (v : cvec) :
  mvec (msub a b) v = vmap2 Cminus (mvec a v) (mvec b v).
Proof. mat_ring. Qed.


Lemma det3_mmul (a b : cmat) : det3 (mmul a b) = (det3 a * det3 b)%C.
Proof. mat_ring. Qed.

Lemma det3_identity : det3 identity3 = C1.
Proof. mat_unfold. ring. Qed.

Lemma C1_neq_C0 : C1 <> C0.
Proof. unfold C0, C1, RtoC; intros H; injection H; lra. Qed.

Lemma adj3_inverse (m : cmat) :
  det3 m <> C0 -> is_inverse m (inverse_of m).
Proof.
  intros Hd. unfold is_inverse, inverse_of.
  assert (Hl : mmul m (adj3 m) = mscale (det3 m) identity3) by mat_ring.
  assert (Hr : mmul (adj3 m) m = mscale (det3 m) identity3) by mat_ring.
  assert (Hs1 : forall k a b, mmul a (mscale k b) = mscale k (mmul a b)) by mat_ring.
  assert (Hs2 : forall k a b, mmul (mscale k a) b = mscale k (mmul a b)) by mat_ring.
  assert (Hk : forall k, k <> C0 -> mscale (/ k)%C (mscale k identity3) = identity3).
  { intros k Hk. mat_unfold. by_entries; field; exact Hk. }
  rewrite Hs1, Hs2, Hl, Hr. split; apply Hk; exact Hd.
Qed.

Lemma invertible_det (m : cmat) : invertible m <-> det3 m <> C0.
Proof.
  split.
  - intros [m' [H _]] Hd.
    pose proof (det3_mmul m m') as E. rewrite H, det3_identity, Hd in E.
    apply C1_neq_C0. rewrite E. ring.
  - intros Hd. eexists. apply adj3_inverse, Hd.
Qed.

Lemma inverse_unique (m x y : cmat) : is_inverse m x -> is_inverse m y -> x = y.
Proof.
  intros [Hx1 Hx2] [Hy1 Hy2].
  rewrite <- (mmul_1_r x), <- Hy1, <- mmul_assoc, Hx2, mmul_1_l. reflexivity.
Qed.

(** [np.linalg.inv] returns the inverse exactly when there is one. *)
Lemma inv3_invertible (m : cmat) :
  invertible m -> inv3 m = Ok (inverse_of m) /\ is_inverse m (inverse_of m).
Proof.
  intros H. apply invertible_det in H. unfold inv3.
  destruct (Ceq_dec (det3 m) C0) as [E|_]; [contradiction|].
  split; [reflexivity|]. apply adj3_inverse, H.
Qed.

Lemma inv3_singular (m : cmat) : ~ invertible m -> inv3 m = Raise LinAlgError.
Proof.
  intros H. unfold inv3.
  destruct (Ceq_dec (det3 m) C0) as [_|E]; [reflexivity|].
  exfalso. apply H, invertible_det, E.
Qed.

Lemma inv3_identity : inv3 identity3 = Ok identity3.
Proof.
  destruct (inv3_invertible identity3) as [E Hi].
  - exists identity3. split; apply mmul_1_l.
  - rewrite E. f_equal.
    apply (inverse_unique identity3); [exact Hi|]. split; apply mmul_1_l.
Qed.

(** ** Broadcasting *)

Lemma zipWith_map_map {A B D X : Type} (f : A -> B -> D) (g : X -> A) (h : X -> B)
    (l : list X) :
  zipWith f (map g l) (map h l) = map (fun x => f (g x) (h x)) l.
Proof. induction l as [|x l IH]; simpl; [reflexivity|]. now rewrite IH. Qed.

Lemma bmap2_map_map {A B D X : Type} (f : A -> B -> D) (g : X -> A) (h : X -> B)
    (l : list X) :
  bmap2 f (Many (map g l)) (Many (map h l))
  = Ok (Many (map (fun x => f (g x) (h x)) l)).
Proof.
  unfold bmap2. rewrite !length_map, Nat.eqb_refl, zipWith_map_map. reflexivity.
Qed.

Lemma bmap2_map_l {A B D X : Type} (f : A -> B -> D) (g : X -> A) (l : list X) (b : B) :
  bmap2 f (Many (map g l)) (One b) = Ok (Many (map (fun x => f (g x) b) l)).
Proof. unfold bmap2. now rewrite map_map. Qed.

Lemma bmap2_map_r {A B D X : Type} (f : A -> B -> D) (h : X -> B) (a : A) (l : list X) :
  bmap2 f (One a) (Many (map h l)) = Ok (Many (map (fun x => f a (h x)) l)).
Proof. unfold bmap2. now rewrite map_map. Qed.

Lemma mapM_map_ok {A B X : Type} (f : A -> result B) (g : X -> A) (r : X -> B)
    (l : list X) :
  (forall x, In x l -> f (g x) = Ok (r x)) ->
  mapM f (map g l) = Ok (map r l).
Proof.
  induction l as [|x l IH]; simpl; intros H; [reflexivity|].
  rewrite (H x) by now left. simpl.
  rewrite IH by (intros y Hy; apply H; now right). reflexivity.
Qed.

(** ** Rotations *)

Section Rotations.

Variable rot_axis : string.
Hypothesis axis_ok : In rot_axis ["x"; "y"; "z"]%string.

Let Rot (phi : R) : cmat := rotation_slice (cos phi) (sin phi) rot_axis.

Lemma rotation_slice_inv_l (phi : R) : mmul (Rot (- phi)) (Rot phi) = identity3.
Proof.
  unfold Rot. rewrite cos_neg, sin_neg.
  pose proof (sin2_cos2 phi) as H. unfold Rsqr in H.
  set (s := sin phi) in *. set (co := cos phi) in *.
  destruct axis_ok as [<-|[<-|[<-|[]]]];
    cbv [rotation_slice String.eqb Ascii.eqb Bool.eqb]; mat_unfold;
    unfold Cplus, Cmult, C0, C1, RtoC; simpl; by_entries; f_equal; nra.
Qed.

Lemma rotation_slice_inv_r (phi : R) : mmul (Rot phi) (Rot (- phi)) = identity3.
Proof.
  pose proof (rotation_slice_inv_l (- phi)) as H.
  now rewrite Ropp_involutive in H.
Qed.

Lemma rotation_slice_round_trip (phi : R) (T : cmat) :
  mmul (mmul (Rot (- - phi)) (mmul (mmul (Rot (- phi)) T) (Rot phi))) (Rot (- phi)) = T.
Proof.
  rewrite Ropp_involutive, !mmul_assoc, rotation_slice_inv_r, mmul_1_r.
  rewrite <- mmul_assoc, rotation_slice_inv_r, mmul_1_l. reflexivity.
Qed.

End Rotations.

(** C7.  For a float or an array of angles [phi] and an axis among x, y
    and z, [rotation_by(-phi) @ rotation_by(phi)] is the identity (one per
    angle), and conjugating a (3,3) tensor by the rotation through [phi]
    and then through [-phi] gives the tensor back, in exact arithmetic. *)
Theorem rotation_by_round_trip (phi : angle) (rot_axis : string) :
  In rot_axis ["x"; "y"; "z"]%string ->
  matmul (rotation_by (neg phi) rot_axis) (rotation_by phi rot_axis)
  = Ok (bmap (fun _ => identity3) phi)
  /\ forall T : cmat,
      (t <- conjugate_by rot_axis phi (One T) ;; conjugate_by rot_axis (neg phi) t)
      = Ok (bmap (fun _ => T) phi).
Proof.
  intros Hax. destruct phi as [x|l]; split; intros.
  - cbn. now rewrite rotation_slice_inv_l.
  - cbn. now rewrite rotation_slice_round_trip.
  - unfold matmul, rotation_by, neg, bmap. rewrite map_map, bmap2_map_map.
    do 2 f_equal. apply map_ext. intros a. now apply rotation_slice_inv_l.
  - unfold conjugate_by, matmul, rotation_by, neg, bmap.
    rewrite !map_map, bmap2_map_l. cbn [bind].
    rewrite bmap2_map_map. cbn [bind].
    rewrite bmap2_map_map. cbn [bind].
    rewrite bmap2_map_map.
    do 2 f_equal. apply map_ext. intros a. now apply rotation_slice_round_trip.
Qed.

Lemma rotation_by_round_trip_witness :
  In "z"%string ["x"; "y"; "z"]%string /\
  (matmul (rotation_by (neg (Many [0; 1])) "z") (rotation_by (Many [0; 1]) "z")
   = Ok (Many [identity3; identity3])
   /\ forall T : cmat,
       (t <- conjugate_by "z" (Many [0; 1]) (One T) ;;
        conjugate_by "z" (neg (Many [0; 1])) t)
       = Ok (Many [T; T])).
Proof.
  assert (H : In "z"%string ["x"; "y"; "z"]%string) by (simpl; auto).
  split; [exact H|]. exact (rotation_by_round_trip (Many [0; 1]) "z" H).
Defined.

(** ** The Green tensor *)

Lemma RtoC_mult (x y : R) : RtoC (x * y) = (RtoC x * RtoC y)%C.
Proof. unfold RtoC, Cmult; simpl; f_equal; ring. Qed.

Lemma Cdiv_RtoC (z : C) (x y : R) :
  y <> 0 -> (z * RtoC x / RtoC y)%C = (z * RtoC (x / y))%C.
Proof.
  intros Hy. destruct z as [a b].
  unfold Cdiv, Cinv, Cmult, Cnorm2, RtoC; simpl. f_equal; field; lra.
Qed.

Lemma scale_by_mscale (m : cmat) (k : C) : scale_by m k = mscale k m.
Proof. mat_ring. Qed.

Lemma G_sample_formula (k : R) (d : rvec) :
  0 < norm3 d -> G_sample k d = G_formula (unit_vector d) (norm3 d) k.
Proof.
  intros Hd. unfold G_sample, G_formula, unit_vector.
  set (r := norm3 d) in *.
  rewrite !scale_by_mscale.
  replace (Ci * RtoC k * RtoC r)%C with (Ci * RtoC (k * r))%C
    by (rewrite RtoC_mult; ring).
  rewrite Cdiv_RtoC by (apply pow_nonzero; lra).
  f_equal. f_equal.
  - f_equal. f_equal. destruct d as [x y z]. mat_unfold.
    rewrite !RtoC_mult. reflexivity.
  - f_equal. f_equal. destruct d as [x y z]. mat_unfold.
    rewrite !RtoC_mult. reflexivity.
Qed.

(** C4.  For separations of nonzero length, [G] returns, for each row [d]
    of [d_col], the dyadic tensor
    exp(ikr)[(3 nn - I)(1/r^3 - ik/r^2) - (nn - I)(k^2/r)] with r = |d|,
    n = d/r and k = (drive_hbar_w/hbar) n_b/c: a function of the direction,
    the magnitude and the wavenumber alone. *)
Theorem G_is_dyadic_formula (K : constants) (drive_hbar_w : R)
    (d_col : list rvec) (n_b : R) :
  (forall d, In d d_col -> 0 < norm3 d) ->
  G K drive_hbar_w d_col n_b
  = Many (map (fun d => G_formula (unit_vector d) (norm3 d)
                                  (drive_hbar_w / hbar K * n_b / c K)) d_col).
Proof.
  intros Hd. unfold G. f_equal. apply map_ext_in. intros d Hin.
  apply G_sample_formula, Hd, Hin.
Qed.

Lemma norm3_e1 : norm3 (V3 1 0 0) = 1.
Proof.
  unfold norm3. replace (1 * 1 + 0 * 0 + 0 * 0) with 1 by ring. apply sqrt_1.
Qed.

Lemma G_is_dyadic_formula_witness :
  (forall d, In d [V3 1 0 0] -> 0 < norm3 d) /\
  G unit_constants 2 [V3 1 0 0] 1
  = Many (map (fun d => G_formula (unit_vector d) (norm3 d) (2 / 1 * 1 / 1))
              [V3 1 0 0]).
Proof.
  assert (H : forall d, In d [V3 1 0 0] -> 0 < norm3 d).
  { intros d [<-|[]]. rewrite norm3_e1. lra. }
  split; [exact H|]. exact (G_is_dyadic_formula unit_constants 2 [V3 1 0 0] 1 H).
Defined.

Lemma closed_form_eq (M alpha G_d alpha' : cmat) (E : cvec) :
  mvec (mmul M (mmul alpha (madd identity3 (mmul G_d alpha')))) E
  = closed_form M alpha G_d alpha' E.
Proof.
  unfold closed_form. now rewrite !mvec_mmul, mvec_madd, mvec_1, mvec_mmul.
Qed.

(** ** The coupled solvers on batched calls

    Angles and polarizabilities that are unbatched or carry one value per
    row of [d_col]. *)

Section Samples.

Context {S : Type}.
Variable samples : list S.

Lemma at_per_map {A B : Type} (f : A -> B) (x : per S A) (s : S) :
  at_sample (per_map f x) s = f (at_sample x s).
Proof. destruct x; reflexivity. Qed.

Lemma at_per_map2 {A B D : Type} (f : A -> B -> D) (x : per S A) (y : per S B)
    (s : S) :
  at_sample (per_map2 f x y) s = f (at_sample x s) (at_sample y s).
Proof. destruct x, y; reflexivity. Qed.

Lemma bmap_as_batch {A B : Type} (f : A -> B) (x : per S A) :
  bmap f (as_batch samples x) = as_batch samples (per_map f x).
Proof. destruct x; cbn; [reflexivity|]. now rewrite map_map. Qed.

Lemma bmap2_as_batch {A B D : Type} (f : A -> B -> D) (x : per S A) (y : per S B) :
  bmap2 f (as_batch samples x) (as_batch samples y)
  = Ok (as_batch samples (per_map2 f x y)).
Proof.
  destruct x as [a|g], y as [b|h]; cbn [as_batch per_map2 at_sample].
  - reflexivity.
  - apply bmap2_map_r.
  - apply bmap2_map_l.
  - apply bmap2_map_map.
Qed.

Lemma bmap2_as_batch_l {A B D : Type} (f : A -> B -> D) (x : per S A) (h : S -> B) :
  bmap2 f (as_batch samples x) (Many (map h samples))
  = Ok (Many (map (fun s => f (at_sample x s) (h s)) samples)).
Proof. destruct x; [apply bmap2_map_r|apply bmap2_map_map]. Qed.

Lemma bmap2_as_batch_r {A B D : Type} (f : A -> B -> D) (g : S -> A) (y : per S B) :
  bmap2 f (Many (map g samples)) (as_batch samples y)
  = Ok (Many (map (fun s => f (g s) (at_sample y s)) samples)).
Proof. destruct y; [apply bmap2_map_l|apply bmap2_map_map]. Qed.

Lemma at_lab_tensor_per (phi : per S R) (alpha_diag : per S cmat) (s : S) :
  at_sample (lab_tensor_per phi alpha_diag) s
  = lab_tensor (at_sample phi s) (at_sample alpha_diag s).
Proof.
  unfold lab_tensor_per, lab_tensor.
  rewrite !at_per_map2, !at_per_map. apply mmul_assoc.
Qed.

Lemma at_drive_per (E_d_angle : option R) (mol_angle : per S R) (s : S) :
  at_sample (drive_per E_d_angle mol_angle) s
  = drive_angle E_d_angle (at_sample mol_angle s).
Proof. destruct E_d_angle; reflexivity. Qed.

Lemma at_lab_field_per (phi : per S R) (drive_amp : C) (s : S) :
  at_sample (lab_field_per phi drive_amp) s = lab_field (at_sample phi s) drive_amp.
Proof.
  unfold lab_field_per, lab_field.
  rewrite at_per_map, at_per_map2, at_per_map. cbn [at_sample]. unfold rot_z.
  generalize (rotation_slice (cos (at_sample phi s)) (sin (at_sample phi s)) "z").
  intros m. destruct drive_amp as [a b]. mat_ring.
Qed.

Lemma rotation_by_per (phi : per S R) :
  rotation_by (as_batch samples phi) "z" = as_batch samples (per_map rot_z phi).
Proof. unfold rotation_by. apply bmap_as_batch. Qed.

Lemma rotate_tensor_per (phi : per S R) (alpha_diag : per S cmat) :
  rotate_tensor (as_batch samples phi) (as_batch samples alpha_diag)
  = Ok (as_batch samples (lab_tensor_per phi alpha_diag)).
Proof.
  unfold rotate_tensor, neg, matmul.
  rewrite bmap_as_batch, !rotation_by_per, bmap2_as_batch. cbn [bind].
  apply bmap2_as_batch.
Qed.

Lemma default_E_d_angle_per (E_d_angle : option R) (mol_angle : per S R) :
  default_E_d_angle (option_map One E_d_angle) (as_batch samples mol_angle)
  = Ok (as_batch samples (drive_per E_d_angle mol_angle)).
Proof. destruct E_d_angle; reflexivity. Qed.

Lemma plane_wave_drive_per (phi : per S R) (drive_amp : C) :
  plane_wave_drive (as_batch samples phi) drive_amp
  = Ok (as_batch samples (lab_field_per phi drive_amp)).
Proof.
  unfold plane_wave_drive, matvec. rewrite rotation_by_per.
  change (One (V3 C1 C0 C0)) with (as_batch samples (@inl cvec (S -> cvec) (V3 C1 C0 C0))).
  rewrite bmap2_as_batch. cbn [bind]. now rewrite bmap_as_batch.
Qed.

Lemma rotate_molecule_per (phi : per S R) (alpha_diag : per S cmat)
    (E_d_angle : option R) (drive_amp : C) :
  exists E : per S cvec,
    (forall s, at_sample E s
               = lab_field (drive_angle E_d_angle (at_sample phi s)) drive_amp) /\
    rotate_molecule (as_batch samples phi) (as_batch samples alpha_diag)
      (option_map One E_d_angle) drive_amp
    = Ok (as_batch samples (lab_tensor_per phi alpha_diag), as_batch samples E).
Proof.
  exists (per_map2 mvec (per_map rot_z (drive_per E_d_angle phi))
                   (inl (vmap (fun x => (x * drive_amp)%C) (V3 C1 C0 C0)))).
  split.
  - intros s. rewrite at_per_map2, at_per_map, at_drive_per. cbn [at_sample].
    unfold lab_field, rot_z.
    generalize (rotation_slice (cos (drive_angle E_d_angle (at_sample phi s)))
                               (sin (drive_angle E_d_angle (at_sample phi s))) "z").
    intros m. destruct drive_amp as [a b]. mat_ring.
  - unfold rotate_molecule. rewrite default_E_d_angle_per. cbn [bind].
    unfold matvec. rewrite rotation_by_per.
    change (One (vmap (fun x => (x * drive_amp)%C) (V3 C1 C0 C0)))
      with (as_batch samples
              (@inl cvec (S -> cvec) (vmap (fun x => (x * drive_amp)%C) (V3 C1 C0 C0)))).
    rewrite bmap2_as_batch. cbn [bind].
    now rewrite rotate_tensor_per.
Qed.

Variables (alpha_0 alpha_1 : per S cmat) (g : S -> cmat).

Let N (s : S) : cmat :=
  coupling_matrix (at_sample alpha_0 s) (g s) (at_sample alpha_1 s).

Hypothesis N_invertible : forall s, In s samples -> invertible (N s).

Lemma geometric_coupling_per :
  geometric_coupling (as_batch samples alpha_0) (Many (map g samples))
    (as_batch samples alpha_1)
  = Ok (Many (map (fun s => inverse_of (N s)) samples)).
Proof.
  unfold geometric_coupling, matmul, sub_arr, linalg_inv.
  rewrite bmap2_as_batch_l. cbn [bind].
  rewrite bmap2_as_batch_r. cbn [bind].
  rewrite bmap2_map_map. cbn [bind].
  rewrite bmap2_map_r. cbn [bind bmapM].
  rewrite (mapM_map_ok inv3 _ (fun s => inverse_of (N s))); [reflexivity|].
  intros s Hs. unfold N, coupling_matrix in *.
  rewrite !mmul_assoc. apply inv3_invertible, N_invertible, Hs.
Qed.

End Samples.

Ltac broadcast_per :=
  unfold matmul, add_arr, sub_arr, einsum_ij_j;
  repeat (first [rewrite bmap2_map_map | rewrite bmap2_map_l | rewrite bmap2_map_r
                | rewrite bmap2_as_batch_l | rewrite bmap2_as_batch_r];
          cbn [bind]).

(** [coupled_dip_mags_both_driven] (with any coupling function that returns
    one tensor per row) on a batched call. *)
Lemma both_driven_per {S : Type} (samples : list S)
    (G_fun : R -> list rvec -> R -> batch cmat) (g : S -> cmat) (d_of : S -> rvec)
    (phi_0 phi_1 : per S R) (E_d_angle : option R) (drive_hbar_w : R)
    (alpha0_diag alpha1_diag : per S cmat) (n_b : R) (drive_amp : C)
    (return_polarizabilities : bool) :
  let alpha_0 s := lab_tensor (at_sample phi_0 s) (at_sample alpha0_diag s) in
  let alpha_1 s := lab_tensor (at_sample phi_1 s) (at_sample alpha1_diag s) in
  let E s := lab_field (drive_angle E_d_angle (at_sample phi_0 s)) drive_amp in
  let M s := inverse_of (coupling_matrix (alpha_0 s) (g s) (alpha_1 s)) in
  G_fun drive_hbar_w (map d_of samples) n_b = Many (map g samples) ->
  (forall s, In s samples ->
             invertible (coupling_matrix (alpha_0 s) (g s) (alpha_1 s))) ->
  coupled_dip_mags_both_driven_with G_fun (as_batch samples phi_0)
    (as_batch samples phi_1) (map d_of samples) (option_map One E_d_angle)
    drive_hbar_w (as_batch samples alpha0_diag) (as_batch samples alpha1_diag)
    n_b drive_amp return_polarizabilities
  = let p0 := Many (map (fun s => closed_form (M s) (alpha_0 s) (g s) (alpha_1 s) (E s))
                        samples) in
    let p1 := Many (map (fun s => closed_form (M s) (alpha_1 s) (g s) (alpha_0 s) (E s))
                        samples) in
    Ok (if negb return_polarizabilities then Moments p0 p1
        else MomentsPol p0 p1
               (as_batch samples (lab_tensor_per phi_0 alpha0_diag))
               (as_batch samples (lab_tensor_per phi_1 alpha1_diag))).
Proof.
  intros alpha_0 alpha_1 E M HG Hinv.
  unfold coupled_dip_mags_both_driven_with.
  rewrite default_E_d_angle_per. cbn [bind].
  rewrite plane_wave_drive_per. cbn [bind].
  rewrite !rotate_tensor_per. cbn [bind].
  rewrite HG.
  rewrite (geometric_coupling_per samples _ _ g).
  2:{ intros s Hs. rewrite !at_lab_tensor_per. now apply Hinv. }
  cbn [bind]. broadcast_per.
  set (a0 := lab_tensor_per phi_0 alpha0_diag).
  set (a1 := lab_tensor_per phi_1 alpha1_diag).
  set (E' := lab_field_per (drive_per E_d_angle phi_0) drive_amp).
  assert (Ha0 : forall s, at_sample a0 s = alpha_0 s)
    by (intros s; apply at_lab_tensor_per).
  assert (Ha1 : forall s, at_sample a1 s = alpha_1 s)
    by (intros s; apply at_lab_tensor_per).
  assert (HE : forall s, at_sample E' s = E s).
  { intros s. unfold E'. now rewrite at_lab_field_per, at_drive_per. }
  assert (H0 : forall s,
             mvec (mmul (inverse_of
                           (coupling_matrix (at_sample a0 s) (g s) (at_sample a1 s)))
                        (mmul (at_sample a0 s)
                           (madd identity3 (mmul (g s) (at_sample a1 s)))))
                  (at_sample E' s)
             = closed_form (M s) (alpha_0 s) (g s) (alpha_1 s) (E s)).
  { intros s. now rewrite closed_form_eq, Ha0, Ha1, HE. }
  assert (H1 : forall s,
             mvec (mmul (inverse_of
                           (coupling_matrix (at_sample a0 s) (g s) (at_sample a1 s)))
                        (mmul (at_sample a1 s)
                           (madd identity3 (mmul (g s) (at_sample a0 s)))))
                  (at_sample E' s)
             = closed_form (M s) (alpha_1 s) (g s) (alpha_0 s) (E s)).
  { intros s. now rewrite closed_form_eq, Ha0, Ha1, HE. }
  rewrite (map_ext _ _ H0), (map_ext _ _ H1). cbv zeta.
  destruct return_polarizabilities; reflexivity.
Qed.

(** [dipole_mags_gened] on a batched call. *)
Lemma gened_per (K : constants) {S : Type} (samples : list S) (d_of : S -> rvec)
    (phi_0 phi_1 : per S R) (E_d_angle : option R) (drive_hbar_w : R)
    (alpha0_diag alpha1_diag : per S cmat) (n_b : R) (drive_amp : C) :
  let alpha_0 s := lab_tensor (at_sample phi_0 s) (at_sample alpha0_diag s) in
  let alpha_1 s := lab_tensor (at_sample phi_1 s) (at_sample alpha1_diag s) in
  let E s := lab_field (drive_angle E_d_angle (at_sample phi_0 s)) drive_amp in
  let g s := G_sample (drive_hbar_w / hbar K * n_b / c K) (d_of s) in
  let M s := inverse_of (coupling_matrix (alpha_0 s) (g s) (alpha_1 s)) in
  (forall s, In s samples ->
             invertible (coupling_matrix (alpha_0 s) (g s) (alpha_1 s))) ->
  dipole_mags_gened K (as_batch samples phi_0) (as_batch samples phi_1)
    (map d_of samples) (option_map One E_d_angle) drive_hbar_w
    (as_batch samples alpha0_diag) (as_batch samples alpha1_diag) n_b drive_amp
  = let p0 s := mvec (M s) (mvec (alpha_0 s) (E s)) in
    Ok (Many (map p0 samples),
        Many (map (fun s => mvec (alpha_1 s) (mvec (g s) (p0 s))) samples)).
Proof.
  intros alpha_0 alpha_1 E g M Hinv.
  unfold dipole_mags_gened.
  destruct (rotate_molecule_per samples phi_0 alpha0_diag E_d_angle drive_amp)
    as [E' [HE ->]].
  cbn [bind]. rewrite rotate_tensor_per. cbn [bind].
  unfold G. cbv zeta. rewrite map_map. fold g.
  rewrite (geometric_coupling_per samples _ _ g).
  2:{ intros s Hs. rewrite !at_lab_tensor_per. now apply Hinv. }
  cbn [bind]. broadcast_per. cbv zeta.
  do 2 f_equal; f_equal; apply map_ext; intros s;
    now rewrite !mvec_mmul, !at_lab_tensor_per, HE.
Qed.

(** ** Algebra of the closed-form solution *)

Lemma mvec_vsub (a : cmat) (u v : cvec) : mvec a (vsub u v) = vsub (mvec a u) (mvec a v).
Proof. unfold vsub. mat_ring. Qed.


Section ClosedForm.

Variables (alpha_0 alpha_1 G_d M : cmat) (E : cvec).

Hypothesis M_inverse : is_inverse (coupling_matrix alpha_0 G_d alpha_1) M.

Let A : cmat := mmul alpha_0 G_d.
Let B : cmat := mmul alpha_1 G_d.

Lemma coupling_matrix_AB : coupling_matrix alpha_0 G_d alpha_1 = msub identity3 (mmul A B).
Proof. unfold coupling_matrix, A, B. now rewrite !mmul_assoc. Qed.

Lemma coupling_matrix_apply (v : cvec) :
  mvec (coupling_matrix alpha_0 G_d alpha_1) v = vsub v (mvec A (mvec B v)).
Proof.
  rewrite coupling_matrix_AB. unfold vsub.
  now rewrite mvec_msub, mvec_1, mvec_mmul.
Qed.




End ClosedForm.

Lemma self_consistent_swap (alpha_0 alpha_1 G_d : cmat) (E p0 p1 : cvec) :
  self_consistent alpha_0 alpha_1 G_d E p0 p1
  <-> self_consistent alpha_1 alpha_0 G_d E p1 p0.
Proof. unfold self_consistent. tauto. Qed.

(** The first moment of any solution of the two equations is
    M a0 (E + G a1 E): substituting the second equation in the first gives
    (I - a0 G a1 G) p0 = a0 (E + G a1 E). *)
Lemma closed_form_unique (alpha_0 alpha_1 G_d M : cmat) (E p0 p1 : cvec) :
  is_inverse (coupling_matrix alpha_0 G_d alpha_1) M ->
  self_consistent alpha_0 alpha_1 G_d E p0 p1 ->
  p0 = closed_form M alpha_0 G_d alpha_1 E.
Proof.
  intros HM [H0 H1]. rewrite H1 in H0.
  assert (Hlin : forall p : cvec,
             vsub (mvec alpha_0 (vadd E (mvec G_d (mvec alpha_1 (vadd E (mvec G_d p))))))
                  (mvec (mmul alpha_0 G_d) (mvec (mmul alpha_1 G_d) p))
             = mvec alpha_0 (vadd E (mvec G_d (mvec alpha_1 E)))).
  { unfold vsub. mat_ring. }
  assert (HN : mvec (coupling_matrix alpha_0 G_d alpha_1) p0
               = mvec alpha_0 (vadd E (mvec G_d (mvec alpha_1 E)))).
  { rewrite coupling_matrix_apply, <- (Hlin p0). f_equal. exact H0. }
  unfold closed_form. rewrite <- HN, <- mvec_mmul.
  destruct HM as [_ ->]. now rewrite mvec_1.
Qed.

(** With M' the inverse of I - a1 G a0 G, the pair M a0 (E + G a1 E),
    M' a1 (E + G a0 E) solves the first equation. *)
Lemma closed_form_consistent_half (alpha_0 alpha_1 G_d M M' : cmat) (E : cvec) :
  is_inverse (coupling_matrix alpha_0 G_d alpha_1) M ->
  is_inverse (coupling_matrix alpha_1 G_d alpha_0) M' ->
  closed_form M alpha_0 G_d alpha_1 E
  = mvec alpha_0 (vadd E (mvec G_d (closed_form M' alpha_1 G_d alpha_0 E))).
Proof.
  intros HM HM'. unfold closed_form at 2.
  set (q1 := mvec alpha_1 (vadd E (mvec G_d (mvec alpha_0 E)))).
  set (w := mvec M' q1).
  assert (Hw : mvec (mmul alpha_1 G_d) (mvec (mmul alpha_0 G_d) w) = vsub w q1).
  { assert (H : mvec (coupling_matrix alpha_1 G_d alpha_0) w = q1).
    { unfold w. rewrite <- mvec_mmul. destruct HM' as [-> _]. apply mvec_1. }
    rewrite coupling_matrix_apply in H. rewrite <- H.
    generalize (mvec (mmul alpha_1 G_d) (mvec (mmul alpha_0 G_d) w)).
    intros u. unfold vsub. mat_ring. }
  assert (H1 : forall u : cvec,
             vsub (mvec alpha_0 (vadd E (mvec G_d u)))
                  (mvec (mmul alpha_0 G_d)
                     (mvec (mmul alpha_1 G_d) (mvec alpha_0 (vadd E (mvec G_d u)))))
             = vsub (vadd (mvec alpha_0 E) (mvec (mmul alpha_0 G_d) u))
                    (mvec (mmul alpha_0 G_d)
                       (vadd (mvec (mmul alpha_1 G_d) (mvec alpha_0 E))
                             (mvec (mmul alpha_1 G_d) (mvec (mmul alpha_0 G_d) u))))).
  { unfold vsub. mat_ring. }
  assert (H2 : forall u : cvec,
             vsub (vadd (mvec alpha_0 E) (mvec (mmul alpha_0 G_d) u))
                  (mvec (mmul alpha_0 G_d)
                     (vadd (mvec (mmul alpha_1 G_d) (mvec alpha_0 E))
                           (vsub u (mvec alpha_1 (vadd E (mvec G_d (mvec alpha_0 E)))))))
             = mvec alpha_0 (vadd E (mvec G_d (mvec alpha_1 E)))).
  { unfold vsub. mat_ring. }
  assert (HN : mvec (coupling_matrix alpha_0 G_d alpha_1)
                 (mvec alpha_0 (vadd E (mvec G_d w)))
               = mvec alpha_0 (vadd E (mvec G_d (mvec alpha_1 E)))).
  { rewrite coupling_matrix_apply, H1, Hw. apply H2. }
  unfold closed_form. rewrite <- HN, <- mvec_mmul.
  destruct HM as [_ ->]. now rewrite mvec_1.
Qed.

(** The two equations have exactly one solution when both round-trip
    matrices are invertible: p0 = M a0 (E + G a1 E) and
    p1 = M' a1 (E + G a0 E), each moment with the inverse of its own
    round trip, M = (I - a0 G a1 G)^-1 and M' = (I - a1 G a0 G)^-1. *)
Lemma both_driven_solution (alpha_0 alpha_1 G_d M M' : cmat) (E q0 q1 : cvec) :
  is_inverse (coupling_matrix alpha_0 G_d alpha_1) M ->
  is_inverse (coupling_matrix alpha_1 G_d alpha_0) M' ->
  self_consistent alpha_0 alpha_1 G_d E q0 q1
  <-> q0 = closed_form M alpha_0 G_d alpha_1 E
      /\ q1 = closed_form M' alpha_1 G_d alpha_0 E.
Proof.
  intros HM HM'. split.
  - intros H. split.
    + exact (closed_form_unique _ _ _ _ _ _ _ HM H).
    + apply self_consistent_swap in H.
      exact (closed_form_unique _ _ _ _ _ _ _ HM' H).
  - intros [-> ->]. split.
    + now apply closed_form_consistent_half.
    + now apply closed_form_consistent_half.
Qed.

(** det(I - A B) = det(I - B A). *)
Lemma det3_sylvester (A B : cmat) :
  det3 (msub identity3 (mmul A B)) = det3 (msub identity3 (mmul B A)).
Proof. mat_ring. Qed.

Lemma coupling_invertible_swap (alpha_0 alpha_1 G_d : cmat) :
  invertible (coupling_matrix alpha_0 G_d alpha_1) ->
  invertible (coupling_matrix alpha_1 G_d alpha_0).
Proof.
  rewrite !invertible_det, !coupling_matrix_AB. now rewrite det3_sylvester.
Qed.

(** ** A concrete configuration *)

Ltac c_entries :=
  cbv beta iota delta
      [coupling_matrix closed_form mmul mvec madd msub mscale scale_by vadd vsub
       vscale dot col outer vmap vmap2 vget vset mget mset vsumC identity3
       zeros vzero diag3 det3 adj3 Cplus Cmult Cminus Copp C0 C1 Ci RtoC
       fst snd];
  by_entries.

Lemma rotation_slice_0 : rotation_slice (cos 0) (sin 0) "z" = identity3.
Proof.
  rewrite cos_0, sin_0.
  cbv [rotation_slice String.eqb Ascii.eqb Bool.eqb].
  c_entries; f_equal; lra.
Qed.

Lemma lab_tensor_0 (a : cmat) : lab_tensor 0 a = a.
Proof.
  unfold lab_tensor. rewrite Ropp_0, rotation_slice_0.
  now rewrite mmul_1_l, mmul_1_r.
Qed.

Lemma lab_field_0 : lab_field 0 C1 = e_x.
Proof.
  unfold lab_field, e_x. rewrite rotation_slice_0.
  c_entries; f_equal; lra.
Qed.

Lemma norm3_d_oblique : norm3 d_oblique = 1.
Proof.
  unfold norm3, d_oblique.
  replace (3 / 5 * (3 / 5) + 4 / 5 * (4 / 5) + 0 * 0) with 1 by field.
  apply sqrt_1.
Qed.

Lemma G_formula_oblique :
  G_formula (unit_vector d_oblique) (norm3 d_oblique) (0 / 1 * 1 / 1) = G_oblique.
Proof.
  unfold unit_vector. rewrite norm3_d_oblique.
  replace (0 / 1 * 1 / 1) with 0 by field.
  unfold G_formula, d_oblique, G_oblique, Cexp, Ci, RtoC, Cmult. cbn [fst snd].
  repeat match goal with
         | |- context [exp ?x] => progress replace x with 0 by ring
         | |- context [cos ?x] => progress replace x with 0 by ring
         end.
  rewrite exp_0, cos_0, sin_0.
  c_entries; f_equal; field.
Qed.

Lemma coupling_matrix_oblique :
  coupling_matrix alpha_emitter G_oblique alpha_particle = N_oblique.
Proof.
  unfold alpha_emitter, alpha_particle, G_oblique, N_oblique.
  c_entries; f_equal; lra.
Qed.

Lemma M_oblique_inverse : is_inverse N_oblique M_oblique.
Proof.
  unfold is_inverse, N_oblique, M_oblique.
  split; c_entries; f_equal; lra.
Qed.

Lemma inverse_of_N_oblique : inverse_of N_oblique = M_oblique.
Proof.
  apply (inverse_unique N_oblique); [|exact M_oblique_inverse].
  apply inv3_invertible. exists M_oblique. exact M_oblique_inverse.
Qed.

Lemma closed_form_oblique :
  closed_form M_oblique alpha_emitter G_oblique alpha_particle e_x = p0_both /\
  closed_form M_oblique alpha_particle G_oblique alpha_emitter e_x = p1_both.
Proof.
  unfold M_oblique, alpha_emitter, alpha_particle, G_oblique, e_x, p0_both, p1_both.
  split; c_entries; f_equal; lra.
Qed.

Lemma G_sample_oblique : G_sample (0 / 1 * 1 / 1) d_oblique = G_oblique.
Proof.
  rewrite G_sample_formula by (rewrite norm3_d_oblique; lra).
  apply G_formula_oblique.
Qed.

(** ** The coupled solver: closed form and self-consistency *)

(** On a batched call with separations of nonzero length and I - a0 G a1 G
    invertible at each sample, [coupled_dip_mags_both_driven] returns
    M a0 (E + G a1 E) and M a1 (E + G a0 E) with the one inverse
    M = (I - a0 G a1 G)^-1. *)
Lemma both_driven_closed_form (K : constants) {S : Type}
    (samples : list S) (d_of : S -> rvec) (phi_0 phi_1 : per S R)
    (E_d_angle : option R) (drive_hbar_w : R)
    (alpha0_diag alpha1_diag : per S cmat) (n_b : R) (drive_amp : C) :
  let alpha_0 s := lab_tensor (at_sample phi_0 s) (at_sample alpha0_diag s) in
  let alpha_1 s := lab_tensor (at_sample phi_1 s) (at_sample alpha1_diag s) in
  let E s := lab_field (drive_angle E_d_angle (at_sample phi_0 s)) drive_amp in
  let G_of s := G_formula (unit_vector (d_of s)) (norm3 (d_of s))
                          (drive_hbar_w / hbar K * n_b / c K) in
  let M s := inverse_of (coupling_matrix (alpha_0 s) (G_of s) (alpha_1 s)) in
  (forall s, In s samples -> 0 < norm3 (d_of s)) ->
  (forall s, In s samples ->
             invertible (coupling_matrix (alpha_0 s) (G_of s) (alpha_1 s))) ->
  coupled_dip_mags_both_driven K (as_batch samples phi_0) (as_batch samples phi_1)
    (map d_of samples) (option_map One E_d_angle) drive_hbar_w
    (as_batch samples alpha0_diag) (as_batch samples alpha1_diag)
    n_b drive_amp false
  = Ok (Moments
          (Many (map (fun s => closed_form (M s) (alpha_0 s) (G_of s) (alpha_1 s) (E s))
                     samples))
          (Many (map (fun s => closed_form (M s) (alpha_1 s) (G_of s) (alpha_0 s) (E s))
                     samples))).
Proof.
  intros alpha_0 alpha_1 E G_of M Hd Hinv.
  assert (HG : forall s, In s samples ->
             G_sample (drive_hbar_w / hbar K * n_b / c K) (d_of s) = G_of s).
  { intros s Hin. apply G_sample_formula, Hd, Hin. }
  unfold coupled_dip_mags_both_driven.
  rewrite (both_driven_per samples (G K)
             (fun s => G_sample (drive_hbar_w / hbar K * n_b / c K) (d_of s)) d_of).
  - cbn [negb]. fold alpha_0 alpha_1 E. unfold M. do 2 f_equal; f_equal;
      apply map_ext_in; intros s Hin; now rewrite (HG s Hin).
  - unfold G. now rewrite map_map.
  - intros s Hin. fold alpha_0 alpha_1. rewrite (HG s Hin). now apply Hinv.
Qed.

Lemma invertible_oblique :
  invertible (coupling_matrix alpha_emitter G_oblique alpha_particle).
Proof. rewrite coupling_matrix_oblique. exists M_oblique. exact M_oblique_inverse. Qed.

Lemma both_driven_oblique :
  coupled_dip_mags_both_driven unit_constants (One 0) (One 0) [d_oblique] None 0
    (One alpha_emitter) (One alpha_particle) 1 C1 false
  = Ok (Moments (Many [p0_both]) (Many [p1_both])).
Proof.
  unfold coupled_dip_mags_both_driven.
  pose proof (both_driven_per [d_oblique] (G unit_constants)
                (G_sample (0 / 1 * 1 / 1)) (fun d => d) (inl 0) (inl 0) None 0
                (inl alpha_emitter) (inl alpha_particle) 1 C1 false) as H.
  cbv zeta in H. cbn [as_batch at_sample map option_map negb drive_angle] in H.
  etransitivity; [apply H|].
  - reflexivity.
  - intros d [<-|[]].
    rewrite !lab_tensor_0, G_sample_oblique. exact invertible_oblique.
  - rewrite !lab_tensor_0, lab_field_0, G_sample_oblique, coupling_matrix_oblique,
      inverse_of_N_oblique.
    destruct closed_form_oblique as [-> ->]. reflexivity.
Qed.


(** The equations of the oblique configuration have one solution, whose
    second moment is not the one returned. *)
Lemma oblique_solution (q0 q1 : cvec) :
  self_consistent alpha_emitter alpha_particle G_oblique e_x q0 q1
  <-> q0 = p0_both /\ q1 = p1_solution.
Proof.
  assert (H1 : mvec alpha_particle (vadd e_x (mvec G_oblique p0_both)) = p1_solution).
  { unfold alpha_particle, e_x, G_oblique, p0_both, p1_solution.
    c_entries; f_equal; lra. }
  assert (H0 : mvec alpha_emitter (vadd e_x (mvec G_oblique p1_solution)) = p0_both).
  { unfold alpha_emitter, e_x, G_oblique, p0_both, p1_solution.
    c_entries; f_equal; lra. }
  split.
  - intros H.
    assert (E0 : q0 = p0_both).
    { destruct closed_form_oblique as [<- _].
      apply (closed_form_unique _ _ _ _ _ _ q1); [|exact H].
      rewrite coupling_matrix_oblique. exact M_oblique_inverse. }
    split; [exact E0|]. destruct H as [_ ->]. now rewrite E0.
  - intros [-> ->]. split; symmetry; assumption.
Qed.

Lemma p1_both_not_solution : p1_both <> p1_solution.
Proof.
  unfold p1_both, p1_solution, RtoC. intros H. injection H. intros. lra.
Qed.

(** C1 fails.  For separations of nonzero length and I - a0 G a1 G
    invertible at each sample, the equations p0 = a0 (E + G p1),
    p1 = a1 (E + G p0) have exactly one solution,
    p0 = M a0 (I + G a1) E and p1 = M' a1 (I + G a0) E with
    M = (I - a0 G a1 G)^-1 and M' = (I - a1 G a0 G)^-1.
    [coupled_dip_mags_both_driven] returns that p0, but its second moment
    is M a1 (I + G a0) E: the inverse of the first moment's round trip is
    used again where the second moment's own is needed.  With an emitter
    polarizable along x, an isotropic particle and the oblique unit
    separation at zero frequency it returns p1 = (-73/25, 36/25, 0), where
    the solution has p1 = (23/25, -36/25, 0). *)
Theorem coupled_dip_mags_both_driven_second_moment (K : constants) {S : Type}
    (samples : list S) (d_of : S -> rvec) (phi_0 phi_1 : per S R)
    (E_d_angle : option R) (drive_hbar_w : R)
    (alpha0_diag alpha1_diag : per S cmat) (n_b : R) (drive_amp : C) :
  let alpha_0 s := lab_tensor (at_sample phi_0 s) (at_sample alpha0_diag s) in
  let alpha_1 s := lab_tensor (at_sample phi_1 s) (at_sample alpha1_diag s) in
  let E s := lab_field (drive_angle E_d_angle (at_sample phi_0 s)) drive_amp in
  let G_of s := G_formula (unit_vector (d_of s)) (norm3 (d_of s))
                          (drive_hbar_w / hbar K * n_b / c K) in
  (forall s, In s samples -> 0 < norm3 (d_of s)) ->
  (forall s, In s samples ->
             invertible (coupling_matrix (alpha_0 s) (G_of s) (alpha_1 s))) ->
  (exists M M' : S -> cmat,
     (forall s, In s samples ->
        is_inverse (coupling_matrix (alpha_0 s) (G_of s) (alpha_1 s)) (M s)
        /\ is_inverse (coupling_matrix (alpha_1 s) (G_of s) (alpha_0 s)) (M' s))
     /\ coupled_dip_mags_both_driven K (as_batch samples phi_0)
          (as_batch samples phi_1) (map d_of samples) (option_map One E_d_angle)
          drive_hbar_w (as_batch samples alpha0_diag) (as_batch samples alpha1_diag)
          n_b drive_amp false
        = Ok (Moments
                (Many (map (fun s => closed_form (M s) (alpha_0 s) (G_of s)
                                       (alpha_1 s) (E s)) samples))
                (Many (map (fun s => closed_form (M s) (alpha_1 s) (G_of s)
                                       (alpha_0 s) (E s)) samples)))
     /\ forall s, In s samples -> forall q0 q1 : cvec,
          self_consistent (alpha_0 s) (alpha_1 s) (G_of s) (E s) q0 q1
          <-> q0 = closed_form (M s) (alpha_0 s) (G_of s) (alpha_1 s) (E s)
              /\ q1 = closed_form (M' s) (alpha_1 s) (G_of s) (alpha_0 s) (E s))
  /\ (coupled_dip_mags_both_driven unit_constants (One 0) (One 0) [d_oblique]
        None 0 (One alpha_emitter) (One alpha_particle) 1 C1 false
      = Ok (Moments (Many [p0_both]) (Many [p1_both]))
      /\ lab_tensor 0 alpha_emitter = alpha_emitter
      /\ lab_tensor 0 alpha_particle = alpha_particle
      /\ lab_field (drive_angle None 0) C1 = e_x
      /\ G unit_constants 0 [d_oblique] 1 = Many [G_oblique]
      /\ (forall q0 q1 : cvec,
            self_consistent alpha_emitter alpha_particle G_oblique e_x q0 q1
            <-> q0 = p0_both /\ q1 = p1_solution)
      /\ p1_both <> p1_solution).
Proof.
  intros alpha_0 alpha_1 E G_of Hd Hinv. split.
  - exists (fun s => inverse_of (coupling_matrix (alpha_0 s) (G_of s) (alpha_1 s))),
           (fun s => inverse_of (coupling_matrix (alpha_1 s) (G_of s) (alpha_0 s))).
    assert (HM : forall s, In s samples ->
               is_inverse (coupling_matrix (alpha_0 s) (G_of s) (alpha_1 s))
                 (inverse_of (coupling_matrix (alpha_0 s) (G_of s) (alpha_1 s)))
               /\ is_inverse (coupling_matrix (alpha_1 s) (G_of s) (alpha_0 s))
                    (inverse_of (coupling_matrix (alpha_1 s) (G_of s) (alpha_0 s)))).
    { intros s Hin. split.
      - apply inv3_invertible, Hinv, Hin.
      - apply inv3_invertible, coupling_invertible_swap, Hinv, Hin. }
    split; [exact HM|]. split.
    + exact (both_driven_closed_form K samples d_of phi_0 phi_1 E_d_angle
               drive_hbar_w alpha0_diag alpha1_diag n_b drive_amp Hd Hinv).
    + intros s Hin q0 q1. destruct (HM s Hin) as [H0 H1].
      now apply both_driven_solution.
  - split; [exact both_driven_oblique|].
    split; [apply lab_tensor_0|]. split; [apply lab_tensor_0|].
    split; [apply lab_field_0|].
    split; [unfold G; cbn [map unit_constants hbar c]; now rewrite G_sample_oblique|].
    split; [exact oblique_solution|exact p1_both_not_solution].
Qed.

Lemma coupled_dip_mags_both_driven_second_moment_witness :
  let alpha_0 (_ : rvec) := lab_tensor 0 alpha_emitter in
  let alpha_1 (_ : rvec) := lab_tensor 0 alpha_particle in
  let E (_ : rvec) := lab_field 0 C1 in
  let G_of (d : rvec) := G_formula (unit_vector d) (norm3 d) (0 / 1 * 1 / 1) in
  (forall d, In d [d_oblique] -> 0 < norm3 d) /\
  (forall d, In d [d_oblique] ->
     invertible (coupling_matrix (alpha_0 d) (G_of d) (alpha_1 d))) /\
  (exists M M' : rvec -> cmat,
     (forall d, In d [d_oblique] ->
        is_inverse (coupling_matrix (alpha_0 d) (G_of d) (alpha_1 d)) (M d)
        /\ is_inverse (coupling_matrix (alpha_1 d) (G_of d) (alpha_0 d)) (M' d))
     /\ coupled_dip_mags_both_driven unit_constants (One 0) (One 0) [d_oblique]
          None 0 (One alpha_emitter) (One alpha_particle) 1 C1 false
        = Ok (Moments
                (Many (map (fun d => closed_form (M d) (alpha_0 d) (G_of d)
                                       (alpha_1 d) (E d)) [d_oblique]))
                (Many (map (fun d => closed_form (M d) (alpha_1 d) (G_of d)
                                       (alpha_0 d) (E d)) [d_oblique])))
     /\ forall d, In d [d_oblique] -> forall q0 q1 : cvec,
          self_consistent (alpha_0 d) (alpha_1 d) (G_of d) (E d) q0 q1
          <-> q0 = closed_form (M d) (alpha_0 d) (G_of d) (alpha_1 d) (E d)
              /\ q1 = closed_form (M' d) (alpha_1 d) (G_of d) (alpha_0 d) (E d))
  /\ (coupled_dip_mags_both_driven unit_constants (One 0) (One 0) [d_oblique]
        None 0 (One alpha_emitter) (One alpha_particle) 1 C1 false
      = Ok (Moments (Many [p0_both]) (Many [p1_both]))
      /\ lab_tensor 0 alpha_emitter = alpha_emitter
      /\ lab_tensor 0 alpha_particle = alpha_particle
      /\ lab_field (drive_angle None 0) C1 = e_x
      /\ G unit_constants 0 [d_oblique] 1 = Many [G_oblique]
      /\ (forall q0 q1 : cvec,
            self_consistent alpha_emitter alpha_particle G_oblique e_x q0 q1
            <-> q0 = p0_both /\ q1 = p1_solution)
      /\ p1_both <> p1_solution).
Proof.
  intros alpha_0 alpha_1 E G_of.
  assert (Hd : forall d, In d [d_oblique] -> 0 < norm3 d).
  { intros d [<-|[]]. rewrite norm3_d_oblique. lra. }
  assert (Hinv : forall d, In d [d_oblique] ->
     invertible (coupling_matrix (alpha_0 d) (G_of d) (alpha_1 d))).
  { intros d [<-|[]]. unfold alpha_0, alpha_1, G_of.
    rewrite !lab_tensor_0, G_formula_oblique. exact invertible_oblique. }
  split; [exact Hd|]. split; [exact Hinv|].
  exact (coupled_dip_mags_both_driven_second_moment unit_constants
           [d_oblique] (fun d => d) (inl 0) (inl 0) None 0
           (inl alpha_emitter) (inl alpha_particle) 1 C1 Hd Hinv).
Defined.

(** ** The emitter-driven solver against the both-driven one *)




(** ** The uncoupled limit *)

Lemma coupling_matrix_zero (a b : cmat) : coupling_matrix a zeros b = identity3.
Proof. mat_ring. Qed.

Lemma inverse_of_identity : inverse_of identity3 = identity3.
Proof.
  pose proof inv3_identity as H. unfold inv3 in H.
  destruct (Ceq_dec (det3 identity3) C0); congruence.
Qed.

Lemma closed_form_zero (a b : cmat) (E : cvec) :
  closed_form identity3 a zeros b E = mvec a E.
Proof. mat_ring. Qed.

Lemma single_dip_mag_pw_per {S : Type} (samples : list S) (phi : per S R)
    (E_d_angle : option R) (drive_hbar_w : R) (alpha0_diag : per S cmat)
    (n_b : R) (drive_amp : C) :
  exists p0 : per S cvec,
    (forall s, at_sample p0 s
               = mvec (lab_tensor (at_sample phi s) (at_sample alpha0_diag s))
                      (lab_field (drive_angle E_d_angle (at_sample phi s)) drive_amp))
    /\ single_dip_mag_pw (as_batch samples phi) (option_map One E_d_angle)
         drive_hbar_w (as_batch samples alpha0_diag) n_b drive_amp false
       = Ok (as_batch samples p0, None).
Proof.
  exists (per_map2 mvec (lab_tensor_per phi alpha0_diag)
                   (lab_field_per (drive_per E_d_angle phi) drive_amp)).
  split.
  - intros s. now rewrite at_per_map2, at_lab_tensor_per, at_lab_field_per,
      at_drive_per.
  - unfold single_dip_mag_pw.
    rewrite default_E_d_angle_per. cbn [bind].
    rewrite plane_wave_drive_per. cbn [bind].
    rewrite rotate_tensor_per. cbn [bind].
    unfold einsum_ij_j. now rewrite bmap2_as_batch.
Qed.

(** C3.  With the coupling tensor forced to zero,
    [coupled_dip_mags_both_driven] returns exactly p0 = a0 E and
    p1 = a1 E at every sample: the moment [single_dip_mag_pw] gives for
    each dipole alone under the same drive angle. *)
Theorem coupled_reduces_to_uncoupled {S : Type} (samples : list S)
    (d_of : S -> rvec) (phi_0 phi_1 : per S R) (E_d_angle : option R)
    (drive_hbar_w : R) (alpha0_diag alpha1_diag : per S cmat)
    (n_b : R) (drive_amp : C) :
  let alpha_0 s := lab_tensor (at_sample phi_0 s) (at_sample alpha0_diag s) in
  let alpha_1 s := lab_tensor (at_sample phi_1 s) (at_sample alpha1_diag s) in
  let E s := lab_field (drive_angle E_d_angle (at_sample phi_0 s)) drive_amp in
  coupled_dip_mags_both_driven_with G_forced_zero (as_batch samples phi_0)
    (as_batch samples phi_1) (map d_of samples) (option_map One E_d_angle)
    drive_hbar_w (as_batch samples alpha0_diag) (as_batch samples alpha1_diag)
    n_b drive_amp false
  = Ok (Moments (Many (map (fun s => mvec (alpha_0 s) (E s)) samples))
                (Many (map (fun s => mvec (alpha_1 s) (E s)) samples)))
  /\ (exists p0 : per S cvec,
        (forall s, at_sample p0 s = mvec (alpha_0 s) (E s))
        /\ single_dip_mag_pw (as_batch samples phi_0) (option_map One E_d_angle)
             drive_hbar_w (as_batch samples alpha0_diag) n_b drive_amp false
           = Ok (as_batch samples p0, None))
  /\ (forall phi_E : R,
        (forall s, drive_angle E_d_angle (at_sample phi_0 s) = phi_E) ->
        exists p1 : per S cvec,
          (forall s, at_sample p1 s = mvec (alpha_1 s) (E s))
          /\ single_dip_mag_pw (as_batch samples phi_1) (Some (One phi_E))
               drive_hbar_w (as_batch samples alpha1_diag) n_b drive_amp false
             = Ok (as_batch samples p1, None)).
Proof.
  intros alpha_0 alpha_1 E. split; [|split].
  - rewrite (both_driven_per samples G_forced_zero (fun _ => zeros) d_of).
    + cbn [negb]. fold alpha_0 alpha_1 E. do 2 f_equal; f_equal;
        apply map_ext; intros s;
        now rewrite coupling_matrix_zero, inverse_of_identity, closed_form_zero.
    + unfold G_forced_zero. now rewrite map_map.
    + intros s _. rewrite coupling_matrix_zero.
      exists identity3. split; apply mmul_1_l.
  - exact (single_dip_mag_pw_per samples phi_0 E_d_angle drive_hbar_w
             alpha0_diag n_b drive_amp).
  - intros phi_E HE.
    destruct (single_dip_mag_pw_per samples phi_1 (Some phi_E) drive_hbar_w
                alpha1_diag n_b drive_amp) as [p1 [H1 H2]].
    exists p1. split; [|exact H2].
    intros s. unfold E. rewrite HE. exact (H1 s).
Qed.

(** ** The retarded sphere *)

Lemma distribute_full (x y z : C) :
  distribute_sphere_alpha_components_into_tensor x y z None = Ok (diag3 x y z).
Proof.
  unfold distribute_sphere_alpha_components_into_tensor. f_equal.
  destruct x, y, z. mat_ring.
Qed.



Ltac c_field :=
  unfold Cdiv, Cinv, Cnorm2, Cminus, Cplus, Cmult, Copp, C0, C1, Ci, RtoC;
  cbn [fst snd]; f_equal; field.



Lemma RtoC_div (x y : R) : y <> 0 -> (RtoC x / RtoC y)%C = RtoC (x / y).
Proof. intros Hy. c_field; lra. Qed.

(** At zero wavenumber the retardation correction is the identity. *)
Lemma mlwa_sphere_static (alphaR : C) (k a : R) :
  k = 0 -> mlwa_sphere_formula alphaR k a = alphaR.
Proof.
  intros ->. unfold mlwa_sphere_formula.
  replace (RtoC (0 ^ 2 / a)) with C0 by (unfold C0, Rdiv; f_equal; ring).
  replace (RtoC (2 * 0 ^ 3 / 3)) with C0 by (unfold C0, Rdiv; f_equal; ring).
  replace (C1 - C0 * alphaR - Ci * C0 * alphaR)%C with C1 by ring.
  field. exact C1_neq_C0.
Qed.



(** ** The sphere-degenerate spheroid *)


(** ** The default drive angle *)

Lemma default_E_d_angle_None (mol_angle : angle) :
  default_E_d_angle None mol_angle = Ok mol_angle.
Proof. reflexivity. Qed.

(** Passing the emitter's angle explicitly is the same as omitting it when
    the angle is a float or an array of at most one element ... *)
Lemma default_E_d_angle_single (a : angle) :
  single_angle a -> default_E_d_angle (Some a) a = default_E_d_angle None a.
Proof.
  destruct a as [x|[|x [|y l]]]; simpl; intros H; try reflexivity. lia.
Qed.

(** ... and raises on an array of two or more angles. *)
Lemma default_E_d_angle_array (x y : R) (l : list R) (mol_angle : angle) :
  default_E_d_angle (Some (Many (x :: y :: l))) mol_angle = Raise ValueError.
Proof. reflexivity. Qed.

Lemma E_d_angle_default_single (K : constants) (a plas_angle : angle)
    (d_col : list rvec) (drive_hbar_w n_b : R) (alpha0_diag alpha1_diag : batch cmat)
    (mol_dipole_mag : list C) (drive_amp : C) (flag : bool) :
  single_angle a ->
  rotate_molecule a alpha0_diag (Some a) drive_amp
  = rotate_molecule a alpha0_diag None drive_amp
  /\ dipole_mags_gened K a plas_angle d_col (Some a) drive_hbar_w alpha0_diag
       alpha1_diag n_b drive_amp
     = dipole_mags_gened K a plas_angle d_col None drive_hbar_w alpha0_diag
         alpha1_diag n_b drive_amp
  /\ uncoupled_p0 a (Some a) alpha0_diag drive_amp flag
     = uncoupled_p0 a None alpha0_diag drive_amp flag
  /\ coupled_dip_mags_both_driven K a plas_angle d_col (Some a) drive_hbar_w
       alpha0_diag alpha1_diag n_b drive_amp flag
     = coupled_dip_mags_both_driven K a plas_angle d_col None drive_hbar_w
         alpha0_diag alpha1_diag n_b drive_amp flag
  /\ plas_dip_driven_by_mol K a plas_angle d_col mol_dipole_mag (Some a)
       drive_hbar_w alpha1_diag n_b drive_amp
     = plas_dip_driven_by_mol K a plas_angle d_col mol_dipole_mag None
         drive_hbar_w alpha1_diag n_b drive_amp
  /\ single_dip_mag_pw a (Some a) drive_hbar_w alpha0_diag n_b drive_amp flag
     = single_dip_mag_pw a None drive_hbar_w alpha0_diag n_b drive_amp flag.
Proof.
  intros Ha. pose proof (default_E_d_angle_single a Ha) as H.
  assert (Hr : rotate_molecule a alpha0_diag (Some a) drive_amp
               = rotate_molecule a alpha0_diag None drive_amp).
  { unfold rotate_molecule. now rewrite H. }
  repeat split.
  - exact Hr.
  - unfold dipole_mags_gened. now rewrite Hr.
  - unfold uncoupled_p0. now rewrite Hr.
  - unfold coupled_dip_mags_both_driven, coupled_dip_mags_both_driven_with.
    now rewrite H.
  - unfold plas_dip_driven_by_mol. now rewrite H.
  - unfold single_dip_mag_pw. now rewrite H.
Qed.

Lemma rotate_tensor_float (phi : R) (alpha_diag : cmat) :
  rotate_tensor (One phi) (One alpha_diag) = Ok (One (lab_tensor phi alpha_diag)).
Proof.
  unfold rotate_tensor, lab_tensor, matmul, neg, rotation_by, bmap, bmap2.
  cbn [bind]. now rewrite mmul_assoc.
Qed.

Lemma rotation_by_two_angles : rotation_by two_angles "z" = Many [identity3; identity3].
Proof. unfold rotation_by, two_angles, bmap, map. now rewrite rotation_slice_0. Qed.

Lemma neg_two_angles : neg two_angles = two_angles.
Proof. unfold neg, two_angles, bmap, map. now rewrite Ropp_0. Qed.

Lemma rotate_tensor_two_angles (a : cmat) :
  rotate_tensor two_angles (One a) = Ok (Many [a; a]).
Proof.
  unfold rotate_tensor. rewrite neg_two_angles, rotation_by_two_angles.
  unfold matmul, bmap2. cbn [map bind List.length Nat.eqb zipWith].
  now rewrite !mmul_1_l, !mmul_1_r.
Qed.

Lemma plane_wave_drive_two_angles :
  plane_wave_drive two_angles C1 = Ok (Many [e_x; e_x]).
Proof.
  unfold plane_wave_drive. rewrite rotation_by_two_angles.
  unfold matvec, bmap2, bmap. cbn [map bind].
  assert (H : vmap (fun x : C => (x * C1)%C) (mvec identity3 (V3 C1 C0 C0)) = e_x).
  { unfold e_x. c_entries; f_equal; ring. }
  now rewrite H.
Qed.

Lemma rotate_molecule_two_angles (a : cmat) :
  rotate_molecule two_angles (One a) None C1 = Ok (Many [a; a], Many [e_x; e_x]).
Proof.
  unfold rotate_molecule. rewrite default_E_d_angle_None. cbn [bind].
  rewrite rotation_by_two_angles, rotate_tensor_two_angles.
  unfold matvec, bmap2. cbn [map bind].
  assert (H : mvec identity3 (vmap (fun x : C => (x * C1)%C) (V3 C1 C0 C0)) = e_x).
  { unfold e_x. c_entries; f_equal; ring. }
  now rewrite H.
Qed.

Lemma inv3_N_oblique : inv3 N_oblique = Ok M_oblique.
Proof.
  rewrite <- inverse_of_N_oblique. apply inv3_invertible.
  exists M_oblique. exact M_oblique_inverse.
Qed.

Lemma geometric_coupling_two_angles :
  geometric_coupling (Many [alpha_emitter; alpha_emitter])
    (Many [G_oblique; G_oblique]) (One alpha_particle)
  = Ok (Many [M_oblique; M_oblique]).
Proof.
  unfold geometric_coupling, matmul, sub_arr, linalg_inv, bmap2, bmapM.
  cbn [map bind List.length Nat.eqb zipWith mapM].
  rewrite !mmul_assoc. fold (coupling_matrix alpha_emitter G_oblique alpha_particle).
  rewrite coupling_matrix_oblique, inv3_N_oblique. reflexivity.
Qed.

Lemma G_two_separations :
  G unit_constants 0 two_separations 1 = Many [G_oblique; G_oblique].
Proof.
  unfold G, two_separations. cbn [map unit_constants hbar c].
  now rewrite G_sample_oblique.
Qed.

Lemma rotate_tensor_two_angles_batched (a b : cmat) :
  rotate_tensor two_angles (Many [a; b]) = Ok (Many [a; b]).
Proof.
  unfold rotate_tensor. rewrite neg_two_angles, rotation_by_two_angles.
  unfold matmul, bmap2. cbn [map bind List.length Nat.eqb zipWith].
  now rewrite !mmul_1_l, !mmul_1_r.
Qed.

Lemma unit_moment_tensor : mset 0 0 (C1 / C1)%C zeros = alpha_emitter.
Proof.
  unfold alpha_emitter, mset, vset, vget, zeros, vzero, diag3.
  do 2 f_equal. c_field.
Qed.

Ltac eval_rows :=
  unfold matmul, add_arr, sub_arr, einsum_ij_j, bmap2;
  cbn [map bind List.length Nat.eqb zipWith].

(** C10 fails on arrays.  With the emitter angle an array of two angles,
    every entry point raises [ValueError] when that array is passed as
    [E_d_angle] (the test [E_d_angle == None] is elementwise and its truth
    value ambiguous), and returns its moments when [E_d_angle] is omitted. *)
Theorem explicit_array_E_d_angle_raises :
  (rotate_molecule two_angles (One alpha_emitter) (Some two_angles) C1
   = Raise ValueError
   /\ exists r, rotate_molecule two_angles (One alpha_emitter) None C1 = Ok r)
  /\ (dipole_mags_gened unit_constants two_angles (One 0) two_separations
        (Some two_angles) 0 (One alpha_emitter) (One alpha_particle) 1 C1
      = Raise ValueError
      /\ exists r, dipole_mags_gened unit_constants two_angles (One 0)
                     two_separations None 0 (One alpha_emitter)
                     (One alpha_particle) 1 C1 = Ok r)
  /\ (uncoupled_p0 two_angles (Some two_angles) (One alpha_emitter) C1 false
      = Raise ValueError
      /\ exists r, uncoupled_p0 two_angles None (One alpha_emitter) C1 false = Ok r)
  /\ (coupled_dip_mags_both_driven unit_constants two_angles (One 0)
        two_separations (Some two_angles) 0 (One alpha_emitter)
        (One alpha_particle) 1 C1 false
      = Raise ValueError
      /\ exists r, coupled_dip_mags_both_driven unit_constants two_angles (One 0)
                     two_separations None 0 (One alpha_emitter)
                     (One alpha_particle) 1 C1 false = Ok r)
  /\ (plas_dip_driven_by_mol unit_constants two_angles (One 0) two_separations
        [C1; C1] (Some two_angles) 0 (One alpha_particle) 1 C1
      = Raise ValueError
      /\ exists r, plas_dip_driven_by_mol unit_constants two_angles (One 0)
                     two_separations [C1; C1] None 0 (One alpha_particle) 1 C1
                   = Ok r)
  /\ (single_dip_mag_pw two_angles (Some two_angles) 0 (One alpha_emitter) 1 C1 false
      = Raise ValueError
      /\ exists r, single_dip_mag_pw two_angles None 0 (One alpha_emitter) 1 C1 false
                   = Ok r).
Proof.
  pose proof (rotate_tensor_float 0 alpha_particle) as Hp.
  rewrite lab_tensor_0 in Hp.
  repeat split; try reflexivity.
  - rewrite rotate_molecule_two_angles. eexists. reflexivity.
  - unfold dipole_mags_gened.
    rewrite rotate_molecule_two_angles. cbn [bind].
    rewrite Hp, G_two_separations. cbn [bind].
    rewrite geometric_coupling_two_angles. cbn [bind].
    eval_rows. eexists. reflexivity.
  - unfold uncoupled_p0. rewrite rotate_molecule_two_angles. cbn [bind].
    eval_rows. eexists. reflexivity.
  - unfold coupled_dip_mags_both_driven, coupled_dip_mags_both_driven_with.
    rewrite default_E_d_angle_None. cbn [bind].
    rewrite plane_wave_drive_two_angles. cbn [bind].
    rewrite rotate_tensor_two_angles, Hp, G_two_separations. cbn [bind].
    rewrite geometric_coupling_two_angles. cbn [bind].
    eval_rows. eexists. reflexivity.
  - unfold plas_dip_driven_by_mol.
    rewrite default_E_d_angle_None. cbn [bind].
    rewrite plane_wave_drive_two_angles. cbn [bind map].
    rewrite unit_moment_tensor, rotate_tensor_two_angles_batched, Hp,
      G_two_separations. cbn [bind].
    rewrite geometric_coupling_two_angles. cbn [bind].
    eval_rows. eexists. reflexivity.
  - unfold single_dip_mag_pw.
    rewrite default_E_d_angle_None. cbn [bind].
    rewrite plane_wave_drive_two_angles. cbn [bind].
    rewrite rotate_tensor_two_angles. cbn [bind].
    eval_rows. eexists. reflexivity.
Qed.

(** ** Scattering cross sections *)

Lemma Cnorm2_nonneg (z : C) : 0 <= Cnorm2 z.
Proof. destruct z as [a b]. unfold Cnorm2. cbn [fst snd]. nra. Qed.

Lemma Cmod_sq (z : C) : Cmod z ^ 2 = Cnorm2 z.
Proof. unfold Cmod. apply pow2_sqrt, Cnorm2_nonneg. Qed.

Lemma abs_norm_sq_vnorm2 (p : cvec) : abs_norm_sq p = vnorm2 p.
Proof.
  destruct p as [x y z]. unfold abs_norm_sq, cnorm3, vnorm2.
  rewrite <- Rsqr_pow2, <- Rsqr_abs, Rsqr_pow2, !Cmod_sq.
  apply pow2_sqrt.
  pose proof (Cnorm2_nonneg x). pose proof (Cnorm2_nonneg y).
  pose proof (Cnorm2_nonneg z). lra.
Qed.

Lemma interference_rows (G_d : cmat) (p0 p1 : cvec) :
  vsumR (vmap2 Rplus
           (vmap2 (fun x y => Cim (x * Cconj y)%C) p0 (mvec G_d p1))
           (vmap2 (fun x y => Cim (x * Cconj y)%C) p1 (mvec G_d p0)))
  = im_dot_conj p0 (mvec G_d p1) + im_dot_conj p1 (mvec G_d p0).
Proof.
  unfold im_dot_conj.
  generalize (mvec G_d p1) (mvec G_d p0). intros u v.
  destruct p0 as [[? ?] [? ?] [? ?]], p1 as [[? ?] [? ?] [? ?]],
    u as [[? ?] [? ?] [? ?]], v as [[? ?] [? ?] [? ?]].
  cbv beta iota delta [vsumR vmap2 vmap dot vsumC Cim Cconj Cmult Cplus fst snd].
  ring.
Qed.

Lemma prefactor_eq (k n_b : R) (E_0 : C) (x : R) :
  (4 * PI * k / Cmod E_0 ^ 2) * x / n_b = (4 * PI * k / (n_b * Cnorm2 E_0)) * x.
Proof. rewrite Cmod_sq. unfold Rdiv. rewrite Rinv_mult. ring. Qed.

Lemma sigma_without_second_dipole (k n_b : R) (E_0 : C) (G_d : cmat) (p0 : cvec) :
  sigma_scat_formula k n_b E_0 G_d p0 vzero = sigma_scat_single_formula k n_b E_0 p0.
Proof.
  unfold sigma_scat_formula, sigma_scat_single_formula. f_equal.
  assert (H1 : im_dot_conj p0 (mvec G_d vzero) = 0).
  { destruct G_d as [[[? ?] [? ?] [? ?]] [[? ?] [? ?] [? ?]] [[? ?] [? ?] [? ?]]],
      p0 as [[? ?] [? ?] [? ?]].
    cbv beta iota delta [im_dot_conj mvec vzero vmap dot vmap2 vsumC Cim Cconj
                           Cmult Cplus C0 RtoC fst snd]. ring. }
  assert (H2 : im_dot_conj vzero (mvec G_d p0) = 0).
  { generalize (mvec G_d p0). intros [[? ?] [? ?] [? ?]].
    cbv beta iota delta [im_dot_conj vzero vmap dot vmap2 vsumC Cim Cconj
                           Cmult Cplus C0 RtoC fst snd]. ring. }
  assert (H3 : vnorm2 vzero = 0).
  { cbv beta iota delta [vnorm2 vzero Cnorm2 C0 RtoC fst snd]. ring. }
  rewrite H1, H2, H3. ring.
Qed.

Lemma single_dip_sigma_scat_rows (K : constants)
    (dipoles_moments_per_omega : R -> list cvec) (drive_hbar_w n_b : R) (E_0 : C) :
  single_dip_sigma_scat K dipoles_moments_per_omega drive_hbar_w n_b E_0
  = map (sigma_scat_single_formula (drive_hbar_w / hbar K * n_b / c K) n_b E_0)
        (dipoles_moments_per_omega (drive_hbar_w / hbar K)).
Proof.
  unfold single_dip_sigma_scat. rewrite map_map. apply map_ext. intros p.
  unfold sigma_scat_single_formula. now rewrite prefactor_eq, abs_norm_sq_vnorm2.
Qed.

(** Three arrays with one number of rows are the columns of one list of
    samples. *)
Lemma equal_length_columns {A B D : Type} (l1 : list A) (l2 : list B) (l3 : list D) :
  List.length l2 = List.length l1 -> List.length l3 = List.length l1 ->
  let t := combine l1 (combine l2 l3) in
  l1 = map fst t /\ l2 = map (fun s => fst (snd s)) t
  /\ l3 = map (fun s => snd (snd s)) t.
Proof.
  revert l2 l3. induction l1 as [|a l1 IH]; intros [|b l2] [|d l3] H2 H3;
    simpl in *; try discriminate; auto.
  destruct (IH l2 l3) as (E1 & E2 & E3); [congruence..|].
  now rewrite <- E1, <- E2, <- E3.
Qed.

Lemma sigma_scat_coupled_rows (K : constants)
    (dipoles_moments_per_omega : R -> list cvec * list cvec)
    (samples : list (rvec * (cvec * cvec))) (drive_hbar_w n_b : R) (E_0 : C) :
  let k := drive_hbar_w / hbar K * n_b / c K in
  dipoles_moments_per_omega (drive_hbar_w / hbar K)
  = (map (fun s => fst (snd s)) samples, map (fun s => snd (snd s)) samples) ->
  exists parts,
    sigma_scat_coupled K dipoles_moments_per_omega (map fst samples)
      drive_hbar_w n_b E_0
    = Ok (map (fun s => sigma_scat_formula k n_b E_0 (G_sample k (fst s))
                          (fst (snd s)) (snd (snd s))) samples,
          parts).
Proof.
  intros k Hp. unfold sigma_scat_coupled. rewrite Hp.
  unfold G. cbv zeta. fold k. rewrite map_map.
  unfold einsum_ij_j.
  repeat (first [rewrite bmap2_map_map | rewrite bmap2_map_l | rewrite bmap2_map_r];
          cbn [bind]).
  unfold sum_axis1, bmap. rewrite !map_map.
  repeat (first [rewrite bmap2_map_map | rewrite bmap2_map_l | rewrite bmap2_map_r];
          cbn [bind]).
  rewrite !map_map. cbn [many_of].
  unfold stack3. rewrite !length_map, Nat.eqb_refl. cbn [andb bind].
  eexists. f_equal. f_equal.
  apply map_ext. intros s. unfold sigma_scat_formula.
  rewrite prefactor_eq, interference_rows, !abs_norm_sq_vnorm2. f_equal. ring.
Qed.

(** C5.  When the provider's two arrays and [d_col] have one number of
    rows and the separations are nonzero, the first element returned by
    [sigma_scat_coupled] holds, for each row,
    (4 pi k/(n_b |E_0|^2)) [ Im(p0.conj(G p1)) + Im(p1.conj(G p0))
    + (2/3) k^3 (|p0|^2 + |p1|^2) ] with k = (drive_hbar_w/hbar) n_b/c; and
    that expression without the second dipole's terms is what
    [single_dip_sigma_scat] returns for the first dipole. *)
Theorem sigma_scat_coupled_formula (K : constants)
    (dipoles_moments_per_omega : R -> list cvec * list cvec)
    (d_col : list rvec) (drive_hbar_w n_b : R) (E_0 : C) (p_0 p_1 : list cvec) :
  let omega := drive_hbar_w / hbar K in
  let k := omega * n_b / c K in
  dipoles_moments_per_omega omega = (p_0, p_1) ->
  List.length p_0 = List.length d_col ->
  List.length p_1 = List.length d_col ->
  (forall d, In d d_col -> 0 < norm3 d) ->
  (exists parts,
      sigma_scat_coupled K dipoles_moments_per_omega d_col drive_hbar_w n_b E_0
      = Ok (map (fun s =>
                   sigma_scat_formula k n_b E_0
                     (G_formula (unit_vector (fst s)) (norm3 (fst s)) k)
                     (fst (snd s)) (snd (snd s)))
                (combine d_col (combine p_0 p_1)),
            parts))
  /\ (forall G_d p0,
         sigma_scat_formula k n_b E_0 G_d p0 vzero
         = sigma_scat_single_formula k n_b E_0 p0)
  /\ single_dip_sigma_scat K (fun w => fst (dipoles_moments_per_omega w))
       drive_hbar_w n_b E_0
     = map (sigma_scat_single_formula k n_b E_0) p_0.
Proof.
  intros omega k Hp H0 H1 Hd. split; [|split].
  - destruct (equal_length_columns d_col p_0 p_1 H0 H1) as (E1 & E2 & E3).
    set (t := combine d_col (combine p_0 p_1)) in *.
    destruct (sigma_scat_coupled_rows K dipoles_moments_per_omega t
                drive_hbar_w n_b E_0) as [parts Hs].
    { fold omega. now rewrite Hp, <- E2, <- E3. }
    exists parts. rewrite E1 at 1. rewrite Hs. fold omega k. do 2 f_equal.
    apply map_ext_in. intros s Hin.
    rewrite G_sample_formula; [reflexivity|].
    apply Hd. rewrite E1. now apply in_map.
  - intros G_d p0. apply sigma_without_second_dipole.
  - rewrite single_dip_sigma_scat_rows. fold omega k. now rewrite Hp.
Qed.

Lemma sigma_scat_coupled_formula_witness :
  (fun _ : R => ([e_x], [e_x])) (2 / hbar unit_constants) = ([e_x], [e_x]) /\
  List.length [e_x] = List.length [d_oblique] /\
  List.length [e_x] = List.length [d_oblique] /\
  (forall d, In d [d_oblique] -> 0 < norm3 d) /\
  (exists parts,
      sigma_scat_coupled unit_constants (fun _ => ([e_x], [e_x])) [d_oblique]
        2 1 C1
      = Ok (map (fun s =>
                   sigma_scat_formula
                     (2 / hbar unit_constants * 1 / c unit_constants) 1 C1
                     (G_formula (unit_vector (fst s)) (norm3 (fst s))
                        (2 / hbar unit_constants * 1 / c unit_constants))
                     (fst (snd s)) (snd (snd s)))
                (combine [d_oblique] (combine [e_x] [e_x])),
            parts)) /\
  single_dip_sigma_scat unit_constants
    (fun w => fst ((fun _ : R => ([e_x], [e_x])) w)) 2 1 C1
  = map (sigma_scat_single_formula
           (2 / hbar unit_constants * 1 / c unit_constants) 1 C1) [e_x].
Proof.
  assert (Hd : forall d, In d [d_oblique] -> 0 < norm3 d).
  { intros d [<-|[]]. rewrite norm3_d_oblique. lra. }
  split; [reflexivity|]. split; [reflexivity|]. split; [reflexivity|].
  split; [exact Hd|].
  destruct (sigma_scat_coupled_formula unit_constants (fun _ => ([e_x], [e_x]))
              [d_oblique] 2 1 C1 [e_x] [e_x] eq_refl eq_refl eq_refl Hd)
    as [H1 [_ H2]].
  split; [exact H1|exact H2].
Defined.

(** ** Trapezoidal quadrature *)

Lemma zipWith_map_r {A B D : Type} (f : A -> B -> D) (h : A -> B) (l : list A) :
  zipWith f l (map h l) = map (fun x => f x (h x)) l.
Proof. induction l as [|x l IH]; simpl; [reflexivity|]. now rewrite IH. Qed.

Lemma trapz_cons (f : R -> R) (x0 x1 : R) (xs : list R) :
  trapz (map f (x0 :: x1 :: xs)) (x0 :: x1 :: xs)
  = (x1 - x0) * (f x1 + f x0) / 2 + trapz (map f (x1 :: xs)) (x1 :: xs).
Proof. reflexivity. Qed.

Lemma trapz_map_plus (f g : R -> R) (xs : list R) :
  trapz (map (fun x => f x + g x) xs) xs
  = trapz (map f xs) xs + trapz (map g xs) xs.
Proof.
  induction xs as [|x0 xs IH]; [simpl; ring|].
  destruct xs as [|x1 xs]; [simpl; ring|].
  rewrite !trapz_cons, IH. cbv beta. field.
Qed.

Lemma last_cons_default (xs : list R) : forall x0 x1,
  last (x1 :: xs) x0 = last xs x1.
Proof.
  induction xs as [|y ys IH]; intros x0 x1; [reflexivity|].
  change (last (x1 :: y :: ys) x0) with (last (y :: ys) x0).
  now rewrite (IH x0 y), (IH x1 y).
Qed.

Lemma Rabs_le_between (x y : R) : Rabs x <= y -> - y <= x <= y.
Proof. unfold Rabs. destruct (Rcase_abs x); lra. Qed.

Section TrapzBound.

Variables (Ff Sf : R -> R) (step : R).

Hypothesis cell : forall x y, 0 <= x <= y ->
  (y - x) * Sf y <= Ff x - Ff y <= (y - x) * Sf x.
Hypothesis Sf_decreasing : forall x y, 0 <= x <= y -> Sf y <= Sf x.

(** The trapezoid sum of a decreasing function on an increasing grid is
    within (step/2)(S(first) - S(last)) of the integral F(first) - F(last). *)
Lemma trapz_bounds (xs : list R) : forall x0,
  0 <= x0 -> grid_ok step (x0 :: xs) ->
  Rabs (trapz (map Sf (x0 :: xs)) (x0 :: xs) - (Ff x0 - Ff (last xs x0)))
  <= step / 2 * (Sf x0 - Sf (last xs x0)).
Proof.
  induction xs as [|x1 xs IH]; intros x0 H0 Hg.
  - simpl. replace (0 - (Ff x0 - Ff x0)) with 0 by ring.
    rewrite Rabs_R0. lra.
  - destruct Hg as [[Hle Hst] Hg].
    assert (H1 : 0 <= x1) by lra.
    specialize (IH x1 H1 Hg).
    rewrite trapz_cons.
    rewrite last_cons_default.
    pose proof (cell x0 x1 (conj H0 Hle)) as [Hc1 Hc2].
    pose proof (Sf_decreasing x0 x1 (conj H0 Hle)) as Hd.
    apply Rabs_le_between in IH. apply Rabs_le.
    assert (Hb : (x1 - x0) * (Sf x0 - Sf x1) <= step * (Sf x0 - Sf x1)).
    { apply Rmult_le_compat_r; lra. }
    lra.
Qed.

End TrapzBound.

Lemma grid_ok_seq (step : R) (qf : nat -> R) (k : nat) : forall s,
  (forall i, qf i <= qf (S i) <= qf i + step) ->
  grid_ok step (map qf (seq s (S k))).
Proof.
  induction k as [|k IH]; intros s Hq; [exact I|].
  change (grid_ok step (qf s :: map qf (seq (S s) (S k)))).
  cbn [seq map grid_ok]. split; [apply Hq|]. apply (IH (S s) Hq).
Qed.

Lemma last_map_seq (qf : nat -> R) (k : nat) : forall s,
  last (map qf (seq (S s) k)) (qf s) = qf (s + k)%nat.
Proof.
  induction k as [|k IH]; intros s.
  - simpl. now rewrite Nat.add_0_r.
  - cbn [seq map]. 
    rewrite last_cons_default, IH. f_equal. lia.
Qed.

(** ** The depolarization integrands *)

Section Ellipsoid.

Variables a b c_ : R.
Hypotheses (a_pos : 0 < a) (b_pos : 0 < b) (c_pos : 0 < c_).

Let P (q : R) : R := (a ^ 2 + q) * (b ^ 2 + q) * (c_ ^ 2 + q).

Lemma P_pos (q : R) : 0 <= q -> 0 < P q.
Proof.
  intros Hq. unfold P.
  assert (0 < a ^ 2 + q) by nra. assert (0 < b ^ 2 + q) by nra.
  assert (0 < c_ ^ 2 + q) by nra.
  apply Rmult_lt_0_compat; [apply Rmult_lt_0_compat|]; assumption.
Qed.

Lemma P_increasing (x y : R) : 0 <= x <= y -> P x <= P y.
Proof.
  intros [Hx Hxy]. unfold P.
  assert (0 < a ^ 2 + x) by nra. assert (0 < b ^ 2 + x) by nra.
  assert (0 < c_ ^ 2 + x) by nra.
  apply Rmult_le_compat; try lra.
  - apply Rmult_le_pos; lra.
  - apply Rmult_le_compat; lra.
Qed.

Lemma ellipsoid_integrand_P (q : R) :
  ellipsoid_integrand a b c_ q = 1 / ((a ^ 2 + q) * sqrt (P q)).
Proof. reflexivity. Qed.

End Ellipsoid.

Lemma ellipsoid_integrand_decreasing (a b c_ x y : R) :
  0 < a -> 0 < b -> 0 < c_ -> 0 <= x <= y ->
  ellipsoid_integrand a b c_ y <= ellipsoid_integrand a b c_ x.
Proof.
  intros Ha Hb Hc [Hx Hxy]. unfold ellipsoid_integrand.
  pose proof (P_pos a b c_ Ha Hb Hc x Hx) as Px.
  pose proof (P_pos a b c_ Ha Hb Hc y ltac:(lra)) as Py.
  pose proof (P_increasing a b c_ Ha Hb Hc x y (conj Hx Hxy)) as Pxy.
  pose proof (sqrt_lt_R0 _ Px) as Sx. pose proof (sqrt_lt_R0 _ Py) as Sy.
  pose proof (sqrt_le_1 _ _ (Rlt_le _ _ Px) (Rlt_le _ _ Py) Pxy) as Sxy.
  assert (0 < a ^ 2 + x) by nra.
  unfold Rdiv. rewrite !Rmult_1_l.
  apply Rinv_le_contravar.
  - apply Rmult_lt_0_compat; assumption.
  - apply Rmult_le_compat; lra.
Qed.

Lemma ellipsoid_integrand_sum_decreasing (a b c_ x y : R) :
  0 < a -> 0 < b -> 0 < c_ -> 0 <= x <= y ->
  ellipsoid_integrand_sum a b c_ y <= ellipsoid_integrand_sum a b c_ x.
Proof.
  intros Ha Hb Hc Hxy. unfold ellipsoid_integrand_sum.
  pose proof (ellipsoid_integrand_decreasing a b c_ x y Ha Hb Hc Hxy).
  pose proof (ellipsoid_integrand_decreasing b c_ a x y Hb Hc Ha Hxy).
  pose proof (ellipsoid_integrand_decreasing c_ a b x y Hc Ha Hb Hxy).
  lra.
Qed.

(** The slope of 2/sqrt((a^2+q)(b^2+q)(c^2+q)) is minus the sum of the
    three integrands. *)
Lemma ellipsoid_primitive_derivative (a b c_ q : R) :
  0 < a -> 0 < b -> 0 < c_ -> 0 <= q ->
  derivable_pt_lim (ellipsoid_primitive a b c_) q
                   (- ellipsoid_integrand_sum a b c_ q).
Proof.
  intros Ha Hb Hc Hq.
  pose proof (P_pos a b c_ Ha Hb Hc q Hq) as Pq.
  set (P := fun q => (a ^ 2 + q) * (b ^ 2 + q) * (c_ ^ 2 + q)) in *.
  set (P' := (b ^ 2 + q) * (c_ ^ 2 + q) + (a ^ 2 + q) * (c_ ^ 2 + q)
             + (a ^ 2 + q) * (b ^ 2 + q)).
  assert (dlin : forall X, derivable_pt_lim (fun t => X + t) q 1).
  { intros X. replace 1 with (0 + 1) by ring.
    apply (derivable_pt_lim_plus (fct_cte X) id);
      [apply derivable_pt_lim_const | apply derivable_pt_lim_id]. }
  assert (dP : derivable_pt_lim P q P').
  { unfold P, P'.
    replace ((b ^ 2 + q) * (c_ ^ 2 + q) + (a ^ 2 + q) * (c_ ^ 2 + q)
             + (a ^ 2 + q) * (b ^ 2 + q))
      with ((1 * (b ^ 2 + q) + (a ^ 2 + q) * 1) * (c_ ^ 2 + q)
            + (a ^ 2 + q) * (b ^ 2 + q) * 1) by ring.
    apply (derivable_pt_lim_mult (fun t => (a ^ 2 + t) * (b ^ 2 + t))
                                 (fun t => c_ ^ 2 + t)); [|apply dlin].
    apply (derivable_pt_lim_mult (fun t => a ^ 2 + t) (fun t => b ^ 2 + t));
      apply dlin. }
  set (s := sqrt (P q)).
  assert (Hs : 0 < s) by (apply sqrt_lt_R0; exact Pq).
  assert (Hss : s * s = P q) by (apply sqrt_sqrt; lra).
  assert (dS : derivable_pt_lim (fun t => sqrt (P t)) q (/ (2 * s) * P')).
  { apply (derivable_pt_lim_comp P sqrt); [exact dP|].
    apply derivable_pt_lim_sqrt. exact Pq. }
  assert (dF : derivable_pt_lim (fun t => 2 / sqrt (P t)) q
                 ((0 * s - / (2 * s) * P' * 2) / Rsqr s)).
  { apply (derivable_pt_lim_div (fct_cte 2) (fun t => sqrt (P t)));
      [apply derivable_pt_lim_const | exact dS | ].
    fold s. lra. }
  replace (- ellipsoid_integrand_sum a b c_ q)
    with ((0 * s - / (2 * s) * P' * 2) / Rsqr s); [exact dF|].
  unfold ellipsoid_integrand_sum, ellipsoid_integrand.
  replace ((b ^ 2 + q) * (c_ ^ 2 + q) * (a ^ 2 + q)) with (P q) by (unfold P; ring).
  replace ((c_ ^ 2 + q) * (a ^ 2 + q) * (b ^ 2 + q)) with (P q) by (unfold P; ring).
  fold (P q). fold s. unfold Rsqr. rewrite Hss. unfold P, P'.
  assert (0 < a ^ 2 + q) by nra. assert (0 < b ^ 2 + q) by nra.
  assert (0 < c_ ^ 2 + q) by nra.
  field. repeat split; lra.
Qed.

(** On a cell [x, y] the integral of the sum lies between the right and
    the left rectangle. *)
Lemma ellipsoid_cell (a b c_ x y : R) :
  0 < a -> 0 < b -> 0 < c_ -> 0 <= x <= y ->
  (y - x) * ellipsoid_integrand_sum a b c_ y
  <= ellipsoid_primitive a b c_ x - ellipsoid_primitive a b c_ y
  <= (y - x) * ellipsoid_integrand_sum a b c_ x.
Proof.
  intros Ha Hb Hc [Hx Hxy].
  destruct (Req_dec_T x y) as [->|Hne]; [lra|].
  assert (Hlt : x < y) by lra.
  destruct (MVT_cor2 (ellipsoid_primitive a b c_)
              (fun q => - ellipsoid_integrand_sum a b c_ q) x y Hlt)
    as [z [Hz1 Hz2]].
  { intros q Hq. apply ellipsoid_primitive_derivative; lra. }
  pose proof (ellipsoid_integrand_sum_decreasing a b c_ x z Ha Hb Hc ltac:(lra)).
  pose proof (ellipsoid_integrand_sum_decreasing a b c_ z y Ha Hb Hc ltac:(lra)).
  nra.
Qed.

(** ** The depolarization factors *)

Lemma L_i_trapz (K : constants) (a b c_ : R) :
  L_i K a b c_
  = let q := map (fun x => x * nm K ^ 2) (linspace 0 10000 (Z.to_nat 100000)) in
    (a * b * c_ / 2) * trapz (map (ellipsoid_integrand a b c_) q) q.
Proof. unfold L_i. cbv zeta. now rewrite zipWith_map_r. Qed.

(** The grid of [L_i]: 100000 points from 0 to 10000 nm^2. *)
Lemma L_i_grid (u : R) :
  exists m : nat,
    INR m = 99999 /\
    map (fun x => x * u ^ 2) (linspace 0 10000 (Z.to_nat 100000))
    = map (fun i => INR i * (10000 / 99999) * u ^ 2) (seq 0 (S m)).
Proof.
  exists (Z.to_nat 99999).
  assert (Hm : INR (Z.to_nat 99999) = 99999).
  { rewrite INR_IZR_INZ, Z2Nat.id by lia. reflexivity. }
  split; [exact Hm|].
  assert (Hn : Z.to_nat 100000 = S (Z.to_nat 99999)).
  { change 100000%Z with (Z.succ 99999). apply Z2Nat.inj_succ. lia. }
  rewrite Hn. unfold linspace. rewrite map_map, S_INR, Hm.
  apply map_ext. intros i. field.
Qed.

Lemma depolarization_sum_trapz (K : constants) (a b c_ : R) :
  depolarization_sum K a b c_
  = let q := map (fun x => x * nm K ^ 2) (linspace 0 10000 (Z.to_nat 100000)) in
    (a * b * c_ / 2) * trapz (map (ellipsoid_integrand_sum a b c_) q) q.
Proof.
  unfold depolarization_sum. rewrite !L_i_trapz. cbv zeta.
  generalize (map (fun x => x * nm K ^ 2) (linspace 0 10000 (Z.to_nat 100000))).
  intros q. unfold ellipsoid_integrand_sum. rewrite !trapz_map_plus.
  generalize (trapz (map (ellipsoid_integrand a b c_) q) q)
             (trapz (map (ellipsoid_integrand b c_ a) q) q)
             (trapz (map (ellipsoid_integrand c_ a b) q) q).
  intros t1 t2 t3. field.
Qed.

(** The sum of the three factors is within the rectangle-rule gap of
    (abc/2) (F(0) - F(Q)), with F = 2/sqrt((a^2+q)(b^2+q)(c^2+q)) and
    Q = 10000 nm^2 the end of the grid. *)
Lemma depolarization_sum_enclosure (K : constants) (a b c_ : R) :
  0 < a -> 0 < b -> 0 < c_ -> 0 < nm K ->
  let Q := 10000 * nm K ^ 2 in
  Rabs (depolarization_sum K a b c_
        - (a * b * c_ / 2)
          * (ellipsoid_primitive a b c_ 0 - ellipsoid_primitive a b c_ Q))
  <= (a * b * c_ / 2)
     * ((10000 / 99999 * nm K ^ 2) / 2
        * (ellipsoid_integrand_sum a b c_ 0 - ellipsoid_integrand_sum a b c_ Q)).
Proof.
  intros Ha Hb Hc Hu Q. rewrite depolarization_sum_trapz. cbv zeta.
  destruct (L_i_grid (nm K)) as [m [Hm ->]].
  set (h := 10000 / 99999 * nm K ^ 2).
  set (qf := fun i => INR i * (10000 / 99999) * nm K ^ 2).
  assert (Hh : 0 <= h) by (unfold h; nra).
  assert (Hq0 : qf 0%nat = 0) by (unfold qf; simpl; ring).
  assert (HqS : forall i, qf (S i) = qf i + h).
  { intros i. unfold qf, h. rewrite S_INR. ring. }
  pose proof (trapz_bounds (ellipsoid_primitive a b c_)
                (ellipsoid_integrand_sum a b c_) h
                (fun x y => ellipsoid_cell a b c_ x y Ha Hb Hc)
                (fun x y => ellipsoid_integrand_sum_decreasing a b c_ x y Ha Hb Hc)
                (map qf (seq 1 m)) (qf 0%nat)) as Hb'.
  change (qf 0%nat :: map qf (seq 1 m)) with (map qf (seq 0 (S m))) in Hb'.
  rewrite last_map_seq in Hb'.
  assert (HQ : qf (0 + m)%nat = Q).
  { unfold qf, Q. rewrite Nat.add_0_l, Hm. field. }
  rewrite HQ, Hq0 in Hb'.
  assert (Habc : 0 < a * b * c_ / 2).
  { assert (0 < a * b) by nra. nra. }
  rewrite <- Rmult_minus_distr_l, Rabs_mult, (Rabs_pos_eq (a * b * c_ / 2)) by lra.
  apply Rmult_le_compat_l; [lra|].
  apply Hb'; [lra|].
  apply grid_ok_seq. intros i. rewrite HqS. lra.
Qed.

Lemma ellipsoid_integrand_pos (a b c_ q : R) :
  0 < a -> 0 < b -> 0 < c_ -> 0 <= q -> 0 < ellipsoid_integrand a b c_ q.
Proof.
  intros Ha Hb Hc Hq. unfold ellipsoid_integrand.
  pose proof (sqrt_lt_R0 _ (P_pos a b c_ Ha Hb Hc q Hq)) as Hs.
  assert (0 < a ^ 2 + q) by nra.
  apply Rdiv_lt_0_compat; [lra|]. apply Rmult_lt_0_compat; assumption.
Qed.

Lemma sqrt_11936_bounds : 109 <= sqrt 11936 <= 110.
Proof.
  split.
  - replace 109 with (sqrt (109 * 109)) by (apply sqrt_square; lra).
    apply sqrt_le_1; lra.
  - replace 110 with (sqrt (110 * 110)) by (apply sqrt_square; lra).
    apply sqrt_le_1; lra.
Qed.

Section Rod_44_20_20.

Variable u : R.
Hypothesis u_pos : 0 < u.

Let a := 44 * u.
Let b := 20 * u.

Lemma u3_pos : 0 < u ^ 3.
Proof. apply pow_lt, u_pos. Qed.

Lemma rod_sqrt_0 (x : R) :
  x = (17600 * u ^ 3) * (17600 * u ^ 3) -> sqrt x = 17600 * u ^ 3.
Proof. intros ->. apply sqrt_square. pose proof u3_pos. lra. Qed.

Lemma rod_sqrt_Q (x : R) :
  x = 11936 * ((10400 * u ^ 3) * (10400 * u ^ 3)) ->
  sqrt x = sqrt 11936 * (10400 * u ^ 3).
Proof.
  intros ->. pose proof u3_pos.
  rewrite sqrt_mult by nra. rewrite sqrt_square by lra. reflexivity.
Qed.

Lemma rod_primitive_0 : ellipsoid_primitive a b b 0 = 2 / (17600 * u ^ 3).
Proof.
  unfold ellipsoid_primitive, a, b. rewrite (rod_sqrt_0 _); [reflexivity|ring].
Qed.

Lemma rod_primitive_Q :
  ellipsoid_primitive a b b (10000 * u ^ 2) = 2 / (sqrt 11936 * (10400 * u ^ 3)).
Proof.
  unfold ellipsoid_primitive, a, b. rewrite (rod_sqrt_Q _); [reflexivity|ring].
Qed.

Lemma rod_integrand_sum_0 :
  ellipsoid_integrand_sum a b b 0
  = (1 / 1936 + 2 / 400) / (17600 * u ^ 5).
Proof.
  unfold ellipsoid_integrand_sum, ellipsoid_integrand, a, b.
  rewrite !(rod_sqrt_0 _) by ring. field. lra.
Qed.

Lemma rod_integrand_sum_Q : 0 <= ellipsoid_integrand_sum a b b (10000 * u ^ 2).
Proof.
  assert (Ha : 0 < a) by (unfold a; lra).
  assert (Hb : 0 < b) by (unfold b; lra).
  assert (HQ : 0 <= 10000 * u ^ 2) by nra.
  unfold ellipsoid_integrand_sum.
  pose proof (ellipsoid_integrand_pos a b b _ Ha Hb Hb HQ).
  pose proof (ellipsoid_integrand_pos b b a _ Hb Hb Ha HQ).
  pose proof (ellipsoid_integrand_pos b a b _ Hb Ha Hb HQ).
  lra.
Qed.

End Rod_44_20_20.

(** The quadrature gives about 0.9845 for the 44 x 20 x 20 nm rod: the
    grid stops at 10000 nm^2 and leaves out the tail of the integral. *)
Lemma depolarization_sum_rod (K : constants) :
  0 < nm K ->
  984 / 1000 <= depolarization_sum K (44 * nm K) (20 * nm K) (20 * nm K)
             <= 985 / 1000.
Proof.
  intros Hu. set (u := nm K) in *.
  pose proof (depolarization_sum_enclosure K (44 * u) (20 * u) (20 * u)
                ltac:(lra) ltac:(lra) ltac:(lra) Hu) as H.
  cbv zeta in H. fold u in H.
  rewrite (rod_primitive_0 u Hu), (rod_primitive_Q u Hu),
    (rod_integrand_sum_0 u Hu) in H.
  pose proof (rod_integrand_sum_Q u Hu) as HQ.
  set (SQ := ellipsoid_integrand_sum (44 * u) (20 * u) (20 * u) (10000 * u ^ 2)) in *.
  set (D := depolarization_sum K (44 * u) (20 * u) (20 * u)) in *.
  pose proof sqrt_11936_bounds as [Hs1 Hs2].
  set (s := sqrt 11936) in *.
  pose proof (u3_pos u Hu) as Hu3.
  assert (Hu5 : 0 < u ^ 5) by (apply pow_lt, Hu).
  assert (Ht : / 110 <= / s <= / 109).
  { split; apply Rinv_le_contravar; lra. }
  set (t := / s) in *.
  replace (44 * u * (20 * u) * (20 * u) / 2
           * (2 / (17600 * u ^ 3) - 2 / (s * (10400 * u ^ 3))))
    with (1 - 176 / 104 * t) in H by (unfold t; field; lra).
  replace (44 * u * (20 * u) * (20 * u) / 2
           * (10000 / 99999 * u ^ 2 / 2
              * ((1 / 1936 + 2 / 400) / (17600 * u ^ 5) - SQ)))
    with (/ 4 * (10000 / 99999) * (1 / 1936 + 2 / 400)
          - 8800 * u ^ 3 * (10000 / 99999 * u ^ 2 / 2) * SQ) in H
    by (field; lra).
  assert (HSQ : 0 <= 8800 * u ^ 3 * (10000 / 99999 * u ^ 2 / 2) * SQ).
  { apply Rmult_le_pos; [|exact HQ]. nra. }
  apply Rabs_le_between in H. lra.
Qed.

(** C8.  For semi-axes 44, 20 and 20 nm the three depolarization
    factors computed by the trapezoidal quadrature of [L_i] sum to a value
    within 0.02 of 1. *)
Theorem depolarization_factors_sum_near_one (K : constants) :
  0 < nm K ->
  Rabs (depolarization_sum K (44 * nm K) (20 * nm K) (20 * nm K) - 1) <= 2 / 100.
Proof.
  intros Hu. pose proof (depolarization_sum_rod K Hu) as [H1 H2].
  apply Rabs_le. lra.
Qed.

Lemma depolarization_factors_sum_near_one_witness :
  0 < nm unit_constants /\
  Rabs (depolarization_sum unit_constants (44 * nm unit_constants)
          (20 * nm unit_constants) (20 * nm unit_constants) - 1) <= 2 / 100.
Proof.
  assert (H : 0 < nm unit_constants) by (simpl; lra).
  split; [exact H|]. exact (depolarization_factors_sum_near_one unit_constants H).
Defined.

(** ** Further properties of the rotations *)

Lemma rmap_Ok {A B : Type} (f : A -> B) (a : A) : rmap f (Ok a) = Ok (f a).
Proof. reflexivity. Qed.

Lemma zipWith_map_hom {A B D X Y Z : Type} (F : A -> B -> D) (g : X -> Y -> Z)
    (fa : X -> A) (fb : Y -> B) (fd : Z -> D) :
  (forall x y, F (fa x) (fb y) = fd (g x y)) ->
  forall l1 l2, zipWith F (map fa l1) (map fb l2) = map fd (zipWith g l1 l2).
Proof.
  intros H. induction l1 as [|x l1 IH]; intros [|y l2]; simpl; try reflexivity.
  now rewrite H, IH.
Qed.

(** A binary operation that commutes with the maps applied to its
    arguments broadcasts the same way before and after them. *)
Lemma bmap2_bmap_hom {A B D X Y Z : Type} (F : A -> B -> D) (g : X -> Y -> Z)
    (fa : X -> A) (fb : Y -> B) (fd : Z -> D) :
  (forall x y, F (fa x) (fb y) = fd (g x y)) ->
  forall (a : batch X) (b : batch Y),
    bmap2 F (bmap fa a) (bmap fb b) = rmap (bmap fd) (bmap2 g a b).
Proof.
  intros H [x|l1] [y|l2]; cbn [bmap bmap2 rmap bind].
  - now rewrite H.
  - rewrite !map_map. do 2 f_equal. apply map_ext. intros; apply H.
  - rewrite !map_map. do 2 f_equal. apply map_ext. intros; apply H.
  - rewrite !length_map.
    destruct (Nat.eqb (List.length l1) (List.length l2)).
    + cbn. now rewrite (zipWith_map_hom F g fa fb fd H).
    + destruct l1 as [|x [|x' l1]], l2 as [|y [|y' l2]]; cbn;
        rewrite ?map_map, ?H; try reflexivity;
        do 2 f_equal;
        repeat match goal with |- _ :: _ = _ :: _ => f_equal end;
        apply map_ext; intros; apply H.
Qed.

Section RotationAlgebra.

Variable rot_axis : string.
Hypothesis axis_ok : In rot_axis ["x"; "y"; "z"]%string.

Let Rot (phi : R) : cmat := rotation_slice (cos phi) (sin phi) rot_axis.

Lemma rotation_slice_plus (a b : R) : mmul (Rot a) (Rot b) = Rot (a + b).
Proof.
  unfold Rot. rewrite cos_plus, sin_plus.
  set (sa := sin a). set (ca := cos a). set (sb := sin b). set (cb := cos b).
  destruct axis_ok as [<-|[<-|[<-|[]]]];
    cbv [rotation_slice String.eqb Ascii.eqb Bool.eqb]; mat_unfold;
    unfold Cplus, Cmult, C0, C1, RtoC; simpl; by_entries; f_equal; ring.
Qed.

Lemma rotation_slice_transpose (phi : R) : transpose (Rot phi) = Rot (- phi).
Proof.
  unfold Rot. rewrite cos_neg, sin_neg.
  destruct axis_ok as [<-|[<-|[<-|[]]]];
    cbv [rotation_slice String.eqb Ascii.eqb Bool.eqb]; unfold transpose; mat_unfold;
    unfold C0, C1, RtoC; by_entries; f_equal; ring.
Qed.

Lemma rotation_slice_det (phi : R) : det3 (Rot phi) = C1.
Proof.
  unfold Rot.
  pose proof (sin2_cos2 phi) as H. unfold Rsqr in H.
  set (s := sin phi) in *. set (co := cos phi) in *.
  destruct axis_ok as [<-|[<-|[<-|[]]]];
    cbv [rotation_slice String.eqb Ascii.eqb Bool.eqb]; mat_unfold;
    unfold Cplus, Cmult, Cminus, Copp, C0, C1, RtoC; simpl; f_equal; nra.
Qed.

End RotationAlgebra.

(** X1.  Rotations about one axis compose by adding their angles:
    [rotation_by(a) @ rotation_by(b)] is [rotation_by(a + b)], and breaks
    on array arguments exactly when [a + b] does. *)
Theorem rotation_by_compose (a b : angle) (rot_axis : string) :
  In rot_axis ["x"; "y"; "z"]%string ->
  matmul (rotation_by a rot_axis) (rotation_by b rot_axis)
  = rmap (fun s => rotation_by s rot_axis) (bmap2 Rplus a b).
Proof.
  intros Hax. unfold matmul, rotation_by.
  rewrite (bmap2_bmap_hom mmul Rplus _ _
             (fun phi => rotation_slice (cos phi) (sin phi) rot_axis)).
  - reflexivity.
  - intros x y. now apply rotation_slice_plus.
Qed.

Lemma rotation_by_compose_witness :
  In "y"%string ["x"; "y"; "z"]%string /\
  matmul (rotation_by (Many [1; 2]) "y") (rotation_by (One 3) "y")
  = rmap (fun s => rotation_by s "y") (bmap2 Rplus (Many [1; 2]) (One 3)).
Proof.
  assert (H : In "y"%string ["x"; "y"; "z"]%string) by (simpl; auto).
  split; [exact H|]. exact (rotation_by_compose (Many [1; 2]) (One 3) "y" H).
Defined.

(** X2.  Each matrix of [rotation_by] about x, y or z is orthogonal with
    determinant one: its transpose is the matrix of the opposite angle, and
    the product with its transpose is the identity. *)
Theorem rotation_by_orthogonal (phi : angle) (rot_axis : string) :
  In rot_axis ["x"; "y"; "z"]%string ->
  bmap transpose (rotation_by phi rot_axis) = rotation_by (neg phi) rot_axis
  /\ bmap det3 (rotation_by phi rot_axis) = bmap (fun _ => C1) phi
  /\ bmap (fun m => mmul (transpose m) m) (rotation_by phi rot_axis)
     = bmap (fun _ => identity3) phi.
Proof.
  intros Hax. unfold rotation_by, neg.
  destruct phi as [x|l]; cbn [bmap]; rewrite ?map_map.
  - rewrite rotation_slice_transpose, rotation_slice_det by exact Hax.
    now rewrite rotation_slice_inv_l.
  - repeat split; f_equal; apply map_ext; intros a.
    + now apply rotation_slice_transpose.
    + now apply rotation_slice_det.
    + rewrite rotation_slice_transpose by exact Hax.
      now apply rotation_slice_inv_l.
Qed.

Lemma rotation_by_orthogonal_witness :
  In "x"%string ["x"; "y"; "z"]%string /\
  (bmap transpose (rotation_by (Many [1; 2]) "x") = rotation_by (neg (Many [1; 2])) "x"
   /\ bmap det3 (rotation_by (Many [1; 2]) "x") = bmap (fun _ => C1) (Many [1; 2])
   /\ bmap (fun m => mmul (transpose m) m) (rotation_by (Many [1; 2]) "x")
      = bmap (fun _ => identity3) (Many [1; 2])).
Proof.
  assert (H : In "x"%string ["x"; "y"; "z"]%string) by (simpl; auto).
  split; [exact H|]. exact (rotation_by_orthogonal (Many [1; 2]) "x" H).
Defined.

(** X3.  An axis name other than x, y and z is not refused: [rotation_by]
    returns the zero matrices of [np.zeros], so that conjugating by it
    erases any tensor. *)
Theorem rotation_by_unknown_axis (phi : angle) (rot_axis : string) (T : cmat) :
  ~ In rot_axis ["x"; "y"; "z"]%string ->
  rotation_by phi rot_axis = bmap (fun _ => zeros) phi
  /\ conjugate_by rot_axis phi (One T) = Ok (bmap (fun _ => zeros) phi).
Proof.
  intros Hax.
  assert (Hz : forall co s, rotation_slice co s rot_axis = zeros).
  { intros co s. unfold rotation_slice.
    destruct (String.eqb_spec rot_axis "x") as [->|_];
      [exfalso; apply Hax; simpl; auto|].
    destruct (String.eqb_spec rot_axis "y") as [->|_];
      [exfalso; apply Hax; simpl; auto|].
    destruct (String.eqb_spec rot_axis "z") as [->|_];
      [exfalso; apply Hax; simpl; auto|].
    reflexivity. }
  assert (Hr : forall a : angle, rotation_by a rot_axis = bmap (fun _ => zeros) a).
  { intros [x|l]; unfold rotation_by; cbn [bmap]; [now rewrite Hz|].
    f_equal. apply map_ext. intros; apply Hz. }
  split; [apply Hr|].
  unfold conjugate_by, matmul. rewrite !Hr.
  assert (Hm : forall a b, mmul (mmul zeros a) b = zeros) by mat_ring.
  assert (Hm' : forall a, mmul a zeros = zeros) by mat_ring.
  destruct phi as [x|l]; unfold neg; cbn [bmap].
  - cbn [bmap2 bind]. now rewrite Hm'.
  - rewrite map_map, bmap2_map_l. cbn [bind]. rewrite bmap2_map_map.
    do 2 f_equal. apply map_ext. intros a. apply Hm'.
Qed.

Lemma rotation_by_unknown_axis_witness :
  ~ In "w"%string ["x"; "y"; "z"]%string /\
  (rotation_by (One 1) "w" = bmap (fun _ => zeros) (One 1)
   /\ conjugate_by "w" (One 1) (One identity3) = Ok (bmap (fun _ => zeros) (One 1))).
Proof.
  assert (H : ~ In "w"%string ["x"; "y"; "z"]%string).
  { simpl. intros [H|[H|[H|[]]]]; discriminate H. }
  split; [exact H|]. exact (rotation_by_unknown_axis (One 1) "w" identity3 H).
Defined.

(** ** Further properties of the Green tensor *)

Lemma norm3_vopp (d : rvec) : norm3 (vopp d) = norm3 d.
Proof. destruct d as [x y z]. unfold vopp, norm3; cbn [vmap]. f_equal. ring. Qed.

Lemma G_sample_even (k : R) (d : rvec) : G_sample k (vopp d) = G_sample k d.
Proof.
  unfold G_sample. rewrite norm3_vopp. set (r := norm3 d).
  destruct d as [x y z]. unfold vopp. cbn [vmap].
  repeat match goal with
         | |- context [RtoC (- ?a / r * (- ?b / r))] =>
             replace (- a / r * (- b / r)) with (a / r * (b / r))
               by (unfold Rdiv; ring)
         end.
  reflexivity.
Qed.

Lemma G_sample_symmetric (k : R) (d : rvec) : transpose (G_sample k d) = G_sample k d.
Proof.
  unfold G_sample. set (r := norm3 d). destruct d as [x y z].
  generalize (Cexp (Ci * RtoC k * RtoC r)%C)
             (RtoC (1 / r ^ 3) - Ci * RtoC k / RtoC (r ^ 2))%C
             (RtoC (k ^ 2 / r)).
  intros ph c1 c2. cbn [vmap]. rewrite !RtoC_mult.
  generalize (RtoC (x / r)) (RtoC (y / r)) (RtoC (z / r)). intros a b c_.
  unfold transpose. mat_unfold. by_entries; ring.
Qed.

(** The unit vector has unit length. *)
Lemma unit_vector_unit (d : rvec) :
  0 < norm3 d ->
  let 'V3 a b c_ := vmap RtoC (unit_vector d) in
  (a * a + b * b + c_ * c_)%C = C1.
Proof.
  intros Hd. unfold unit_vector. set (r := norm3 d) in *.
  assert (Hr : r * r = let 'V3 x y z := d in x * x + y * y + z * z).
  { unfold r, norm3. destruct d as [x y z]. apply sqrt_sqrt. nra. }
  destruct d as [x y z]. cbn [vmap].
  unfold Cplus, Cmult, C1, RtoC; cbn [fst snd]. f_equal; [|ring].
  replace (x / r * (x / r) - 0 * 0 + (y / r * (y / r) - 0 * 0)
           + (z / r * (z / r) - 0 * 0))
    with ((x * x + y * y + z * z) / (r * r)) by (field; lra).
  rewrite <- Hr. field. lra.
Qed.

Lemma RtoC_3 : RtoC 3 = (C1 + C1 + C1)%C.
Proof. unfold C1, RtoC, Cplus; cbn [fst snd]; f_equal; ring. Qed.

Lemma RtoC_2 : RtoC 2 = (C1 + C1)%C.
Proof. unfold C1, RtoC, Cplus; cbn [fst snd]; f_equal; ring. Qed.

Lemma G_formula_longitudinal (n_hat : rvec) (r k : R) :
  (let 'V3 a b c_ := vmap RtoC n_hat in (a * a + b * b + c_ * c_)%C = C1) ->
  mvec (G_formula n_hat r k) (vmap RtoC n_hat)
  = vscale (Cexp (Ci * RtoC (k * r))
            * (RtoC 2 * (RtoC (1 / r ^ 3) - Ci * RtoC (k / r ^ 2))))%C
           (vmap RtoC n_hat).
Proof.
  unfold G_formula. destruct n_hat as [x y z]. cbn [vmap].
  generalize (Cexp (Ci * RtoC (k * r))%C)
             (RtoC (1 / r ^ 3) - Ci * RtoC (k / r ^ 2))%C
             (RtoC (k ^ 2 / r)) (RtoC x) (RtoC y) (RtoC z).
  intros ph c1 c2 a b c_ H. mat_unfold. rewrite RtoC_3, RtoC_2.
  by_entries.
  - transitivity (ph * a * (c1 * ((C1 + C1 + C1) * (a * a + b * b + c_ * c_) - C1)
                            - c2 * ((a * a + b * b + c_ * c_) - C1)))%C;
      [ring|rewrite H; ring].
  - transitivity (ph * b * (c1 * ((C1 + C1 + C1) * (a * a + b * b + c_ * c_) - C1)
                            - c2 * ((a * a + b * b + c_ * c_) - C1)))%C;
      [ring|rewrite H; ring].
  - transitivity (ph * c_ * (c1 * ((C1 + C1 + C1) * (a * a + b * b + c_ * c_) - C1)
                             - c2 * ((a * a + b * b + c_ * c_) - C1)))%C;
      [ring|rewrite H; ring].
Qed.

Lemma G_formula_transverse (n_hat : rvec) (r k : R) (v : cvec) :
  dot (vmap RtoC n_hat) v = C0 ->
  mvec (G_formula n_hat r k) v
  = vscale (Cexp (Ci * RtoC (k * r))
            * (RtoC (k ^ 2 / r) - (RtoC (1 / r ^ 3) - Ci * RtoC (k / r ^ 2))))%C v.
Proof.
  unfold G_formula. destruct n_hat as [x y z], v as [v0 v1 v2]. cbn [vmap].
  generalize (Cexp (Ci * RtoC (k * r))%C)
             (RtoC (1 / r ^ 3) - Ci * RtoC (k / r ^ 2))%C
             (RtoC (k ^ 2 / r)) (RtoC x) (RtoC y) (RtoC z).
  intros ph c1 c2 a b c_. mat_unfold. intros H. rewrite RtoC_3.
  by_entries.
  - transitivity (ph * (((C1 + C1 + C1) * c1 - c2) * a * (a * v0 + b * v1 + c_ * v2)
                        + (c2 - c1) * v0))%C;
      [ring|rewrite H; ring].
  - transitivity (ph * (((C1 + C1 + C1) * c1 - c2) * b * (a * v0 + b * v1 + c_ * v2)
                        + (c2 - c1) * v1))%C;
      [ring|rewrite H; ring].
  - transitivity (ph * (((C1 + C1 + C1) * c1 - c2) * c_ * (a * v0 + b * v1 + c_ * v2)
                        + (c2 - c1) * v2))%C;
      [ring|rewrite H; ring].
Qed.

(** X4.  Reciprocity: every tensor [G] returns is symmetric, and the tensor of
    the opposite separation is the same tensor. *)
Theorem G_symmetric_and_even (K : constants) (drive_hbar_w : R)
    (d_col : list rvec) (n_b : R) :
  (forall d, In d d_col -> 0 < norm3 d) ->
  bmap transpose (G K drive_hbar_w d_col n_b) = G K drive_hbar_w d_col n_b
  /\ G K drive_hbar_w (map vopp d_col) n_b = G K drive_hbar_w d_col n_b.
Proof.
  intros _. unfold G. cbn [bmap]. rewrite !map_map. split; f_equal; apply map_ext;
    intros d; [apply G_sample_symmetric|apply G_sample_even].
Qed.

Lemma G_symmetric_and_even_witness :
  (forall d, In d [V3 1 0 0] -> 0 < norm3 d) /\
  (bmap transpose (G unit_constants 2 [V3 1 0 0] 1) = G unit_constants 2 [V3 1 0 0] 1
   /\ G unit_constants 2 (map vopp [V3 1 0 0]) 1 = G unit_constants 2 [V3 1 0 0] 1).
Proof.
  assert (H : forall d, In d [V3 1 0 0] -> 0 < norm3 d).
  { intros d [<-|[]]. rewrite norm3_e1. lra. }
  split; [exact H|]. exact (G_symmetric_and_even unit_constants 2 [V3 1 0 0] 1 H).
Defined.

(** X5.  The tensor of a separation d of length r acts on the direction d/r as
    multiplication by 2 exp(ikr)(1/r^3 - ik/r^2), with no 1/r term, and on
    every vector orthogonal to d as multiplication by
    exp(ikr)(k^2/r - 1/r^3 + ik/r^2). *)
Theorem G_longitudinal_and_transverse (K : constants) (drive_hbar_w : R)
    (d_col : list rvec) (n_b : R) :
  (forall d, In d d_col -> 0 < norm3 d) ->
  let k := drive_hbar_w / hbar K * n_b / c K in
  exists g : rvec -> cmat,
    G K drive_hbar_w d_col n_b = Many (map g d_col)
    /\ forall d, In d d_col ->
         let r := norm3 d in
         let n := vmap RtoC (unit_vector d) in
         let near := (RtoC (1 / r ^ 3) - Ci * RtoC (k / r ^ 2))%C in
         mvec (g d) n = vscale (Cexp (Ci * RtoC (k * r)) * (RtoC 2 * near))%C n
         /\ forall v : cvec,
              dot n v = C0 ->
              mvec (g d) v
              = vscale (Cexp (Ci * RtoC (k * r)) * (RtoC (k ^ 2 / r) - near))%C v.
Proof.
  intros Hd k. exists (G_sample k). split; [reflexivity|].
  intros d Hin r n near. pose proof (Hd d Hin) as Hr.
  rewrite G_sample_formula by exact Hr. split.
  - apply G_formula_longitudinal. exact (unit_vector_unit d Hr).
  - intros v Hv. now apply G_formula_transverse.
Qed.

Lemma G_longitudinal_and_transverse_witness :
  (forall d, In d [V3 1 0 0] -> 0 < norm3 d) /\
  let k := 2 / hbar unit_constants * 1 / c unit_constants in
  exists g : rvec -> cmat,
    G unit_constants 2 [V3 1 0 0] 1 = Many (map g [V3 1 0 0])
    /\ forall d, In d [V3 1 0 0] ->
         let r := norm3 d in
         let n := vmap RtoC (unit_vector d) in
         let near := (RtoC (1 / r ^ 3) - Ci * RtoC (k / r ^ 2))%C in
         mvec (g d) n = vscale (Cexp (Ci * RtoC (k * r)) * (RtoC 2 * near))%C n
         /\ forall v : cvec,
              dot n v = C0 ->
              mvec (g d) v
              = vscale (Cexp (Ci * RtoC (k * r)) * (RtoC (k ^ 2 / r) - near))%C v.
Proof.
  assert (H : forall d, In d [V3 1 0 0] -> 0 < norm3 d).
  { intros d [<-|[]]. rewrite norm3_e1. lra. }
  split; [exact H|].
  exact (G_longitudinal_and_transverse unit_constants 2 [V3 1 0 0] 1 H).
Defined.

(** ** Further properties of the solvers *)

Lemma bmap_id {A : Type} (a : batch A) : bmap (fun x => x) a = a.
Proof. destruct a as [x|l]; cbn; [reflexivity|]. now rewrite map_id. Qed.

Lemma bmap_bmap {A B D : Type} (f : A -> B) (g : B -> D) (a : batch A) :
  bmap g (bmap f a) = bmap (fun x => g (f x)) a.
Proof. destruct a as [x|l]; cbn; [reflexivity|]. now rewrite map_map. Qed.

Lemma bmap_ext {A B : Type} (f g : A -> B) (a : batch A) :
  (forall x, f x = g x) -> bmap f a = bmap g a.
Proof.
  intros H. destruct a as [x|l]; cbn; [now rewrite H|].
  f_equal. apply map_ext, H.
Qed.

(** Scaling the vector argument of a matrix-vector product scales the
    result, whatever the broadcasting. *)
Lemma einsum_ij_j_scale (lam : C) (m : batch cmat) (v : batch cvec) :
  einsum_ij_j m (bmap (vscale lam) v) = rmap (bmap (vscale lam)) (einsum_ij_j m v).
Proof.
  unfold einsum_ij_j. rewrite <- (bmap_id m) at 1.
  apply bmap2_bmap_hom. mat_ring.
Qed.

Lemma matvec_scale_arg (m : batch cmat) (v : cvec) (A : C) :
  matvec m (One (vmap (fun x => (x * A)%C) v))
  = rmap (bmap (vmap (fun x => (x * A)%C))) (matvec m (One v)).
Proof.
  unfold matvec. rewrite <- (bmap_id m) at 1.
  change (One (vmap (fun x => (x * A)%C) v))
    with (bmap (vmap (fun x => (x * A)%C)) (One v)).
  apply bmap2_bmap_hom. mat_ring.
Qed.

Lemma plane_wave_drive_scale (lam A : C) (e : angle) :
  plane_wave_drive e (lam * A)%C = rmap (bmap (vscale lam)) (plane_wave_drive e A).
Proof.
  unfold plane_wave_drive.
  destruct (matvec (rotation_by e "z") (One (V3 C1 C0 C0))) as [v|err];
    cbn [bind rmap]; [|reflexivity].
  f_equal. rewrite bmap_bmap. apply bmap_ext. mat_ring.
Qed.

(** Case analysis on the first computation of a chain of binds. *)
Ltac bind_head r :=
  lazymatch r with
  | bind ?r' _ => bind_head r'
  | rmap _ ?r' => bind_head r'
  | Ok _ => fail
  | Raise _ => fail
  | (if ?b then _ else _) => destruct b; cbn [bind rmap negb]; try reflexivity
  | _ => destruct r; cbn [bind rmap]; try reflexivity
  end.

Ltac bind_step :=
  unfold cvec, cmat, angle, rvec;
  match goal with |- ?l = _ => bind_head l end.

(** X6.  [uncoupled_p0] and [single_dip_mag_pw] are the same function of the
    angle, the drive angle, the polarizability and the drive amplitude: they
    return the same moment (and tensor) and raise on the same inputs. *)
Theorem uncoupled_p0_is_single_dip_mag_pw (mol_angle : angle)
    (E_d_angle : option angle) (alpha_0_p0 : batch cmat) (drive_amp : C)
    (drive_hbar_w n_b : R) (return_polarizabilities : bool) :
  uncoupled_p0 mol_angle E_d_angle alpha_0_p0 drive_amp return_polarizabilities
  = single_dip_mag_pw mol_angle E_d_angle drive_hbar_w alpha_0_p0 n_b drive_amp
      return_polarizabilities.
Proof.
  unfold uncoupled_p0, rotate_molecule, single_dip_mag_pw, plane_wave_drive.
  bind_step. rewrite matvec_scale_arg. repeat bind_step.
Qed.

(** X7.  Linear response: multiplying the drive amplitude by a factor multiplies
    both moments of [coupled_dip_mags_both_driven] and of
    [dipole_mags_gened] by that factor, and changes neither the returned
    tensors nor the inputs on which they raise. *)
Theorem moments_linear_in_drive_amp (K : constants) (lam : C)
    (mol_angle plas_angle : angle) (d_col : list rvec) (E_d_angle : option angle)
    (drive_hbar_w : R) (alpha0_diag alpha1_diag : batch cmat) (n_b : R)
    (drive_amp : C) (return_polarizabilities : bool) :
  coupled_dip_mags_both_driven K mol_angle plas_angle d_col E_d_angle drive_hbar_w
    alpha0_diag alpha1_diag n_b (lam * drive_amp)%C return_polarizabilities
  = rmap (scale_moments lam)
      (coupled_dip_mags_both_driven K mol_angle plas_angle d_col E_d_angle
         drive_hbar_w alpha0_diag alpha1_diag n_b drive_amp return_polarizabilities)
  /\ dipole_mags_gened K mol_angle plas_angle d_col E_d_angle drive_hbar_w
       alpha0_diag alpha1_diag n_b (lam * drive_amp)%C
     = rmap (fun p => (bmap (vscale lam) (fst p), bmap (vscale lam) (snd p)))
         (dipole_mags_gened K mol_angle plas_angle d_col E_d_angle drive_hbar_w
            alpha0_diag alpha1_diag n_b drive_amp).
Proof.
  split.
  - unfold coupled_dip_mags_both_driven, coupled_dip_mags_both_driven_with.
    bind_step. rewrite plane_wave_drive_scale.
    repeat (rewrite ?einsum_ij_j_scale; bind_step).
  - unfold dipole_mags_gened, rotate_molecule.
    bind_step.
    replace (vmap (fun x => (x * (lam * drive_amp))%C) (V3 C1 C0 C0))
      with (vmap (fun x => (x * lam)%C)
              (vmap (fun x => (x * drive_amp)%C) (V3 C1 C0 C0)))
      by (cbn [vmap]; f_equal; ring).
    rewrite (matvec_scale_arg _ _ lam). bind_step.
    rewrite (bmap_ext (vmap (fun x => (x * lam)%C)) (vscale lam))
      by (intros; mat_ring).
    repeat (rewrite ?einsum_ij_j_scale; bind_step).
Qed.

(** ** Singular tensors *)

Lemma mapM_inv3_singular (l : list cmat) :
  (exists m, In m l /\ ~ invertible m) -> mapM inv3 l = Raise LinAlgError.
Proof.
  induction l as [|m0 l IH]; intros [m [Hin Hm]]; [destruct Hin|].
  cbn [mapM]. unfold inv3 at 1.
  destruct (Ceq_dec (det3 m0) C0) as [E|E]; [reflexivity|]. cbn [bind].
  destruct Hin as [<-|Hin].
  - exfalso. apply Hm, invertible_det, E.
  - rewrite IH by (exists m; auto). reflexivity.
Qed.

Lemma linalg_inv_singular {S : Type} (samples : list S) (x : per S cmat) (s0 : S) :
  In s0 samples -> ~ invertible (at_sample x s0) ->
  linalg_inv (as_batch samples x) = Raise LinAlgError.
Proof.
  intros Hin Hs. destruct x as [a|f]; cbn [as_batch linalg_inv bmapM at_sample] in *.
  - now rewrite inv3_singular.
  - rewrite mapM_inv3_singular; [reflexivity|].
    exists (f s0). split; [now apply in_map|exact Hs].
Qed.

(** The tensor of the unit separation along x at zero frequency. *)
Lemma G_sample_x_axis :
  G_sample (0 / 1 * 1 / 1) (V3 1 0 0) = diag3 (RtoC 2) (RtoC (- 1)) (RtoC (- 1)).
Proof.
  rewrite G_sample_formula by (rewrite norm3_e1; lra).
  unfold unit_vector. rewrite norm3_e1.
  replace (0 / 1 * 1 / 1) with 0 by field.
  unfold G_formula, Cexp, Ci, RtoC, Cmult. cbn [fst snd vmap].
  repeat match goal with
         | |- context [exp ?x] => progress replace x with 0 by ring
         | |- context [cos ?x] => progress replace x with 0 by ring
         end.
  rewrite exp_0, cos_0, sin_0.
  c_entries; f_equal; field.
Qed.

(** ** The emitter of prescribed moment *)

Lemma lab_tensor_per_inr {S : Type} (samples : list S) (phi : per S R)
    (F : S -> cmat) :
  as_batch samples (lab_tensor_per phi (inr F))
  = Many (map (fun s => lab_tensor (at_sample phi s) (F s)) samples).
Proof.
  destruct phi as [x|f]; unfold lab_tensor_per;
    cbn [per_map per_map2 as_batch at_sample]; f_equal; apply map_ext; intros s;
    unfold lab_tensor, rot_z; now rewrite mmul_assoc.
Qed.

(** [plas_dip_driven_by_mol] on a batched call. *)
Lemma plas_dip_per (K : constants) {S : Type} (samples : list S) (d_of : S -> rvec)
    (mag_of : S -> C) (phi_0 phi_1 : per S R) (E_d_angle : option R)
    (drive_hbar_w : R) (alpha1_diag : per S cmat) (n_b : R) (drive_amp : C) :
  let alpha_0 s :=
    lab_tensor (at_sample phi_0 s) (mset 0 0 (mag_of s / drive_amp)%C zeros) in
  let alpha_1 s := lab_tensor (at_sample phi_1 s) (at_sample alpha1_diag s) in
  let E s := lab_field (drive_angle E_d_angle (at_sample phi_0 s)) drive_amp in
  let g s := G_sample (drive_hbar_w / hbar K * n_b / c K) (d_of s) in
  plas_dip_driven_by_mol K (as_batch samples phi_0) (as_batch samples phi_1)
    (map d_of samples) (map mag_of samples) (option_map One E_d_angle)
    drive_hbar_w (as_batch samples alpha1_diag) n_b drive_amp
  = (_ <- geometric_coupling (Many (map alpha_0 samples)) (Many (map g samples))
            (as_batch samples (lab_tensor_per phi_1 alpha1_diag)) ;;
     let p0 s := mvec (alpha_0 s) (E s) in
     Ok (Many (map p0 samples),
         Many (map (fun s => mvec (alpha_1 s) (mvec (g s) (p0 s))) samples))).
Proof.
  intros alpha_0 alpha_1 E g.
  unfold plas_dip_driven_by_mol.
  rewrite default_E_d_angle_per. cbn [bind].
  rewrite plane_wave_drive_per. cbn [bind].
  rewrite map_map.
  change (Many (map (fun x => mset 0 0 (mag_of x / drive_amp)%C zeros) samples))
    with (as_batch samples
            (@inr cmat (S -> cmat)
               (fun s => mset 0 0 (mag_of s / drive_amp)%C zeros))).
  rewrite !rotate_tensor_per. cbn [bind].
  rewrite lab_tensor_per_inr. fold alpha_0.
  unfold G. cbv zeta. rewrite map_map. fold g.
  match goal with |- bind ?r _ = bind ?r' _ => destruct r end;
    cbn [bind]; [|reflexivity].
  unfold einsum_ij_j, matmul.
  rewrite bmap2_as_batch_r. cbn [bind].
  rewrite bmap2_as_batch_l. cbn [bind].
  rewrite bmap2_map_map. cbn [bind]. cbv zeta.
  do 2 f_equal; f_equal; apply map_ext; intros s; unfold E;
    rewrite ?mvec_mmul, ?at_lab_tensor_per, at_lab_field_per, at_drive_per;
    reflexivity.
Qed.

(** ** The moment of a rotated diagonal tensor *)

Lemma RtoC_opp (x : R) : RtoC (- x) = (- RtoC x)%C.
Proof. unfold RtoC, Copp; cbn [fst snd]; f_equal; ring. Qed.

Lemma RtoC_sub (x y : R) : RtoC (x - y) = (RtoC x - RtoC y)%C.
Proof. unfold RtoC, Cminus, Cplus, Copp; cbn [fst snd]; f_equal; ring. Qed.

Lemma RtoC_add (x y : R) : RtoC (x + y) = (RtoC x + RtoC y)%C.
Proof. unfold RtoC, Cplus; cbn [fst snd]; f_equal; ring. Qed.

Lemma lab_moment_diag (phi psi : R) (a b c_ drive_amp : C) :
  mvec (lab_tensor phi (diag3 a b c_)) (lab_field psi drive_amp)
  = in_plane_moment a b phi psi drive_amp.
Proof.
  unfold in_plane_moment, axis_of, across_of, lab_tensor, lab_field.
  rewrite cos_neg, sin_neg, cos_plus, sin_plus.
  rewrite !RtoC_add, !RtoC_sub, !RtoC_mult, !RtoC_opp.
  cbv [rotation_slice String.eqb Ascii.eqb Bool.eqb].
  rewrite !RtoC_opp.
  generalize (RtoC (cos phi)) (RtoC (sin phi)) (RtoC (cos psi)) (RtoC (sin psi)).
  intros c0 s0 c1 s1. mat_unfold. by_entries; ring.
Qed.

Lemma x_emitter_moment (phi psi : R) (m drive_amp : C) :
  drive_amp <> C0 ->
  mvec (lab_tensor phi (mset 0 0 (m / drive_amp)%C zeros)) (lab_field psi drive_amp)
  = vscale (m * RtoC (cos (phi + psi)))%C (axis_of phi).
Proof.
  intros HA.
  change (mset 0 0 (m / drive_amp)%C zeros) with (diag3 (m / drive_amp)%C C0 C0).
  rewrite lab_moment_diag. unfold in_plane_moment, axis_of, across_of.
  generalize (RtoC (cos (phi + psi))) (RtoC (sin (phi + psi)))
             (RtoC (cos phi)) (RtoC (- sin phi)) (RtoC (sin phi)).
  intros C_ S_ c0 ms0 s0. mat_unfold. by_entries; field; exact HA.
Qed.

Lemma single_dip_mag_pw_float (phi drive_hbar_w n_b : R) (drive_amp : C)
    (alpha0_diag : cmat) :
  single_dip_mag_pw (One phi) None drive_hbar_w (One alpha0_diag) n_b drive_amp false
  = Ok (One (mvec (lab_tensor phi alpha0_diag) (lab_field phi drive_amp)), None).
Proof.
  unfold single_dip_mag_pw.
  rewrite default_E_d_angle_None. cbn [bind].
  rewrite rotate_tensor_float.
  unfold plane_wave_drive, matvec, rotation_by, einsum_ij_j.
  cbn [bmap bmap2 bind negb]. do 3 f_equal. unfold lab_field. f_equal.
  generalize (rotation_slice (cos phi) (sin phi) "z"). intros m.
  destruct drive_amp as [x y]. mat_ring.
Qed.

(** X9.  The drive of a dipole by a plane wave has a fixed orientation law.
    For a tensor diag(a, b, c) at angle phi driven at angle psi (the
    emitter's own angle when [E_d_angle] is omitted), [single_dip_mag_pw]
    returns E0 [ a cos(phi + psi) (cos phi, -sin phi, 0)
                 + b sin(phi + psi) (sin phi, cos phi, 0) ]:
    the long axis of the lab-frame tensor lies at -phi while the field lies
    at +psi.  With the default drive an emitter polarizable along x only
    carries a cos(2 phi), and no moment at all at phi = pi/4. *)
Theorem single_dip_mag_pw_orientation_law {S : Type} (samples : list S)
    (phi : per S R) (E_d_angle : option R) (drive_hbar_w n_b : R)
    (a b c_ drive_amp : C) :
  (exists p0 : per S cvec,
     (forall s, at_sample p0 s
                = in_plane_moment a b (at_sample phi s)
                    (drive_angle E_d_angle (at_sample phi s)) drive_amp)
     /\ single_dip_mag_pw (as_batch samples phi) (option_map One E_d_angle)
          drive_hbar_w (One (diag3 a b c_)) n_b drive_amp false
        = Ok (as_batch samples p0, None))
  /\ single_dip_mag_pw (One (PI / 4)) None drive_hbar_w (One (diag3 a C0 C0))
       n_b drive_amp false
     = Ok (One vzero, None).
Proof.
  split.
  - destruct (single_dip_mag_pw_per samples phi E_d_angle drive_hbar_w
                (inl (diag3 a b c_)) n_b drive_amp) as [p0 [H1 H2]].
    exists p0. split; [|exact H2].
    intros s. rewrite H1. cbn [at_sample]. apply lab_moment_diag.
  - rewrite single_dip_mag_pw_float, lab_moment_diag.
    unfold in_plane_moment, axis_of, across_of.
    replace (PI / 4 + PI / 4) with (PI / 2) by field.
    rewrite cos_PI2.
    generalize (RtoC (sin (PI / 2))) (RtoC (cos (PI / 4)))
               (RtoC (- sin (PI / 4))) (RtoC (sin (PI / 4))).
    intros. change (RtoC 0) with C0. unfold vzero.
    do 3 f_equal. mat_unfold. by_entries; ring.
Qed.

(** ** The emitter of prescribed moment *)

(** X10.  [plas_dip_driven_by_mol] gives the emitter the moment
    m cos(phi + psi) (cos phi, -sin phi, 0), with m its entry of
    [mol_dipole_mag], phi its angle and psi the drive angle (phi itself when
    [E_d_angle] is omitted): the moment does not depend on the drive
    amplitude, and its size is |m cos(phi + psi)|.  The particle's moment is
    a1 G p0. *)
Theorem plas_dip_driven_by_mol_moments (K : constants) {S : Type}
    (samples : list S) (d_of : S -> rvec) (mag_of : S -> C)
    (phi_0 phi_1 : per S R) (E_d_angle : option R) (drive_hbar_w : R)
    (alpha1_diag : per S cmat) (n_b : R) (drive_amp : C) :
  let alpha_0 s :=
    lab_tensor (at_sample phi_0 s) (mset 0 0 (mag_of s / drive_amp)%C zeros) in
  let alpha_1 s := lab_tensor (at_sample phi_1 s) (at_sample alpha1_diag s) in
  let g s := G_sample (drive_hbar_w / hbar K * n_b / c K) (d_of s) in
  let p0 s :=
    vscale (mag_of s
            * RtoC (cos (at_sample phi_0 s
                         + drive_angle E_d_angle (at_sample phi_0 s))))%C
           (axis_of (at_sample phi_0 s)) in
  drive_amp <> C0 ->
  (forall s, In s samples ->
             invertible (coupling_matrix (alpha_0 s) (g s) (alpha_1 s))) ->
  plas_dip_driven_by_mol K (as_batch samples phi_0) (as_batch samples phi_1)
    (map d_of samples) (map mag_of samples) (option_map One E_d_angle)
    drive_hbar_w (as_batch samples alpha1_diag) n_b drive_amp
  = Ok (Many (map p0 samples),
        Many (map (fun s => mvec (alpha_1 s) (mvec (g s) (p0 s))) samples)).
Proof.
  intros alpha_0 alpha_1 g p0 HA Hinv.
  rewrite (plas_dip_per K samples d_of mag_of phi_0 phi_1 E_d_angle drive_hbar_w
             alpha1_diag n_b drive_amp). cbv zeta. fold alpha_0 g.
  change (Many (map alpha_0 samples))
    with (as_batch samples (@inr cmat (S -> cmat) alpha_0)).
  rewrite (geometric_coupling_per samples _ _ g).
  2:{ intros s Hs. rewrite at_lab_tensor_per. cbn [at_sample]. now apply Hinv. }
  cbn [bind].
  do 2 f_equal; f_equal; apply map_ext; intros s; unfold alpha_0, p0;
    now rewrite x_emitter_moment.
Qed.

Lemma plas_dip_driven_by_mol_moments_witness :
  let K := unit_constants in
  let samples := [tt] in
  let d_of (_ : unit) := d_oblique in
  let mag_of (_ : unit) := C1 in
  let alpha_0 (_ : unit) := lab_tensor 0 (mset 0 0 (C1 / C1)%C zeros) in
  let alpha_1 (_ : unit) := lab_tensor 0 alpha_particle in
  let g s := G_sample (0 / hbar K * 1 / c K) (d_of s) in
  let p0 (_ : unit) := vscale (C1 * RtoC (cos (0 + 0)))%C (axis_of 0) in
  C1 <> C0 /\
  (forall s, In s samples ->
             invertible (coupling_matrix (alpha_0 s) (g s) (alpha_1 s))) /\
  plas_dip_driven_by_mol K (One 0) (One 0) [d_oblique] [C1] None 0
    (One alpha_particle) 1 C1
  = Ok (Many (map p0 samples),
        Many (map (fun s => mvec (alpha_1 s) (mvec (g s) (p0 s))) samples)).
Proof.
  intros K samples d_of mag_of alpha_0 alpha_1 g p0.
  assert (H : forall s, In s samples ->
                        invertible (coupling_matrix (alpha_0 s) (g s) (alpha_1 s))).
  { intros s _. unfold alpha_0, alpha_1, g, d_of.
    rewrite unit_moment_tensor, !lab_tensor_0.
    change (0 / hbar K * 1 / c K) with (0 / 1 * 1 / 1).
    rewrite G_sample_oblique. exact invertible_oblique. }
  split; [exact C1_neq_C0|]. split; [exact H|].
  exact (plas_dip_driven_by_mol_moments K samples d_of mag_of (inl 0) (inl 0)
           None 0 (inl alpha_particle) 1 C1 C1_neq_C0 H).
Defined.

(** ** The moments at one separation *)

(** X12.  [dipole_moments_per_omega] evaluates the two polarizabilities at
    omega = drive_hbar_w/hbar and solves the emitter-driven pair for the one
    separation [d]; it never passes its [E_d_angle] on, so the field lies
    along the emitter's angle whatever is given, and a [d] that does not
    hold three numbers raises [ValueError]. *)
Theorem dipole_moments_per_omega_ignores_E_d_angle (K : constants)
    (phi_0 phi_1 : R) (x y z : R) (E_d_angle : option angle) (drive_hbar_w : R)
    (alpha0_diag_of_omega alpha1_diag_of_omega : R -> batch cmat)
    (a0 a1 : cmat) (n_b : R) (drive_amp : C) :
  let alpha_0 := lab_tensor phi_0 a0 in
  let alpha_1 := lab_tensor phi_1 a1 in
  let E := lab_field phi_0 drive_amp in
  let g := G_sample (drive_hbar_w / hbar K * n_b / c K) (V3 x y z) in
  let M := inverse_of (coupling_matrix alpha_0 g alpha_1) in
  let p0 := mvec M (mvec alpha_0 E) in
  alpha0_diag_of_omega (drive_hbar_w / hbar K) = One a0 ->
  alpha1_diag_of_omega (drive_hbar_w / hbar K) = One a1 ->
  invertible (coupling_matrix alpha_0 g alpha_1) ->
  dipole_moments_per_omega K (One phi_0) (One phi_1) [x; y; z] E_d_angle
    drive_hbar_w alpha0_diag_of_omega alpha1_diag_of_omega n_b drive_amp
  = Ok (Many [p0], Many [mvec alpha_1 (mvec g p0)])
  /\ forall d : list R,
       List.length d <> 3%nat ->
       dipole_moments_per_omega K (One phi_0) (One phi_1) d E_d_angle
         drive_hbar_w alpha0_diag_of_omega alpha1_diag_of_omega n_b drive_amp
       = Raise ValueError.
Proof.
  intros alpha_0 alpha_1 E g M p0 H0 H1 Hinv. split.
  - unfold dipole_moments_per_omega. cbn [reshape_1_3 bind]. rewrite H0, H1.
    pose proof (gened_per K [tt] (fun _ => V3 x y z) (inl phi_0) (inl phi_1) None
                  drive_hbar_w (inl a0) (inl a1) n_b drive_amp) as H.
    cbv zeta in H. cbn [as_batch at_sample map option_map drive_angle] in H.
    apply H. intros s _. exact Hinv.
  - intros d Hd. unfold dipole_moments_per_omega.
    destruct d as [|u [|v [|w [|t d]]]]; cbn [reshape_1_3 bind]; try reflexivity.
    exfalso. apply Hd. reflexivity.
Qed.

Lemma dipole_moments_per_omega_ignores_E_d_angle_witness :
  let K := unit_constants in
  let alpha_0 := lab_tensor 0 alpha_emitter in
  let alpha_1 := lab_tensor 0 alpha_particle in
  let E := lab_field 0 C1 in
  let g := G_sample (0 / hbar K * 1 / c K) (V3 (3 / 5) (4 / 5) 0) in
  let M := inverse_of (coupling_matrix alpha_0 g alpha_1) in
  let p0 := mvec M (mvec alpha_0 E) in
  (fun _ : R => One alpha_emitter) (0 / hbar K) = One alpha_emitter /\
  (fun _ : R => One alpha_particle) (0 / hbar K) = One alpha_particle /\
  invertible (coupling_matrix alpha_0 g alpha_1) /\
  (dipole_moments_per_omega K (One 0) (One 0) [3 / 5; 4 / 5; 0]
     (Some (Many [1; 2])) 0 (fun _ => One alpha_emitter)
     (fun _ => One alpha_particle) 1 C1
   = Ok (Many [p0], Many [mvec alpha_1 (mvec g p0)])
   /\ forall d : list R,
        List.length d <> 3%nat ->
        dipole_moments_per_omega K (One 0) (One 0) d (Some (Many [1; 2])) 0
          (fun _ => One alpha_emitter) (fun _ => One alpha_particle) 1 C1
        = Raise ValueError).
Proof.
  intros K alpha_0 alpha_1 E g M p0.
  assert (H : invertible (coupling_matrix alpha_0 g alpha_1)).
  { unfold alpha_0, alpha_1, g. rewrite !lab_tensor_0.
    change (G_sample (0 / hbar K * 1 / c K) (V3 (3 / 5) (4 / 5) 0))
      with (G_sample (0 / 1 * 1 / 1) d_oblique).
    rewrite G_sample_oblique. exact invertible_oblique. }
  split; [reflexivity|]. split; [reflexivity|]. split; [exact H|].
  exact (dipole_moments_per_omega_ignores_E_d_angle K 0 0 (3 / 5) (4 / 5) 0
           (Some (Many [1; 2])) 0 (fun _ => One alpha_emitter)
           (fun _ => One alpha_particle) alpha_emitter alpha_particle 1 C1
           eq_refl eq_refl H).
Defined.

(** ** Absorption cross sections *)

Lemma lab_tensor_det (phi : R) (a : cmat) : det3 (lab_tensor phi a) = det3 a.
Proof.
  assert (Hz : In "z"%string ["x"; "y"; "z"]%string) by (simpl; auto).
  unfold lab_tensor. rewrite !det3_mmul, !(rotation_slice_det "z" Hz). ring.
Qed.

Lemma lab_tensor_invertible (phi : R) (a : cmat) :
  invertible (lab_tensor phi a) <-> invertible a.
Proof. now rewrite !invertible_det, lab_tensor_det. Qed.

(** [uncoupled_p0] with the tensor returned, on a batched call. *)
Lemma uncoupled_p0_per {S : Type} (samples : list S) (phi : per S R)
    (E_d_angle : option R) (alpha_0_p0 : per S cmat) (drive_amp : C) :
  exists p0 : per S cvec,
    (forall s, at_sample p0 s
               = mvec (lab_tensor (at_sample phi s) (at_sample alpha_0_p0 s))
                      (lab_field (drive_angle E_d_angle (at_sample phi s)) drive_amp))
    /\ uncoupled_p0 (as_batch samples phi) (option_map One E_d_angle)
         (as_batch samples alpha_0_p0) drive_amp true
       = Ok (as_batch samples p0,
             Some (as_batch samples (lab_tensor_per phi alpha_0_p0))).
Proof.
  destruct (rotate_molecule_per samples phi alpha_0_p0 E_d_angle drive_amp)
    as [E' [HE Hr]].
  exists (per_map2 mvec (lab_tensor_per phi alpha_0_p0) E'). split.
  - intros s. now rewrite at_per_map2, at_lab_tensor_per, HE.
  - unfold uncoupled_p0. rewrite Hr. cbn [bind].
    unfold einsum_ij_j. now rewrite bmap2_as_batch.
Qed.

Lemma linalg_inv_per {S : Type} (samples : list S) (x : per S cmat) :
  samples <> [] ->
  (forall s, In s samples -> invertible (at_sample x s)) ->
  linalg_inv (as_batch samples x) = Ok (as_batch samples (per_map inverse_of x)).
Proof.
  intros Hne Hinv. destruct x as [a|f]; cbn [as_batch linalg_inv bmapM per_map].
  - destruct samples as [|s0 l]; [congruence|].
    destruct (inv3_invertible a) as [-> _]; [|reflexivity].
    apply (Hinv s0). now left.
  - rewrite (mapM_map_ok inv3 f (fun s => inverse_of (f s))); [reflexivity|].
    intros s Hs. apply inv3_invertible, (Hinv s Hs).
Qed.

Lemma interference_with_per {S : Type} (samples : list S) (a : per S cmat)
    (p : per S cvec) :
  interference_with (as_batch samples a) (as_batch samples p)
  = Ok (as_batch samples
          (per_map vsumR
             (per_map2 (vmap2 (fun x y => Cim (x * Cconj y)%C)) p
                (per_map2 mvec a p)))).
Proof.
  unfold interference_with, einsum_ij_j.
  rewrite bmap2_as_batch. cbn [bind].
  rewrite bmap2_as_batch. cbn [bind].
  now rewrite bmap_as_batch.
Qed.

Lemma im_rows_dot (p u : cvec) :
  vsumR (vmap2 (fun x y => Cim (x * Cconj y)%C) p u) = im_dot_conj p u.
Proof.
  unfold im_dot_conj.
  destruct p as [[? ?] [? ?] [? ?]], u as [[? ?] [? ?] [? ?]].
  cbv beta iota delta [vsumR vmap2 vmap dot vsumC Cim Cconj Cmult Cplus fst snd].
  ring.
Qed.

Lemma inverse_of_apply (a : cmat) (v : cvec) :
  invertible a -> mvec (inverse_of a) (mvec a v) = v.
Proof.
  intros H. destruct (inv3_invertible a H) as [_ [_ Hl]].
  now rewrite <- mvec_mmul, Hl, mvec_1.
Qed.

(** X13.  [single_dip_absorption] inverts the lab-frame tensor to recover the
    field from the moment.  When the tensor is invertible at every sample
    the cross section is (4 pi k/|E0|^2) [ Im(p . conj E) - (2/3) k^3 |p|^2 ]
    with p = a E the moment and E the drive field: the work of the field on
    the dipole less the scattered power. *)
Theorem single_dip_absorption_formula (K : constants) {S : Type}
    (samples : list S) (phi : per S R) (E_d_angle : option R)
    (alpha_0_p0 : per S cmat) (drive_hbar_w : R) (drive_amp : C) (n_b : R) :
  let k := drive_hbar_w / hbar K * n_b / c K in
  let E s := lab_field (drive_angle E_d_angle (at_sample phi s)) drive_amp in
  let p s := mvec (lab_tensor (at_sample phi s) (at_sample alpha_0_p0 s)) (E s) in
  samples <> [] ->
  drive_amp <> C0 ->
  (forall s, In s samples -> invertible (at_sample alpha_0_p0 s)) ->
  exists sigma : per S R,
    (forall s, In s samples ->
               at_sample sigma s = absorption_formula k drive_amp (p s) (E s))
    /\ single_dip_absorption K (as_batch samples phi) (option_map One E_d_angle)
         (as_batch samples alpha_0_p0) drive_hbar_w drive_amp n_b
       = Ok (as_batch samples sigma).
Proof.
  intros k E p Hne _ Hinv.
  destruct (uncoupled_p0_per samples phi E_d_angle alpha_0_p0 drive_amp)
    as [p0 [Hp Hu]].
  unfold single_dip_absorption. rewrite Hu. cbn [bind].
  rewrite linalg_inv_per; [|exact Hne|].
  2:{ intros s Hs. rewrite at_lab_tensor_per. apply lab_tensor_invertible.
      now apply Hinv. }
  cbn [bind]. rewrite interference_with_per. cbn [bind].
  rewrite bmap_as_batch, bmap2_as_batch. cbn [bind]. rewrite bmap_as_batch.
  eexists. split; [|reflexivity].
  intros s Hs.
  repeat first [rewrite at_per_map | rewrite at_per_map2].
  unfold cvec, cmat in *. rewrite at_lab_tensor_per, !Hp.
  rewrite inverse_of_apply by (apply lab_tensor_invertible; now apply Hinv).
  rewrite im_rows_dot, abs_norm_sq_vnorm2, Cmod_sq.
  reflexivity.
Qed.

Lemma single_dip_absorption_formula_witness :
  let K := unit_constants in
  let samples := [tt] in
  let k := 2 / hbar K * 1 / c K in
  let E (_ : unit) := lab_field 0 C1 in
  let p s := mvec (lab_tensor 0 identity3) (E s) in
  samples <> [] /\ C1 <> C0 /\
  (forall s : unit, In s samples -> invertible identity3) /\
  exists sigma : per unit R,
    (forall s, In s samples ->
               at_sample sigma s = absorption_formula k C1 (p s) (E s))
    /\ single_dip_absorption K (One 0) None (One identity3) 2 C1 1
       = Ok (as_batch samples sigma).
Proof.
  intros K samples k E p.
  assert (Hne : samples <> []) by discriminate.
  assert (Hinv : forall s : unit, In s samples -> invertible identity3).
  { intros s _. exists identity3. split; apply mmul_1_l. }
  split; [exact Hne|]. split; [exact C1_neq_C0|]. split; [exact Hinv|].
  exact (single_dip_absorption_formula K samples (inl 0) None (inl identity3)
           2 C1 1 Hne C1_neq_C0 Hinv).
Defined.

(** ** Tensors with one nonzero entry *)


Lemma x_only_singular (x : C) : det3 (x_only x) = C0.
Proof. unfold x_only. mat_unfold. ring. Qed.

Lemma x_only_C1 : x_only C1 = alpha_emitter.
Proof. unfold x_only, alpha_emitter. c_entries; f_equal; lra. Qed.

Lemma linalg_inv_x_only {S : Type} (samples : list S) (phi : per S R)
    (x : per S C) :
  samples <> [] ->
  linalg_inv (as_batch samples (lab_tensor_per phi (per_map x_only x)))
  = Raise LinAlgError.
Proof.
  intros Hne. destruct samples as [|s0 l]; [congruence|].
  apply (linalg_inv_singular (s0 :: l) _ s0); [now left|].
  rewrite at_lab_tensor_per, lab_tensor_invertible, invertible_det, at_per_map.
  intros Hd. apply Hd, x_only_singular.
Qed.



(** X15.  Nor can [sigma_abs_coupled]: on inputs for which the coupled
    solver succeeds, it raises [LinAlgError] when the emitter's tensor has
    the xx entry only, because it inverts the emitter's lab-frame tensor,
    whose third row and column are exactly zero. *)
Theorem sigma_abs_coupled_raises_on_x_only_emitter (K : constants) {S : Type}
    (samples : list S) (d_of : S -> rvec) (phi_0 phi_1 : per S R)
    (E_d_angle : option R) (drive_hbar_w : R)
    (x : per S C) (alpha1_diag : per S cmat) (n_b : R) (drive_amp : C) :
  let alpha_0 s := lab_tensor (at_sample phi_0 s) (x_only (at_sample x s)) in
  let alpha_1 s := lab_tensor (at_sample phi_1 s) (at_sample alpha1_diag s) in
  let g s := G_sample (drive_hbar_w / hbar K * n_b / c K) (d_of s) in
  samples <> [] ->
  (forall s, In s samples ->
             invertible (coupling_matrix (alpha_0 s) (g s) (alpha_1 s))) ->
  sigma_abs_coupled K (as_batch samples phi_0) (as_batch samples phi_1)
    (map d_of samples) (option_map One E_d_angle) drive_hbar_w
    (as_batch samples (per_map x_only x)) (as_batch samples alpha1_diag)
    n_b drive_amp
  = Raise LinAlgError.
Proof.
  intros alpha_0 alpha_1 g Hne Hinv.
  unfold sigma_abs_coupled, coupled_dip_mags_both_driven.
  rewrite (both_driven_per samples (G K) g d_of phi_0 phi_1 E_d_angle
             drive_hbar_w (per_map x_only x) alpha1_diag n_b drive_amp true).
  2:{ unfold G. cbv zeta. now rewrite map_map. }
  2:{ intros s Hs. rewrite at_per_map. now apply Hinv. }
  cbv zeta. cbn [negb bind].
  now rewrite linalg_inv_x_only.
Qed.

Lemma sigma_abs_coupled_raises_on_x_only_emitter_witness :
  let K := unit_constants in
  let samples := [tt] in
  let d_of (_ : unit) := d_oblique in
  let alpha_0 (_ : unit) := lab_tensor 0 (x_only C1) in
  let alpha_1 (_ : unit) := lab_tensor 0 alpha_particle in
  let g s := G_sample (0 / hbar K * 1 / c K) (d_of s) in
  samples <> [] /\
  (forall s, In s samples ->
             invertible (coupling_matrix (alpha_0 s) (g s) (alpha_1 s))) /\
  sigma_abs_coupled K (One 0) (One 0) [d_oblique] None 0
    (One (x_only C1)) (One alpha_particle) 1 C1
  = Raise LinAlgError.
Proof.
  intros K samples d_of alpha_0 alpha_1 g.
  assert (Hne : samples <> []) by discriminate.
  assert (H1 : forall s, In s samples ->
                 invertible (coupling_matrix (alpha_0 s) (g s) (alpha_1 s))).
  { intros s _. unfold alpha_0, alpha_1, g, d_of. rewrite !lab_tensor_0, x_only_C1.
    change (0 / hbar K * 1 / c K) with (0 / 1 * 1 / 1).
    rewrite G_sample_oblique. exact invertible_oblique. }
  split; [exact Hne|]. split; [exact H1|].
  exact (sigma_abs_coupled_raises_on_x_only_emitter K samples d_of (inl 0) (inl 0)
           None 0 (inl C1) (inl alpha_particle) 1 C1 Hne H1).
Defined.

(** ** The parts of the scattering cross section *)

Lemma sigma_scat_coupled_parts_rows (K : constants)
    (dipoles_moments_per_omega : R -> list cvec * list cvec)
    (samples : list (rvec * (cvec * cvec))) (drive_hbar_w n_b : R) (E_0 : C) :
  let k := drive_hbar_w / hbar K * n_b / c K in
  let pref := 4 * PI * k / (n_b * Cnorm2 E_0) in
  let inter s :=
    im_dot_conj (fst (snd s)) (mvec (G_sample k (fst s)) (snd (snd s)))
    + im_dot_conj (snd (snd s)) (mvec (G_sample k (fst s)) (fst (snd s))) in
  let diag_0 s := (2 / 3) * k ^ 3 * vnorm2 (fst (snd s)) in
  let diag_1 s := (2 / 3) * k ^ 3 * vnorm2 (snd (snd s)) in
  dipoles_moments_per_omega (drive_hbar_w / hbar K)
  = (map (fun s => fst (snd s)) samples, map (fun s => snd (snd s)) samples) ->
  sigma_scat_coupled K dipoles_moments_per_omega (map fst samples)
    drive_hbar_w n_b E_0
  = Ok (map (fun s => pref * inter s + pref * diag_0 s + pref * diag_1 s) samples,
        [map (fun s => pref * inter s) samples;
         map (fun s => pref * diag_0 s) samples;
         map (fun s => pref * diag_1 s) samples]).
Proof.
  intros k pref inter diag_0 diag_1 Hp. unfold sigma_scat_coupled. rewrite Hp.
  unfold G. cbv zeta. fold k. rewrite map_map.
  unfold einsum_ij_j.
  repeat (first [rewrite bmap2_map_map | rewrite bmap2_map_l | rewrite bmap2_map_r];
          cbn [bind]).
  unfold sum_axis1, bmap. rewrite !map_map.
  repeat (first [rewrite bmap2_map_map | rewrite bmap2_map_l | rewrite bmap2_map_r];
          cbn [bind]).
  rewrite !map_map. cbn [many_of].
  unfold stack3. rewrite !length_map, Nat.eqb_refl. cbn [andb bind map].
  rewrite !map_map.
  assert (Hq : forall x, x * (4 * PI * k / (n_b * Cmod E_0 ^ 2)) = pref * x).
  { intros x. unfold pref. rewrite Cmod_sq. ring. }
  f_equal. f_equal; [|f_equal; [|f_equal; [|f_equal]]];
    apply map_ext; intros s; rewrite ?Hq, ?prefactor_eq, ?interference_rows,
      ?abs_norm_sq_vnorm2; unfold pref, inter, diag_0, diag_1; ring.
Qed.

(** X16.  [sigma_scat_coupled] returns the total with its three contributions:
    the interference term and the two dipoles' own terms, each times
    4 pi k/(n_b |E0|^2); row by row the total is their sum, and the two own
    terms are never negative when n_b > 0. *)
Theorem sigma_scat_coupled_parts (K : constants)
    (dipoles_moments_per_omega : R -> list cvec * list cvec)
    (d_col : list rvec) (drive_hbar_w n_b : R) (E_0 : C) (p_0 p_1 : list cvec) :
  let omega := drive_hbar_w / hbar K in
  let k := omega * n_b / c K in
  let pref := 4 * PI * k / (n_b * Cnorm2 E_0) in
  let t := combine d_col (combine p_0 p_1) in
  let inter s :=
    im_dot_conj (fst (snd s)) (mvec (G_sample k (fst s)) (snd (snd s)))
    + im_dot_conj (snd (snd s)) (mvec (G_sample k (fst s)) (fst (snd s))) in
  let diag_0 s := (2 / 3) * k ^ 3 * vnorm2 (fst (snd s)) in
  let diag_1 s := (2 / 3) * k ^ 3 * vnorm2 (snd (snd s)) in
  dipoles_moments_per_omega omega = (p_0, p_1) ->
  List.length p_0 = List.length d_col ->
  List.length p_1 = List.length d_col ->
  (forall d, In d d_col -> 0 < norm3 d) ->
  0 < n_b -> E_0 <> C0 ->
  sigma_scat_coupled K dipoles_moments_per_omega d_col drive_hbar_w n_b E_0
  = Ok (map (fun s => pref * inter s + pref * diag_0 s + pref * diag_1 s) t,
        [map (fun s => pref * inter s) t;
         map (fun s => pref * diag_0 s) t;
         map (fun s => pref * diag_1 s) t])
  /\ forall s, 0 <= pref * diag_0 s /\ 0 <= pref * diag_1 s.
Proof.
  intros omega k pref t inter diag_0 diag_1 Hp H0 H1 _ Hn HE. split.
  - destruct (equal_length_columns d_col p_0 p_1 H0 H1) as (E1 & E2 & E3).
    fold t in E1, E2, E3.
    pose proof (sigma_scat_coupled_parts_rows K dipoles_moments_per_omega t
                  drive_hbar_w n_b E_0) as Hs.
    cbv zeta in Hs. rewrite <- E1 in Hs. apply Hs.
    fold omega. now rewrite Hp, <- E2, <- E3.
  - assert (Hpos : forall p, 0 <= pref * ((2 / 3) * k ^ 3 * vnorm2 p)).
    { intros p.
      assert (Hv : 0 <= vnorm2 p).
      { destruct p as [x y z]. unfold vnorm2.
        pose proof (Cnorm2_nonneg x). pose proof (Cnorm2_nonneg y).
        pose proof (Cnorm2_nonneg z). lra. }
      assert (HC : 0 < Cnorm2 E_0) by now apply Cnorm2_pos.
      assert (HN : 0 < n_b * Cnorm2 E_0) by now apply Rmult_lt_0_compat.
      unfold pref.
      replace (4 * PI * k / (n_b * Cnorm2 E_0) * (2 / 3 * k ^ 3 * vnorm2 p))
        with ((8 / 3) * PI * (k ^ 2) ^ 2 * vnorm2 p / (n_b * Cnorm2 E_0))
        by (field; split; lra).
      apply Rmult_le_pos; [|left; now apply Rinv_0_lt_compat].
      apply Rmult_le_pos; [|exact Hv].
      apply Rmult_le_pos; [pose proof PI_RGT_0; lra|].
      apply pow2_ge_0. }
    intros s. split; apply Hpos.
Qed.

Lemma sigma_scat_coupled_parts_witness :
  let K := unit_constants in
  let omega := 2 / hbar K in
  let k := omega * 1 / c K in
  let pref := 4 * PI * k / (1 * Cnorm2 C1) in
  let t := combine [d_oblique] (combine [e_x] [e_x]) in
  let inter (s : rvec * (cvec * cvec)) :=
    im_dot_conj (fst (snd s)) (mvec (G_sample k (fst s)) (snd (snd s)))
    + im_dot_conj (snd (snd s)) (mvec (G_sample k (fst s)) (fst (snd s))) in
  let diag_0 (s : rvec * (cvec * cvec)) := (2 / 3) * k ^ 3 * vnorm2 (fst (snd s)) in
  let diag_1 (s : rvec * (cvec * cvec)) := (2 / 3) * k ^ 3 * vnorm2 (snd (snd s)) in
  (fun _ : R => ([e_x], [e_x])) omega = ([e_x], [e_x]) /\
  List.length [e_x] = List.length [d_oblique] /\
  List.length [e_x] = List.length [d_oblique] /\
  (forall d, In d [d_oblique] -> 0 < norm3 d) /\
  0 < 1 /\ C1 <> C0 /\
  (sigma_scat_coupled K (fun _ => ([e_x], [e_x])) [d_oblique] 2 1 C1
   = Ok (map (fun s => pref * inter s + pref * diag_0 s + pref * diag_1 s) t,
         [map (fun s => pref * inter s) t;
          map (fun s => pref * diag_0 s) t;
          map (fun s => pref * diag_1 s) t])
   /\ forall s, 0 <= pref * diag_0 s /\ 0 <= pref * diag_1 s).
Proof.
  intros K omega k pref t inter diag_0 diag_1.
  assert (Hd : forall d, In d [d_oblique] -> 0 < norm3 d).
  { intros d [<-|[]]. rewrite norm3_d_oblique. lra. }
  split; [reflexivity|]. split; [reflexivity|]. split; [reflexivity|].
  split; [exact Hd|]. split; [exact Rlt_0_1|]. split; [exact C1_neq_C0|].
  exact (sigma_scat_coupled_parts K (fun _ => ([e_x], [e_x])) [d_oblique] 2 1 C1
           [e_x] [e_x] eq_refl eq_refl eq_refl Hd Rlt_0_1 C1_neq_C0).
Defined.

(** ** Dispersion models *)

Lemma Cim_nonzero (z : C) : Cim z <> 0 -> z <> C0.
Proof. intros H E. apply H. rewrite E. reflexivity. Qed.

Lemma drude_denominator (w gamma : R) :
  w <> 0 -> gamma <> 0 -> forall x : R,
  (RtoC (w ^ 2) + Ci * RtoC w * RtoC gamma - RtoC x)%C <> C0.
Proof.
  intros Hw Hg x. apply Cim_nonzero.
  unfold Cim, Cminus, Cplus, Cmult, Copp, Ci, RtoC. cbn [fst snd].
  intros H. apply (Rmult_integral_contrapositive_currified w gamma Hw Hg). lra.
Qed.

(** X17.  The Drude permittivity at a positive frequency, in real and imaginary
    parts: Re eps = eps_inf - w_p^2/(w^2 + gamma^2) and
    Im eps = w_p^2 gamma/(w (w^2 + gamma^2)), which is never negative when
    the damping is not (the metal absorbs). *)
Theorem drude_model_parts (w eps_inf w_p gamma : R) :
  0 < w -> 0 <= gamma ->
  Cre (drude_model w eps_inf w_p gamma) = eps_inf - w_p ^ 2 / (w ^ 2 + gamma ^ 2)
  /\ Cim (drude_model w eps_inf w_p gamma)
     = w_p ^ 2 * gamma / (w * (w ^ 2 + gamma ^ 2))
  /\ 0 <= Cim (drude_model w eps_inf w_p gamma).
Proof.
  intros Hw Hg.
  assert (Hs : 0 < w ^ 2 + gamma ^ 2) by nra.
  assert (Hd : 0 < (w * w) ^ 2 + w * gamma * (w * gamma)).
  { assert (0 < w * w) by nra.
    assert (0 < (w * w) ^ 2) by now apply pow_lt.
    pose proof (Rle_0_sqr (w * gamma)) as Hq. unfold Rsqr in Hq. lra. }
  assert (Hre : Cre (drude_model w eps_inf w_p gamma)
                = eps_inf - w_p ^ 2 / (w ^ 2 + gamma ^ 2)).
  { unfold drude_model, Cre, Cdiv, Cinv, Cnorm2, Cminus, Cplus, Cmult, Copp, Ci, RtoC.
    cbn [fst snd]. field. split; lra. }
  assert (Him : Cim (drude_model w eps_inf w_p gamma)
                = w_p ^ 2 * gamma / (w * (w ^ 2 + gamma ^ 2))).
  { unfold drude_model, Cim, Cdiv, Cinv, Cnorm2, Cminus, Cplus, Cmult, Copp, Ci, RtoC.
    cbn [fst snd]. field. split; lra. }
  split; [exact Hre|]. split; [exact Him|].
  rewrite Him. apply Rmult_le_pos; [nra|].
  left. apply Rinv_0_lt_compat. nra.
Qed.

Lemma drude_model_parts_witness :
  0 < 1 /\ 0 <= 1 /\
  (Cre (drude_model 1 2 1 1) = 2 - 1 ^ 2 / (1 ^ 2 + 1 ^ 2)
   /\ Cim (drude_model 1 2 1 1) = 1 ^ 2 * 1 / (1 * (1 ^ 2 + 1 ^ 2))
   /\ 0 <= Cim (drude_model 1 2 1 1)).
Proof.
  split; [lra|]. split; [lra|].
  apply (drude_model_parts 1 2 1 1); lra.
Defined.

(** X18.  With no weight on the Lorentz oscillator (f_1 = 0) the Drude-Lorentz
    permittivity is the Drude permittivity, whatever the oscillator's
    frequency. *)
Theorem drude_lorentz_model_without_oscillator (w eps_inf w_p gamma w_1 : R) :
  w <> 0 -> gamma <> 0 ->
  drude_lorentz_model w eps_inf w_p gamma 0 w_1 = drude_model w eps_inf w_p gamma.
Proof.
  intros Hw Hg. unfold drude_lorentz_model, drude_model.
  pose proof (drude_denominator w gamma Hw Hg (w_1 ^ 2)) as H1.
  pose proof (drude_denominator w gamma Hw Hg 0) as H0.
  replace (RtoC (w ^ 2) + Ci * RtoC w * RtoC gamma - RtoC 0)%C
    with (RtoC (w ^ 2) + Ci * RtoC w * RtoC gamma)%C in H0
    by (change (RtoC 0) with C0; ring).
  replace (RtoC (1 - 0)) with C1 by (unfold C1; f_equal; ring).
  change (RtoC 0) with C0.
  field. split; assumption.
Qed.

Lemma drude_lorentz_model_without_oscillator_witness :
  1 <> 0 /\ 1 <> 0 /\
  drude_lorentz_model 1 2 1 1 0 3 = drude_model 1 2 1 1.
Proof.
  split; [lra|]. split; [lra|].
  apply (drude_lorentz_model_without_oscillator 1 2 1 1 3); lra.
Defined.

(** ** Sphere models *)

Lemma eqb_other (mode other : string) :
  mode <> other -> String.eqb mode other = false.
Proof. intros H. now apply String.eqb_neq. Qed.



Ltac c_pairs :=
  repeat match goal with z : C |- _ => destruct z end;
  unfold Cdiv, Cinv, Cnorm2, Cminus, Cplus, Cmult, Copp, C0, C1, Ci, RtoC;
  cbn [fst snd]; f_equal; lra.

Lemma clausius_mossotti_of_alphaR (eps : C) (eps_b a : R) :
  (eps + RtoC 2 * RtoC eps_b)%C <> C0 ->
  alphaR_clausius_mossotti eps eps_b a = clausius_mossotti eps eps_b a.
Proof.
  intros H. unfold alphaR_clausius_mossotti, clausius_mossotti.
  assert (H3 : RtoC 3 <> C0) by (unfold RtoC, C0; intros E; injection E; lra).
  replace (RtoC (a ^ 3 / 3)) with (RtoC (a ^ 3) / RtoC 3)%C
    by (rewrite RtoC_div by lra; reflexivity).
  replace (RtoC (1 / 3)) with (C1 / RtoC 3)%C
    by (unfold C1; rewrite RtoC_div by lra; reflexivity).
  rewrite RtoC_3 in *. rewrite RtoC_2 in *.
  field. split.
  - intros E. apply H. rewrite <- E. c_pairs.
  - intros E. apply H3. rewrite <- E. c_pairs.
Qed.

(** X20.  At zero frequency the retarded (MLWA) sphere and the T-matrix
    expansion sphere return the same isotropic tensor, the quasistatic
    polarizability a^3 (eps - eps_b)/(eps + 2 eps_b) on the diagonal. *)
Theorem sphere_models_static_limit (K : constants) (eps : C) (eps_b a : R) :
  0 < a -> 0 < eps_b -> c K <> 0 ->
  (eps + RtoC 2 * RtoC eps_b)%C <> C0 ->
  let alpha := clausius_mossotti eps eps_b a in
  sparse_ret_sphere_polarizability K eps eps_b a 0 None
  = Ok (diag3 alpha alpha alpha)
  /\ sparse_sphere_polarizability_TMatExp K eps eps_b a 0 None
     = Ok (diag3 alpha alpha alpha).
Proof.
  intros Ha Hb Hc He alpha.
  assert (Hk : 0 * sqrt eps_b / c K = 0) by (unfold Rdiv; ring).
  assert (Hbz : RtoC eps_b <> C0)
    by (unfold RtoC, C0; intros E; injection E; lra).
  split.
  - unfold sparse_ret_sphere_polarizability. rewrite distribute_full.
    assert (H : forall i, sphere_alphaMW_ii K eps eps_b a 0 i = alpha).
    { intros i. unfold alpha. rewrite <- clausius_mossotti_of_alphaR by exact He.
      apply (mlwa_sphere_static (alphaR_clausius_mossotti eps eps_b a)
               (0 * sqrt eps_b / c K) a Hk). }
    now rewrite !H.
  - unfold sparse_sphere_polarizability_TMatExp. cbv zeta.
    rewrite distribute_full.
    assert (H : alphaTME_ii K eps eps_b 0 a = alpha).
    { unfold alphaTME_ii, alpha, clausius_mossotti. cbv zeta.
      replace (0 * sqrt eps_b / c K * a) with 0 by (unfold Rdiv; ring).
      replace (RtoC (0 ^ 2 / 10)) with C0 by (unfold C0; f_equal; field).
      replace (RtoC (2 * 0 ^ 3 / 3)) with C0 by (unfold C0; f_equal; field).
      rewrite RtoC_2 in *.
      field. split; [|exact Hbz].
      intros E. apply He. rewrite <- E. c_pairs. }
    now rewrite !H.
Qed.

Lemma sphere_models_static_limit_witness :
  0 < 1 /\ 0 < 1 /\ c unit_constants <> 0 /\
  (RtoC 2 + RtoC 2 * RtoC 1)%C <> C0 /\
  (sparse_ret_sphere_polarizability unit_constants (RtoC 2) 1 1 0 None
   = Ok (diag3 (clausius_mossotti (RtoC 2) 1 1) (clausius_mossotti (RtoC 2) 1 1)
           (clausius_mossotti (RtoC 2) 1 1))
   /\ sparse_sphere_polarizability_TMatExp unit_constants (RtoC 2) 1 1 0 None
      = Ok (diag3 (clausius_mossotti (RtoC 2) 1 1) (clausius_mossotti (RtoC 2) 1 1)
              (clausius_mossotti (RtoC 2) 1 1))).
Proof.
  assert (Hc : c unit_constants <> 0) by (cbn; lra).
  assert (He : (RtoC 2 + RtoC 2 * RtoC 1)%C <> C0).
  { unfold RtoC, C0, Cplus, Cmult. cbn [fst snd]. intros E. injection E. lra. }
  split; [lra|]. split; [lra|]. split; [exact Hc|]. split; [exact He|].
  exact (sphere_models_static_limit unit_constants (RtoC 2) 1 1
           Rlt_0_1 Rlt_0_1 Hc He).
Defined.

(** ** Spheroid and ellipsoid models *)

Section SpheroidModes.

Variables (K : constants) (eps : C) (eps_b w a_x a_yz : R).

Lemma alphaMW_ii_3_2 :
  alphaMW_ii K eps eps_b w 3 a_x a_yz = alphaMW_ii K eps eps_b w 2 a_x a_yz.
Proof. reflexivity. Qed.

Lemma alphaMW_ii_returns (i : nat) :
  a_x <> a_yz -> i = 1%nat \/ i = 2%nat ->
  exists z, alphaMW_ii K eps eps_b w i a_x a_yz = Ok z.
Proof.
  intros Hne Hi.
  unfold alphaMW_ii, alphaR_ii, spheroid_L_i, D_yz, D_x, spheroid_L_i, L_yz, L_x.
  destruct Hi as [-> | ->]; cbn [Nat.eqb orb];
    destruct (Rgt_dec a_x a_yz); cbn [bind];
    try (eexists; reflexivity);
    destruct (Rlt_dec a_x a_yz); cbn [bind];
    try (eexists; reflexivity); exfalso; lra.
Qed.

End SpheroidModes.

(** X21.  For positive, unequal semi-axes [sparse_ret_prolate_spheroid_polarizability]
    returns in every known mode.  With a1 the component along the symmetry
    axis (of length a_x) and a2 the component across it: a prolate spheroid
    (a_x > a_yz) gets diag(a1, a2, a2), of which ['long'] keeps xx and
    ['short'] yy and zz; an oblate one (a_x < a_yz) gets diag(a2, a2, a1),
    its short axis along z, of which ['long'] keeps xx and yy and ['short']
    zz.  In both shapes the long and short tensors add up to the full one,
    ['trans'] is ['short'], and any other mode string raises
    [UnboundLocalError]. *)
Theorem spheroid_modes_decompose (K : constants) (eps : C)
    (eps_b w a_x a_yz : R) :
  0 < a_x -> 0 < a_yz -> a_x <> a_yz ->
  let model := sparse_ret_prolate_spheroid_polarizability K eps eps_b w a_x a_yz in
  exists a1 a2 t_full t_long t_short : _,
    alphaMW_ii K eps eps_b w 1 a_x a_yz = Ok a1
    /\ alphaMW_ii K eps eps_b w 2 a_x a_yz = Ok a2
    /\ model None = Ok t_full
    /\ model (Some "long"%string) = Ok t_long
    /\ model (Some "short"%string) = Ok t_short
    /\ model (Some "trans"%string) = Ok t_short
    /\ madd t_long t_short = t_full
    /\ (a_yz < a_x ->
        t_full = diag3 a1 a2 a2 /\ t_long = diag3 a1 C0 C0
        /\ t_short = diag3 C0 a2 a2)
    /\ (a_x < a_yz ->
        t_full = diag3 a2 a2 a1 /\ t_long = diag3 a2 a2 C0
        /\ t_short = diag3 C0 C0 a1)
    /\ forall mode : string,
         mode <> "long"%string -> mode <> "short"%string -> mode <> "trans"%string ->
         model (Some mode) = Raise (UnboundLocalError "alpha_ij").
Proof.
  intros _ _ Hne model.
  destruct (alphaMW_ii_returns K eps eps_b w a_x a_yz 1 Hne (or_introl eq_refl))
    as [a1 E1].
  destruct (alphaMW_ii_returns K eps eps_b w a_x a_yz 2 Hne (or_intror eq_refl))
    as [a2 E2].
  assert (Hadd1 : madd (diag3 a1 C0 C0) (diag3 C0 a2 a2) = diag3 a1 a2 a2)
    by (destruct a1, a2; mat_ring).
  assert (Hadd2 : madd (diag3 a2 a2 C0) (diag3 C0 C0 a1) = diag3 a2 a2 a1)
    by (destruct a1, a2; mat_ring).
  exists a1, a2. unfold model, sparse_ret_prolate_spheroid_polarizability.
  rewrite alphaMW_ii_3_2, E1, E2.
  cbn [String.eqb Ascii.eqb Bool.eqb orb].
  destruct (Rgt_dec a_x a_yz) as [Hgt|Hgt]; cbn [bind read_local].
  - exists (diag3 a1 a2 a2), (diag3 a1 C0 C0), (diag3 C0 a2 a2).
    do 6 (split; [reflexivity|]).
    split; [exact Hadd1|]. split; [auto|]. split; [intros; exfalso; lra|].
    intros mode M1 M2 M3. now rewrite !eqb_other.
  - destruct (Rlt_dec a_x a_yz) as [Hlt|Hlt]; cbn [bind read_local];
      [|exfalso; lra].
    exists (diag3 a2 a2 a1), (diag3 a2 a2 C0), (diag3 C0 C0 a1).
    do 6 (split; [reflexivity|]).
    split; [exact Hadd2|]. split; [intros; exfalso; lra|]. split; [auto|].
    intros mode M1 M2 M3. now rewrite !eqb_other.
Qed.

Lemma spheroid_modes_decompose_witness :
  let model := sparse_ret_prolate_spheroid_polarizability unit_constants
                 (RtoC 2) 1 0 2 1 in
  0 < 2 /\ 0 < 1 /\ 2 <> 1 /\
  exists a1 a2 t_full t_long t_short : _,
    alphaMW_ii unit_constants (RtoC 2) 1 0 1 2 1 = Ok a1
    /\ alphaMW_ii unit_constants (RtoC 2) 1 0 2 2 1 = Ok a2
    /\ model None = Ok t_full
    /\ model (Some "long"%string) = Ok t_long
    /\ model (Some "short"%string) = Ok t_short
    /\ model (Some "trans"%string) = Ok t_short
    /\ madd t_long t_short = t_full
    /\ (1 < 2 ->
        t_full = diag3 a1 a2 a2 /\ t_long = diag3 a1 C0 C0
        /\ t_short = diag3 C0 a2 a2)
    /\ (2 < 1 ->
        t_full = diag3 a2 a2 a1 /\ t_long = diag3 a2 a2 C0
        /\ t_short = diag3 C0 C0 a1)
    /\ forall mode : string,
         mode <> "long"%string -> mode <> "short"%string -> mode <> "trans"%string ->
         model (Some mode) = Raise (UnboundLocalError "alpha_ij").
Proof.
  intros model.
  assert (H2 : 0 < 2) by lra. assert (H1 : 0 < 1) by lra.
  assert (Hne : 2 <> 1) by lra.
  split; [exact H2|]. split; [exact H1|]. split; [exact Hne|].
  exact (spheroid_modes_decompose unit_constants (RtoC 2) 1 0 2 1 H2 H1 Hne).
Defined.




(** ** The quasistatic ellipsoid *)

Lemma L_i_swap (K : constants) (a b c_ : R) : L_i K a b c_ = L_i K a c_ b.
Proof.
  unfold L_i. cbv zeta.
  generalize (map (fun x => x * nm K ^ 2) (linspace 0 10000 (Z.to_nat 100000))).
  intros q.
  replace (map (fun q0 => sqrt ((a ^ 2 + q0) * (c_ ^ 2 + q0) * (b ^ 2 + q0))) q)
    with (map (fun q0 => sqrt ((a ^ 2 + q0) * (b ^ 2 + q0) * (c_ ^ 2 + q0))) q)
    by (apply map_ext; intros x; f_equal; ring).
  f_equal. field.
Qed.

Lemma mget_0_0_diag3 (x y z : C) : mget 0 0 (diag3 x y z) = x.
Proof. reflexivity. Qed.

Lemma mget_1_1_diag3 (x y z : C) : mget 1 1 (diag3 x y z) = y.
Proof. reflexivity. Qed.

Lemma ellipsoid_swap_entries (K : constants) (e : C) (eps_b a b d : R) :
  sparse_ellipsoid_polarizability K e eps_b a d b
  = diag3 (mget 0 0 (sparse_ellipsoid_polarizability K e eps_b a b d))
          (mget 2 2 (sparse_ellipsoid_polarizability K e eps_b a b d))
          (mget 1 1 (sparse_ellipsoid_polarizability K e eps_b a b d)).
Proof.
  unfold sparse_ellipsoid_polarizability.
  cbn [mget vget diag3].
  rewrite (L_i_swap K a d b), (L_i_swap K d b a), (L_i_swap K b a d).
  replace (a * d * b) with (a * b * d) by ring.
  replace (d * b * a) with (d * a * b) by ring.
  replace (b * a * d) with (b * d * a) by ring.
  reflexivity.
Qed.

(** X24.  Exchanging the second and third semi-axes of
    [sparse_ellipsoid_polarizability] exchanges the yy and zz entries and
    leaves xx alone, so that an ellipsoid with equal second and third
    semi-axes has equal yy and zz polarizabilities; [sigma_scat_spheroid], which reads xx,
    does not change. *)
Theorem ellipsoid_axes_swap (K : constants) (eps : C) (eps_b a_x a_y a_z : R) :
  sparse_ellipsoid_polarizability K eps eps_b a_x a_z a_y
  = diag3 (mget 0 0 (sparse_ellipsoid_polarizability K eps eps_b a_x a_y a_z))
          (mget 2 2 (sparse_ellipsoid_polarizability K eps eps_b a_x a_y a_z))
          (mget 1 1 (sparse_ellipsoid_polarizability K eps eps_b a_x a_y a_z))
  /\ mget 1 1 (sparse_ellipsoid_polarizability K eps eps_b a_x a_y a_y)
     = mget 2 2 (sparse_ellipsoid_polarizability K eps eps_b a_x a_y a_y)
  /\ forall w eps_inf w_p gamma,
       sigma_scat_spheroid K w eps_inf w_p gamma eps_b a_x a_z a_y
       = sigma_scat_spheroid K w eps_inf w_p gamma eps_b a_x a_y a_z.
Proof.
  split; [apply ellipsoid_swap_entries|]. split.
  - pose proof (ellipsoid_swap_entries K eps eps_b a_x a_y a_y) as E.
    apply (f_equal (mget 1 1)) in E. rewrite mget_1_1_diag3 in E. exact E.
  - intros w eps_inf w_p gamma.
    unfold sigma_scat_spheroid, sparse_ellipsoid_polarizability_drude.
    cbv zeta.
    rewrite (ellipsoid_swap_entries K (drude_model w eps_inf w_p gamma) eps_b
               a_x a_y a_z).
    rewrite mget_0_0_diag3. reflexivity.
Qed.

(** ** Absorption of the coupled pair *)

Lemma interference_with_rows {S : Type} (samples : list S) (a : per S cmat)
    (p : S -> cvec) :
  interference_with (as_batch samples a) (Many (map p samples))
  = Ok (Many (map (fun s => extinction_term_rows (at_sample a s) (p s)) samples)).
Proof.
  unfold interference_with, einsum_ij_j.
  rewrite bmap2_as_batch_l. cbn [bind].
  rewrite bmap2_map_map. cbn [bind bmap]. now rewrite map_map.
Qed.

(** X25.  When the coupling and both polarizabilities are invertible at every
    row, [sigma_abs_coupled] returns, row by row, the total
    (4 pi k/|E0|^2) (I_0 + I_1 - D_0 - D_1) and the four contributions
    I_0, D_0, I_1, D_1, each times 4 pi k/|E0|^2, in that order, where
    I_j = Im(p_j . conj(a_j^-1 p_j)) and D_j = (2/3) k^3 |p_j|^2 for the
    moments p_0, p_1 of [coupled_dip_mags_both_driven] and the lab-frame
    tensors a_0, a_1. *)
Theorem sigma_abs_coupled_formula (K : constants) {S : Type}
    (samples : list S) (d_of : S -> rvec) (phi_0 phi_1 : per S R)
    (E_d_angle : option R) (drive_hbar_w : R)
    (alpha0_diag alpha1_diag : per S cmat) (n_b : R) (drive_amp : C) :
  let k := drive_hbar_w / hbar K * n_b / c K in
  let alpha_0 s := lab_tensor (at_sample phi_0 s) (at_sample alpha0_diag s) in
  let alpha_1 s := lab_tensor (at_sample phi_1 s) (at_sample alpha1_diag s) in
  let E s := lab_field (drive_angle E_d_angle (at_sample phi_0 s)) drive_amp in
  let g s := G_sample k (d_of s) in
  let M s := inverse_of (coupling_matrix (alpha_0 s) (g s) (alpha_1 s)) in
  let p_0 s := closed_form (M s) (alpha_0 s) (g s) (alpha_1 s) (E s) in
  let p_1 s := closed_form (M s) (alpha_1 s) (g s) (alpha_0 s) (E s) in
  let pref := 4 * PI * k / Cnorm2 drive_amp in
  let I_0 s := extinction_term (alpha_0 s) (p_0 s) in
  let I_1 s := extinction_term (alpha_1 s) (p_1 s) in
  let D_0 s := scattered_term k (p_0 s) in
  let D_1 s := scattered_term k (p_1 s) in
  samples <> [] -> drive_amp <> C0 ->
  (forall s, In s samples -> 0 < norm3 (d_of s)) ->
  (forall s, In s samples ->
             invertible (coupling_matrix (alpha_0 s) (g s) (alpha_1 s))) ->
  (forall s, In s samples ->
             invertible (at_sample alpha0_diag s)
             /\ invertible (at_sample alpha1_diag s)) ->
  sigma_abs_coupled K (as_batch samples phi_0) (as_batch samples phi_1)
    (map d_of samples) (option_map One E_d_angle) drive_hbar_w
    (as_batch samples alpha0_diag) (as_batch samples alpha1_diag) n_b drive_amp
  = Ok (map (fun s => pref * (I_0 s + I_1 s - D_0 s - D_1 s)) samples,
        [map (fun s => pref * I_0 s) samples;
         map (fun s => pref * D_0 s) samples;
         map (fun s => pref * I_1 s) samples;
         map (fun s => pref * D_1 s) samples]).
Proof.
  intros k alpha_0 alpha_1 E g M p_0 p_1 pref I_0 I_1 D_0 D_1 Hne _ _ Hinv Ha.
  unfold sigma_abs_coupled, coupled_dip_mags_both_driven.
  rewrite (both_driven_per samples (G K) g d_of phi_0 phi_1 E_d_angle
             drive_hbar_w alpha0_diag alpha1_diag n_b drive_amp true).
  2:{ unfold G. cbv zeta. now rewrite map_map. }
  2:{ exact Hinv. }
  cbv zeta. cbn [negb bind]. fold alpha_0 alpha_1 E M. fold p_0 p_1.
  rewrite !linalg_inv_per; try exact Hne.
  2,3: intros s Hs; rewrite at_lab_tensor_per; apply lab_tensor_invertible;
    now apply Ha.
  cbn [bind]. rewrite !interference_with_rows. cbn [bind bmap].
  rewrite !map_map.
  repeat (rewrite bmap2_map_map; cbn [bind bmap]).
  rewrite !map_map. cbn [many_of].
  unfold stack4. rewrite !length_map, Nat.eqb_refl. cbn [andb bind map].
  rewrite !map_map.
  assert (Hq : forall x, x * (4 * PI * k / Cmod drive_amp ^ 2) = pref * x).
  { intros x. unfold pref. rewrite Cmod_sq. ring. }
  assert (HI : forall (ph : per S R) (al : per S cmat) (s : S) (p : cvec),
             extinction_term_rows (at_sample (per_map inverse_of (lab_tensor_per ph al)) s) p
             = extinction_term (lab_tensor (at_sample ph s) (at_sample al s)) p).
  { intros ph al s p. unfold extinction_term_rows, extinction_term.
    now rewrite at_per_map, at_lab_tensor_per, im_rows_dot. }
  f_equal. f_equal; [|f_equal; [|f_equal; [|f_equal; [|f_equal]]]];
    apply map_ext; intros s; rewrite ?Hq, ?HI, ?abs_norm_sq_vnorm2;
    unfold pref, I_0, I_1, D_0, D_1, scattered_term; fold k;
    rewrite ?Cmod_sq; reflexivity.
Qed.

Lemma alpha_third_invertible : invertible alpha_third.
Proof.
  apply invertible_det. unfold alpha_third. c_entries.
  intros H. injection H. intros. lra.
Qed.

Lemma coupling_matrix_third_invertible :
  invertible (coupling_matrix (lab_tensor 0 alpha_third)
                (G_sample (0 / 1 * 1 / 1) (V3 1 0 0))
                (lab_tensor 0 alpha_third)).
Proof.
  rewrite !lab_tensor_0, G_sample_x_axis.
  apply invertible_det. unfold alpha_third. c_entries.
  intros H. injection H. intros. lra.
Qed.

Lemma sigma_abs_coupled_formula_witness :
  let K := unit_constants in
  let samples := [tt] in
  let d_of (_ : unit) := V3 1 0 0 in
  let k := 0 / hbar K * 1 / c K in
  let alpha_0 (_ : unit) := lab_tensor 0 alpha_third in
  let alpha_1 (_ : unit) := lab_tensor 0 alpha_third in
  let E (_ : unit) := lab_field 0 C1 in
  let g s := G_sample k (d_of s) in
  let M s := inverse_of (coupling_matrix (alpha_0 s) (g s) (alpha_1 s)) in
  let p_0 s := closed_form (M s) (alpha_0 s) (g s) (alpha_1 s) (E s) in
  let p_1 s := closed_form (M s) (alpha_1 s) (g s) (alpha_0 s) (E s) in
  let pref := 4 * PI * k / Cnorm2 C1 in
  let I_0 s := extinction_term (alpha_0 s) (p_0 s) in
  let I_1 s := extinction_term (alpha_1 s) (p_1 s) in
  let D_0 s := scattered_term k (p_0 s) in
  let D_1 s := scattered_term k (p_1 s) in
  samples <> [] /\ C1 <> C0 /\
  (forall s, In s samples -> 0 < norm3 (d_of s)) /\
  (forall s, In s samples ->
             invertible (coupling_matrix (alpha_0 s) (g s) (alpha_1 s))) /\
  (forall s : unit, In s samples ->
             invertible alpha_third /\ invertible alpha_third) /\
  sigma_abs_coupled K (One 0) (One 0) [V3 1 0 0] None 0
    (One alpha_third) (One alpha_third) 1 C1
  = Ok (map (fun s => pref * (I_0 s + I_1 s - D_0 s - D_1 s)) samples,
        [map (fun s => pref * I_0 s) samples;
         map (fun s => pref * D_0 s) samples;
         map (fun s => pref * I_1 s) samples;
         map (fun s => pref * D_1 s) samples]).
Proof.
  intros K samples d_of k alpha_0 alpha_1 E g M p_0 p_1 pref I_0 I_1 D_0 D_1.
  assert (Hne : samples <> []) by discriminate.
  assert (Hd : forall s, In s samples -> 0 < norm3 (d_of s)).
  { intros s _. unfold d_of. rewrite norm3_e1. lra. }
  assert (Hinv : forall s, In s samples ->
                   invertible (coupling_matrix (alpha_0 s) (g s) (alpha_1 s))).
  { intros s _. exact coupling_matrix_third_invertible. }
  assert (Ha : forall s : unit, In s samples ->
                 invertible alpha_third /\ invertible alpha_third).
  { intros s _. split; exact alpha_third_invertible. }
  split; [exact Hne|]. split; [exact C1_neq_C0|]. split; [exact Hd|].
  split; [exact Hinv|]. split; [exact Ha|].
  exact (sigma_abs_coupled_formula K samples d_of (inl 0) (inl 0) None 0
           (inl alpha_third) (inl alpha_third) 1 C1 Hne C1_neq_C0 Hd Hinv Ha).
Defined.

(** ** Absorbed power *)

(** X26.  [power_absorped] inverts the tensor it is given to recover the field
    from the moment.  For moments p = a E of tensors that are invertible
    at every sample it returns (omega/2) [ Im(p . conj E) - (2/3) k^3 |p|^2 ]
    at every sample; the drive amplitude it takes has no part in it. *)
Theorem power_absorped_formula (K : constants) {S : Type} (samples : list S)
    (a : per S cmat) (E : per S cvec) (drive_hbar_w : R) (drive_amp : C) (n_b : R) :
  let omega := drive_hbar_w / hbar K in
  let k := omega * n_b / c K in
  let p := per_map2 mvec a E in
  samples <> [] ->
  (forall s, In s samples -> invertible (at_sample a s)) ->
  exists sigma : per S R,
    (forall s, In s samples ->
       at_sample sigma s
       = omega / 2 * (im_dot_conj (at_sample p s) (at_sample E s)
                      - scattered_term k (at_sample p s)))
    /\ power_absorped K (as_batch samples p) (as_batch samples a)
         drive_hbar_w drive_amp n_b
       = Ok (as_batch samples sigma).
Proof.
  intros omega k p Hne Hinv. unfold power_absorped.
  rewrite linalg_inv_per by assumption. cbn [bind].
  unfold einsum_ij_j. rewrite bmap2_as_batch. cbn [bind].
  rewrite bmap2_as_batch. cbn [bind].
  rewrite bmap_as_batch, bmap2_as_batch. cbn [bind]. rewrite bmap_as_batch.
  eexists. split; [|reflexivity].
  intros s Hs.
  repeat first [rewrite at_per_map | rewrite at_per_map2].
  unfold p. rewrite at_per_map2.
  rewrite inverse_of_apply by now apply Hinv.
  rewrite abs_norm_sq_vnorm2. reflexivity.
Qed.

Lemma power_absorped_formula_witness :
  let K := unit_constants in
  let samples := [tt] in
  let a : per unit cmat := inl identity3 in
  let E : per unit cvec := inl e_x in
  let omega := 2 / hbar K in
  let k := omega * 1 / c K in
  let p := per_map2 mvec a E in
  samples <> [] /\
  (forall s, In s samples -> invertible (at_sample a s)) /\
  exists sigma : per unit R,
    (forall s, In s samples ->
       at_sample sigma s
       = omega / 2 * (im_dot_conj (at_sample p s) (at_sample E s)
                      - scattered_term k (at_sample p s)))
    /\ power_absorped K (as_batch samples p) (as_batch samples a) 2 C1 1
       = Ok (as_batch samples sigma).
Proof.
  intros K samples a E omega k p.
  assert (Hne : samples <> []) by discriminate.
  assert (Hinv : forall s, In s samples -> invertible (at_sample a s)).
  { intros s _. exists identity3. split; apply mmul_1_l. }
  split; [exact Hne|]. split; [exact Hinv|].
  exact (power_absorped_formula K samples a E 2 C1 1 Hne Hinv).
Defined.
